(** * thsms-socket: the vote-state coordinator of [index.js]

    A shallow embedding of the WebSocket voting server of [index.js], and
    the properties C1 to C10 of its specification settled on it.

    How the program is modelled.

    - The Redis server is a keyed store of strings with an optional expiry
      per key, and a clock in seconds ([Redis.db]).  [GET], [SET .. EX],
      [INCR], [DECR] and [DEL] follow the Redis commands: an expired key is
      gone, a missing counter counts from 0, [INCR] keeps the expiry of its
      key and answers with an error on a value that is not a 64-bit integer.
    - The identifiers that arrive in a message ([uuid], [contestantId]) and
      the ids of the catalog are JSON strings or JSON numbers ([JS.value]).
      The template literal, [===] against a reply of Redis, truthiness and
      [parseInt] are those of JavaScript.  Numbers are integers printed in
      plain decimal; counters and the round number are unbounded integers
      (the rounding of doubles above 2^53 is not modelled).
    - A message that parses is an envelope [{event, data}] whose [data]
      carries the fields of its event; other JSON values, on which the
      handler throws a [TypeError], are outside the model, and so are the
      event names that [eventHandlers] inherits from [Object.prototype].
    - The module-level variables ([users], [contestants], [currentRound]),
      the [isAdmin] property of every socket, the open sockets of
      [wss.clients] and the frames written to the sockets form the [state].
      An [async] function is a computation [M A] over it that completes
      ([Done]) or rejects ([Thrown]) at a failing store call; the calls that
      fail are scheduled by the [faults] of the state.
    - Every handler runs to completion before the next event is taken: the
      interleaving of handlers at their [await]s is not modelled. *)

From Stdlib Require Import ZArith NArith Ascii Decimal DecimalString DecimalN DecimalZ.
From stdpp Require Import gmap strings list fin_maps.

(** ** JavaScript values and coercions *)

Module JS.

(** A JSON scalar used as an identifier. *)
Inductive value :=
| Str (s : string)
| Num (z : Z).

#[global] Instance value_eq_dec : EqDecision value.
Proof. solve_decision. Defined.

Definition render_N (n : N) : string := NilEmpty.string_of_uint (N.to_uint n).
Definition render_Z (z : Z) : string := NilEmpty.string_of_int (Z.to_int z).

(** [`${v}`] and [String(v)]. *)
Definition template (v : value) : string :=
  match v with
  | Str s => s
  | Num z => render_Z z
  end.

(** [!!v] *)
Definition truthy (v : value) : bool :=
  match v with
  | Str s => negb (String.eqb s EmptyString)
  | Num z => negb (Z.eqb z 0)
  end.

(** A reply of [redis.get] is [null] or a string. *)
Definition reply := option string.

(** [!!r] for a reply. *)
Definition reply_truthy (r : reply) : bool :=
  match r with
  | Some s => negb (String.eqb s EmptyString)
  | None => false
  end.

(** [r === v]: a reply is strictly equal to a value only when both are the
    same string. *)
Definition strict_eq (r : reply) (v : value) : bool :=
  match r, v with
  | Some s, Str s' => String.eqb s s'
  | _, _ => false
  end.

Definition is_digit (a : ascii) : bool :=
  match uint_of_char a (Some Nil) with
  | Some _ => true
  | None => false
  end.

(** White space, as far as ASCII goes. *)
Definition is_space (a : ascii) : bool :=
  let n := nat_of_ascii a in
  Nat.eqb n 32 || (Nat.leb 9 n && Nat.leb n 13).

Fixpoint skip_space (s : string) : string :=
  match s with
  | String a r => if is_space a then skip_space r else s
  | EmptyString => s
  end.

Fixpoint digits_prefix (s : string) : string :=
  match s with
  | String a r => if is_digit a then String a (digits_prefix r) else EmptyString
  | EmptyString => EmptyString
  end.

Definition digits_value (s : string) : option Z :=
  match digits_prefix s with
  | EmptyString => None
  | ds => Z.of_uint <$> NilEmpty.uint_of_string ds
  end.

(** [parseInt(s, 10)]; [None] is [NaN]. *)
Definition parseInt (s : string) : option Z :=
  match skip_space s with
  | String a r =>
      if Ascii.eqb a "-" then Z.opp <$> digits_value r
      else if Ascii.eqb a "+" then digits_value r
      else digits_value (String a r)
  | EmptyString => None
  end.

(** [r || '0'] *)
Definition or_zero (r : reply) : string :=
  match r with
  | Some s => if String.eqb s EmptyString then "0" else s
  | None => "0"
  end.

End JS.

(** ** The Redis store *)

Module Redis.

Record entry := Entry { value : string; expires : option N }.

Abbreviation db := (gmap string entry).

Definition live (now : N) (e : entry) : bool :=
  match expires e with
  | Some t => (now <? t)%N
  | None => true
  end.

(** The entry a command sees at a key: an expired one is gone. *)
Definition find (m : db) (now : N) (k : string) : option entry :=
  match m !! k with
  | Some e => if live now e then Some e else None
  | None => None
  end.

Definition GET (m : db) (now : N) (k : string) : JS.reply :=
  value <$> find m now k.

(** [SET k v EX ttl] *)
Definition SETEX (m : db) (now : N) (k v : string) (ttl : N) : db :=
  <[k := Entry v (Some (now + ttl)%N)]> m.

Definition int64 (z : Z) : bool :=
  (Z.leb (- 2 ^ 63) z && Z.ltb z (2 ^ 63))%Z.

(** The integer a stored string stands for: its canonical decimal form
    only, within 64 bits. *)
Definition integer (s : string) : option Z :=
  match NilEmpty.int_of_string s with
  | Some i =>
      let z := Z.of_int i in
      if String.eqb (JS.render_Z z) s && int64 z then Some z else None
  | None => None
  end.

(** [INCRBY k delta]: a missing key counts as 0; the expiry of the key is
    kept; [None] is the error reply. *)
Definition INCRBY (m : db) (now : N) (k : string) (delta : Z) : option (db * Z) :=
  match find m now k with
  | Some e =>
      match integer (value e) with
      | Some z =>
          if int64 (z + delta)
          then Some (<[k := Entry (JS.render_Z (z + delta)) (expires e)]> m, (z + delta)%Z)
          else None
      | None => None
      end
  | None => Some (<[k := Entry (JS.render_Z delta) None]> m, delta)
  end.

Definition DEL (m : db) (k : string) : db := delete k m.

End Redis.

(** ** Keys *)

(** [`votes:round:${round}:user:${uuid}`] *)
Definition voteKey (round : N) (uuid : string) : string :=
  "votes:round:" +:+ JS.render_N round +:+ ":user:" +:+ uuid.

(** [`votes:round:${round}:contestant:${id}`] *)
Definition tallyKey (round : N) (id : string) : string :=
  "votes:round:" +:+ JS.render_N round +:+ ":contestant:" +:+ id.


(** ** Messages *)

(** A connection: the identity of one [ws] object. *)
Abbreviation conn := nat.

Module Contestant.
(** A row of the [contestants] table. *)
Record t := Make { id : JS.value; name : string }.
End Contestant.

(** The [data] object of an inbound envelope: [identify{uuid, token?}] and
    [vote{contestantId}]; handlers read the fields they need. *)
Record payload := Payload {
  data_uuid : JS.value;
  data_token : option string;
  data_contestantId : JS.value
}.

(** What [JSON.parse(msg)] gives. *)
Inductive inbound :=
| unparseable
| envelope (event : string) (data : payload).

(** The value stored in the [users] map. *)
Record user := User { uuid : JS.value }.

Module Out.
(** The outbound envelopes. *)
Inductive event :=
| welcome (uuid : JS.value) (contestants : list Contestant.t)
          (currentRound : N) (isAdmin : bool)
| vote_success (contestantId : JS.value)
| vote_update (voteCounts : gmap string (option Z))
| round_update (currentRound : N)
| my_vote (contestantId : JS.reply)
| error (message : string).
End Out.

(** ** State *)

Record state := State {
  redis : Redis.db;                   (* the keys of the Redis server *)
  clock : N;                          (* its clock, in seconds *)
  faults : list bool;                 (* the next store calls: [true] fails *)
  contestants : list Contestant.t;    (* [let contestants] *)
  currentRound : N;                   (* [let currentRound] *)
  users : gmap conn user;             (* [const users = new Map()] *)
  isAdmin : gmap conn bool;           (* [ws.isAdmin] of every socket *)
  clients : list conn;                (* the open sockets of [wss.clients] *)
  sent : list (conn * Out.event)      (* frames written, oldest first *)
}.

Definition set_redis (m : Redis.db) (st : state) : state :=
  State m (clock st) (faults st) (contestants st) (currentRound st)
        (users st) (isAdmin st) (clients st) (sent st).

Definition set_clock (t : N) (st : state) : state :=
  State (redis st) t (faults st) (contestants st) (currentRound st)
        (users st) (isAdmin st) (clients st) (sent st).

Definition set_faults (fs : list bool) (st : state) : state :=
  State (redis st) (clock st) fs (contestants st) (currentRound st)
        (users st) (isAdmin st) (clients st) (sent st).

Definition set_currentRound (r : N) (st : state) : state :=
  State (redis st) (clock st) (faults st) (contestants st) r
        (users st) (isAdmin st) (clients st) (sent st).

Definition set_users (us : gmap conn user) (st : state) : state :=
  State (redis st) (clock st) (faults st) (contestants st) (currentRound st)
        us (isAdmin st) (clients st) (sent st).

Definition set_isAdmin (adm : gmap conn bool) (st : state) : state :=
  State (redis st) (clock st) (faults st) (contestants st) (currentRound st)
        (users st) adm (clients st) (sent st).

Definition set_clients (cl : list conn) (st : state) : state :=
  State (redis st) (clock st) (faults st) (contestants st) (currentRound st)
        (users st) (isAdmin st) cl (sent st).

Definition set_sent (out : list (conn * Out.event)) (st : state) : state :=
  State (redis st) (clock st) (faults st) (contestants st) (currentRound st)
        (users st) (isAdmin st) (clients st) out.

(** The process right after [loadContestants], against an empty store. *)
Definition boot (rows : list Contestant.t) : state :=
  State ∅ 0 [] rows 0 ∅ ∅ [] [].

(** ** Asynchronous computations *)

Inductive outcome (A : Type) :=
| Done (a : A) (st : state)
| Thrown (st : state).
Arguments Done {A} a st.
Arguments Thrown {A} st.

Definition M (A : Type) : Type := state → outcome A.

#[global] Instance M_ret : MRet M := λ A a st, Done a st.

#[global] Instance M_bind : MBind M := λ A B f m st,
  match m st with
  | Done a st' => f a st'
  | Thrown st' => Thrown st'
  end.

Definition gets {A} (f : state → A) : M A := λ st, Done (f st) st.
Definition modify (f : state → state) : M unit := λ st, Done tt (f st).

(** An [async] function called without [await]: its rejection does not reach
    the caller. *)
Definition spawn (m : M unit) : M unit := λ st,
  match m st with
  | Done _ st' => Done tt st'
  | Thrown st' => Done tt st'
  end.

Fixpoint for_each {A} (l : list A) (body : A → M unit) : M unit :=
  match l with
  | [] => mret tt
  | x :: r => body x;; for_each r body
  end.

(** *** The [redis] client *)

(** One round trip to the store; it rejects when the store is unavailable. *)
Definition store_call : M unit := λ st,
  match faults st with
  | true :: fs => Thrown (set_faults fs st)
  | false :: fs => Done tt (set_faults fs st)
  | [] => Done tt st
  end.

Definition redis_get (k : string) : M JS.reply :=
  store_call;; gets (λ st, Redis.GET (redis st) (clock st) k).

Definition redis_set_ex (k v : string) (ttl : N) : M unit :=
  store_call;; modify (λ st, set_redis (Redis.SETEX (redis st) (clock st) k v ttl) st).

Definition incrby_reply (k : string) (delta : Z) : M Z := λ st,
  match Redis.INCRBY (redis st) (clock st) k delta with
  | Some (m, z) => Done z (set_redis m st)
  | None => Thrown st
  end.

Definition redis_incrby (k : string) (delta : Z) : M Z :=
  store_call;; incrby_reply k delta.

Definition redis_incr (k : string) : M Z := redis_incrby k 1.
Definition redis_decr (k : string) : M Z := redis_incrby k (-1).

Definition redis_del (k : string) : M unit :=
  store_call;; modify (λ st, set_redis (Redis.DEL (redis st) k) st).

(** *** Sockets *)

(** [send(ws, event, data)], also the direct [ws.send(JSON.stringify(..))]. *)
Definition send (ws : conn) (ev : Out.event) : M unit :=
  modify (λ st, set_sent (sent st ++ [(ws, ev)]) st).

(** [broadcast(wss, event, data)] *)
Definition broadcast (ev : Out.event) : M unit :=
  cl ← gets clients; for_each cl (λ client, send client ev).

(** ** Handlers *)

(** The loop shared by [broadcastVoteCounts] and the [get_vote_counts]
    handler: [voteCounts[c.id] = parseInt(count || '0', 10)]. *)
Fixpoint readVoteCounts (cs : list Contestant.t)
    (voteCounts : gmap string (option Z)) : M (gmap string (option Z)) :=
  match cs with
  | [] => mret voteCounts
  | c :: rest =>
      round ← gets currentRound;
      count ← redis_get (tallyKey round (JS.template (Contestant.id c)));
      readVoteCounts rest
        (<[JS.template (Contestant.id c) := JS.parseInt (JS.or_zero count)]> voteCounts)
  end.

Definition broadcastVoteCounts : M unit :=
  cs ← gets contestants;
  voteCounts ← readVoteCounts cs ∅;
  broadcast (Out.vote_update voteCounts).

Definition handleVote (ws : conn) (data : payload) (user : user) : M unit :=
  let contestantId := data_contestantId data in
  let uuid := uuid user in
  if negb (JS.truthy uuid) then mret tt else
  round ← gets currentRound;
  let voteKey := voteKey round (JS.template uuid) in
  prevContestantId ← redis_get voteKey;
  if JS.strict_eq prevContestantId contestantId then
    send ws (Out.vote_success contestantId)
  else
    (match prevContestantId with
     | Some prev =>
         if JS.reply_truthy prevContestantId then
           round ← gets currentRound;
           redis_decr (tallyKey round prev);; mret tt
         else mret tt
     | None => mret tt
     end);;
    redis_set_ex voteKey (JS.template contestantId) (60 * 60);;
    round ← gets currentRound;
    redis_incr (tallyKey round (JS.template contestantId));;
    send ws (Out.vote_success contestantId);;
    spawn broadcastVoteCounts.

Definition on_get_vote_counts (ws : conn) (data : payload) (user : user) : M unit :=
  cs ← gets contestants;
  voteCounts ← readVoteCounts cs ∅;
  send ws (Out.vote_update voteCounts).

Definition on_get_my_vote (ws : conn) (data : payload) (user : user) : M unit :=
  let uuid := uuid user in
  round ← gets currentRound;
  let voteKey := voteKey round (JS.template uuid) in
  contestantId ← redis_get voteKey;
  send ws (Out.my_vote contestantId).

Definition on_next_round (ws : conn) (data : payload) (user : user) : M unit :=
  modify (λ st, set_currentRound (currentRound st + 1) st);;
  round ← gets currentRound;
  broadcast (Out.round_update round);;
  spawn broadcastVoteCounts.

(** The rounds [0 .. last] of [for (let round = 0; round <= currentRound; round++)]. *)
Definition rounds_upto (last : N) : list N :=
  N.of_nat <$> seq 0 (S (N.to_nat last)).

Definition on_reset_votes (ws : conn) (data : payload) (user : user) : M unit :=
  last ← gets currentRound;
  cs ← gets contestants;
  for_each (rounds_upto last) (λ round,
    for_each cs (λ c,
      redis_del (tallyKey round (JS.template (Contestant.id c)))));;
  spawn broadcastVoteCounts.

Definition handler : Type := conn → payload → user → M unit.

(** [function on(event, handler) { eventHandlers[event] = handler; }] *)
Definition on (event : string) (h : handler)
    (table : gmap string handler) : gmap string handler :=
  <[event := h]> table.

Definition eventHandlers : gmap string handler :=
  on "reset_votes" on_reset_votes
    (on "next_round" on_next_round
      (on "get_my_vote" on_get_my_vote
        (on "get_vote_counts" on_get_vote_counts
          (on "vote" handleVote ∅)))).

(** ** The connection handler *)

(** [ws.isAdmin], falsy on a socket that never had it set. *)
Definition socket_isAdmin (ws : conn) (st : state) : bool :=
  default false (isAdmin st !! ws).

Section Router.

(** [jwtVerify(token, secret)] at a given time: [None] when it throws, else
    whether [payload && payload.admin] is truthy. *)
Variable jwtVerify : N → string → option bool.

(** The [identify] branch of the message handler. *)
Definition identify (ws : conn) (data : payload) : M unit :=
  modify (λ st, set_users (<[ws := User (data_uuid data)]> (users st)) st);;
  (match data_token data with
   | Some token =>
       if negb (String.eqb token EmptyString) then
         now ← gets clock;
         match jwtVerify now token with
         | Some true => modify (λ st, set_isAdmin (<[ws := true]> (isAdmin st)) st)
         | _ => mret tt
         end
       else mret tt
   | None => mret tt
   end);;
  cs ← gets contestants;
  round ← gets currentRound;
  adm ← gets (socket_isAdmin ws);
  send ws (Out.welcome (data_uuid data) cs round adm).

(** [ws.on('message', async (msg) => ...)] *)
Definition on_message (ws : conn) (msg : inbound) : M unit :=
  match msg with
  | unparseable => mret tt
  | envelope event data =>
      if String.eqb event "identify" then identify ws data
      else
        us ← gets users;
        match us !! ws with
        | None => mret tt
        | Some user =>
            adm ← gets (socket_isAdmin ws);
            if (String.eqb event "next_round" || String.eqb event "reset_votes")
               && negb adm
            then send ws (Out.error "Unauthorized")
            else
              match eventHandlers !! event with
              | Some h => h ws data user
              | None => mret tt
              end
        end
  end.

(** [wss.on('connection', (ws) => { ws.isAdmin = false; ... })] *)
Definition on_connection (ws : conn) : M unit :=
  modify (λ st, set_clients (clients st ++ [ws])
                  (set_isAdmin (<[ws := false]> (isAdmin st)) st)).

(** [ws.on('close', () => { users.delete(ws); })]; the socket also leaves
    [wss.clients]. *)
Definition on_close (ws : conn) : M unit :=
  modify (λ st, set_clients (filter (λ c, c ≠ ws) (clients st))
                  (set_users (delete ws (users st)) st)).

(** What happens to the server. *)
Inductive server_event :=
| connection (ws : conn)
| message (ws : conn) (msg : inbound)
| close (ws : conn)
| elapse (seconds : N).

(** One event, handled to completion: the handler of a message runs to its
    end, every store call answered, before the next event is taken. *)
Definition step (ev : server_event) : M unit :=
  match ev with
  | connection ws => on_connection ws
  | message ws msg => on_message ws msg
  | close ws => on_close ws
  | elapse d => modify (λ st, set_clock (clock st + d) st)
  end.

(** The state a handler leaves behind; a rejection is nobody's to catch and
    the server goes on with the next event. *)
Definition final {A} (o : outcome A) : state :=
  match o with
  | Done _ st => st
  | Thrown st => st
  end.

(** The events of a list, each handled to completion. *)
Definition run (evs : list server_event) (st : state) : state :=
  foldl (λ st ev, final (step ev st)) st evs.

End Router.

(** ** What the specification observes *)

(** [getTally]: the count read at lines 60-61 and 137-138. *)
Definition tally (st : state) (round : N) (id : string) : option Z :=
  JS.parseInt (JS.or_zero (Redis.GET (redis st) (clock st) (tallyKey round id))).

(** [getMyVote]: the reply of [redis.get(voteKey)]. *)
Definition my_vote (st : state) (round : N) (uuid : string) : JS.reply :=
  Redis.GET (redis st) (clock st) (voteKey round uuid).

Fixpoint starts_with (p s : string) : bool :=
  match p, s with
  | EmptyString, _ => true
  | String a p', String b s' => Ascii.eqb a b && starts_with p' s'
  | String _ _, EmptyString => false
  end.

Definition vote_prefix (round : N) : string :=
  "votes:round:" +:+ JS.render_N round +:+ ":user:".

(** A stored key and entry that are the live vote record of some voter in
    [round]. *)
Definition is_vote (round : N) (now : N) (kv : string * Redis.entry) : bool :=
  starts_with (vote_prefix round) kv.1 && Redis.live now kv.2.

(** The same, and the record names contestant [id]. *)
Definition is_vote_for (round : N) (id : string) (now : N)
    (kv : string * Redis.entry) : bool :=
  is_vote round now kv && String.eqb (Redis.value kv.2) id.

(** The number of non-expired vote records of [round] for contestant [id]. *)
Definition live_votes (st : state) (round : N) (id : string) : nat :=
  size (filter (λ kv, is_vote_for round id (clock st) kv = true) (redis st)).

(** The number of non-expired vote records of [round]. *)
Definition active_votes (st : state) (round : N) : nat :=
  size (filter (λ kv, is_vote round (clock st) kv = true) (redis st)).

(** The tally agrees with the ledger, for every round and every non-empty
    contestant id. *)
Definition consistent (st : state) : Prop :=
  ∀ round id, id ≠ EmptyString → tally st round id = Some (Z.of_nat (live_votes st round id)).

(** No stored key is past its expiry. *)
Definition unexpired (st : state) : Prop :=
  map_Forall (λ _ e, Redis.live (clock st) e = true) (redis st).

(** The frames a computation wrote, given the state before and after. *)
Definition replies (ws : conn) (before after : state) : list Out.event :=
  snd <$> filter (λ f, f.1 = ws) (drop (length (sent before)) (sent after)).

(** ** Definitions used by the proofs *)

Fixpoint all_digits (s : string) : bool :=
  match s with
  | String a r => JS.is_digit a && all_digits r
  | EmptyString => true
  end.

(** The count [parseInt(GET k || '0')] read at a key of the store. *)
Definition count_at (m : Redis.db) (now : N) (k : string) : option Z :=
  JS.parseInt (JS.or_zero (Redis.GET m now k)).

(** What a vote adds to the count of ([round'], [id]) when it names
    contestant [c] in [round] ... *)
Definition vote_gain (round : N) (c : string) (round' : N) (id : string) : Z :=
  if bool_decide (round' = round ∧ id = c) then 1 else 0.

(** ... and what it takes from it when the voter's record read [prev]. *)
Definition vote_loss (prev : JS.reply) (round round' : N) (id : string) : Z :=
  if bool_decide (round' = round ∧ prev = Some id ∧ id ≠ EmptyString) then 1 else 0.

(** The store after the two loops of [reset_votes]. *)
Definition reset_db (cs : list Contestant.t) (rounds : list N) (m : Redis.db) : Redis.db :=
  foldl (λ m round,
           foldl (λ m c, Redis.DEL m (tallyKey round (JS.template (Contestant.id c)))) m cs)
        m rounds.

(** The frames of one tally broadcast to the sockets [cl], if it got through. *)
Definition vote_updates (cl : list conn) (out : list (conn * Out.event)) : Prop :=
  out = [] ∨ ∃ vc, out = (λ c, (c, Out.vote_update vc)) <$> cl.

(** *** Reachable states *)

(** A [reset_votes] request. *)
Definition is_reset_votes (ev : server_event) : bool :=
  match ev with
  | message _ (envelope event _) => String.eqb event "reset_votes"
  | _ => false
  end.

(** The states the server reaches from boot, the store empty, through events
    that complete, each handled to its end before the next is taken, with no
    [reset_votes] request and no stored key running out of time. *)
Inductive steady (jwtVerify : N → string → option bool)
    (rows : list Contestant.t) : state → Prop :=
| steady_boot : steady jwtVerify rows (boot rows)
| steady_step st ev st' :
    steady jwtVerify rows st →
    is_reset_votes ev = false →
    step jwtVerify ev st = Done tt st' →
    unexpired st' →
    steady jwtVerify rows st'.

(** The states the server reaches from boot, the store empty, through events
    that complete, each handled to its end before the next is taken, with no
    [reset_votes] request; keys may expire. *)
Inductive resetless (jwtVerify : N → string → option bool)
    (rows : list Contestant.t) : state → Prop :=
| resetless_boot : resetless jwtVerify rows (boot rows)
| resetless_step st ev st' :
    resetless jwtVerify rows st →
    is_reset_votes ev = false →
    step jwtVerify ev st = Done tt st' →
    resetless jwtVerify rows st'.

(** Counters never expire, and each is at least the number of live records
    behind it. *)
Definition covered (st : state) : Prop :=
  (∀ round id e, redis st !! tallyKey round id = Some e → Redis.expires e = None) ∧
  (∀ round id, ∃ n, tally st round id = Some n ∧ (0 ≤ n)%Z ∧
     (id ≠ EmptyString → (Z.of_nat (live_votes st round id) ≤ n)%Z)).

(** *** Properties of computations *)

(** With the store available, [m] leaves it available. *)
Definition calm {A} (m : M A) : Prop :=
  ∀ st, faults st = [] → faults (final (m st)) = [].

(** [m] leaves the component [f] of the state as it was. *)
Definition keeps {A B} (f : state → B) (m : M A) : Prop :=
  ∀ st, f (final (m st)) = f st.

(** [m] writes no frame. *)
Definition silent {A} (m : M A) : Prop := keeps sent m.

(** [m] has written no frame when it rejects. *)
Definition mute {A} (m : M A) : Prop :=
  ∀ st st', m st = Thrown st' → sent st' = sent st.

(** [m] never rejects. *)
Definition total {A} (m : M A) : Prop :=
  ∀ st, ∃ a st', m st = Done a st'.

(** ** Concrete runs *)

Module Demo.

(** A verifier that accepts one admin token. *)
Definition jwtVerify (now : N) (token : string) : option bool :=
  if String.eqb token "admin-token" then Some true else None.

(** The catalog: contestants A and B. *)
Definition rows : list Contestant.t :=
  [Contestant.Make (JS.Str "A") "Ann"; Contestant.Make (JS.Str "B") "Bob"].

(** [identify{uuid, token?}]; the field no handler of the event reads is
    left empty. *)
Definition identify_as (uuid : string) (token : option string) : inbound :=
  envelope "identify" (Payload (JS.Str uuid) token (JS.Str EmptyString)).

(** [vote{contestantId}] *)
Definition vote_for (contestantId : JS.value) : inbound :=
  envelope "vote" (Payload (JS.Str EmptyString) None contestantId).

(** The data of a request that carries none. *)
Definition request_data : payload :=
  Payload (JS.Str EmptyString) None (JS.Str EmptyString).

Definition request (event : string) : inbound := envelope event request_data.

(** Voter X on socket 1 and an admin on socket 2. *)
Definition opening : list server_event :=
  [connection 1; message 1 (identify_as "X" None);
   connection 2; message 2 (identify_as "root" (Some "admin-token"))].

Definition opened : state := run jwtVerify opening (boot rows).

Definition x_votes_A : state :=
  run jwtVerify [message 1 (vote_for (JS.Str "A"))] opened.

(** X votes A, then the admin resets ... *)
Definition after_reset : state :=
  run jwtVerify [message 2 (request "reset_votes")] x_votes_A.

(** ... and X switches to B. *)
Definition switch_after_reset : state :=
  run jwtVerify [message 1 (vote_for (JS.Str "B"))] after_reset.

(** X votes A and an hour passes. *)
Definition hour_later : state := run jwtVerify [elapse 3600] x_votes_A.

(** X votes for the empty id, then for A. *)
Definition empty_then_A : state :=
  run jwtVerify [message 1 (vote_for (JS.Str EmptyString));
                 message 1 (vote_for (JS.Str "A"))] opened.

End Demo.

Module Scenario.

(** The scenario of the specification: round 0, contestants A and B; X votes
    A, Y votes A, X votes B, X votes B again, the admin resets. *)
Definition joined : state :=
  run Demo.jwtVerify [connection 3; message 3 (Demo.identify_as "Y" None)] Demo.opened.

Definition x_A : state :=
  run Demo.jwtVerify [message 1 (Demo.vote_for (JS.Str "A"))] joined.

Definition y_A : state :=
  run Demo.jwtVerify [message 3 (Demo.vote_for (JS.Str "A"))] x_A.

Definition x_B : state :=
  run Demo.jwtVerify [message 1 (Demo.vote_for (JS.Str "B"))] y_A.

Definition x_B_again : state :=
  run Demo.jwtVerify [message 1 (Demo.vote_for (JS.Str "B"))] x_B.

Definition cleared : state :=
  run Demo.jwtVerify [message 2 (Demo.request "reset_votes")] x_B_again.

(** The tallies of A and B in round 0. *)
Definition board (st : state) : option Z * option Z := (tally st 0 "A", tally st 0 "B").

End Scenario.

Module Outage.

(** The server of [Demo.opened] with the store unreachable at the next
    call. *)
Definition store_down : state := set_faults [true] Demo.opened.

(** X's vote is handled while the store is down. *)
Definition vote_lost : outcome unit :=
  on_message Demo.jwtVerify 1 (Demo.vote_for (JS.Str "A")) store_down.

(** The store answers the four calls of X's vote and fails at the first read
    of the broadcast that follows. *)
Definition broadcast_down : state :=
  set_faults [false; false; false; true] Demo.opened.

Definition broadcast_lost : outcome unit :=
  on_message Demo.jwtVerify 1 (Demo.vote_for (JS.Str "A")) broadcast_down.

End Outage.

Module Switch.

(** X holds a vote for A and switches to B. *)
Definition before : state := Demo.x_votes_A.

Definition ballot : payload := Payload (JS.Str EmptyString) None (JS.Str "B").

Definition voter : user := User (JS.Str "X").

Definition after : state := final (handleVote 1 ballot voter before).

End Switch.

Module Unknown.

(** X votes for Z, which is not a row of [Demo.rows]. *)
Definition before : state := Demo.opened.

Definition ballot : payload := Payload (JS.Str EmptyString) None (JS.Str "Z").

Definition voter : user := User (JS.Str "X").

Definition after : state := final (handleVote 1 ballot voter before).

End Unknown.

Module Revote.

(** X votes for contestant 7, the id sent as a number, and sends the same
    vote again. *)
Definition before : state := Demo.opened.

Definition voter : user := User (JS.Str "X").

Definition ballot : payload := Payload (JS.Str EmptyString) None (JS.Num 7).

Definition first : state := final (handleVote 1 ballot voter before).

End Revote.

Module Promotion.

(** Socket 2 identifies with the admin token; then X votes, socket 2
    identifies again with a token that does not verify, and socket 1 closes;
    at last socket 2 identifies without a token. *)
Definition start : state :=
  run Demo.jwtVerify [connection 1; message 1 (Demo.identify_as "X" None); connection 2]
    (boot Demo.rows).

Definition credentials : payload :=
  Payload (JS.Str "root") (Some "admin-token") (JS.Str EmptyString).

Definition later : list server_event :=
  [message 1 (Demo.vote_for (JS.Str "A"));
   message 2 (Demo.identify_as "guest" (Some "forged"));
   close 1].

Definition rebind : payload := Payload (JS.Str "nobody") None (JS.Str EmptyString).

End Promotion.

(** ** Definitions used by the properties of the handlers *)

(** The keys of [voteCounts]: the ids of the catalog, as property names. *)
Definition catalog_ids (st : state) : list string :=
  (λ c, JS.template (Contestant.id c)) <$> contestants st.

(** The [voteCounts] object that the loop of lines 59-62 and 136-139 builds
    on top of [vc] when every read of the store is answered. *)
Definition read_counts (st : state) (cs : list Contestant.t)
    (vc : gmap string (option Z)) : gmap string (option Z) :=
  foldl (λ vc c, <[JS.template (Contestant.id c) :=
                     tally st (currentRound st) (JS.template (Contestant.id c))]> vc)
        vc cs.

(** One frame [ev] for each of the sockets [cl], in their order. *)
Definition to_all (cl : list conn) (ev : Out.event) : list (conn * Out.event) :=
  (λ c, (c, ev)) <$> cl.

(** The frames written to [ws] so far. *)
Definition frames_to (ws : conn) (st : state) : list Out.event :=
  snd <$> filter (λ f, f.1 = ws) (sent st).

(** The state after [seconds] have passed. *)
Definition later (seconds : N) (st : state) : state :=
  set_clock (clock st + seconds) st.

(** [m] keeps [P] true, whether it completes or rejects. *)
Definition preserves {A} (P : state → Prop) (m : M A) : Prop :=
  ∀ st, P st → P (final (m st)).

(** Every counter of the store holds an integer in decimal and has no
    expiry. *)
Definition counters_sound (st : state) : Prop :=
  ∀ round id e, redis st !! tallyKey round id = Some e →
    Redis.expires e = None ∧ ∃ z, Redis.value e = JS.render_Z z.

(** The store holds no key of a round after [last]. *)
Definition no_round_after (last : N) (st : state) : Prop :=
  ∀ round x, (last < round)%N →
    redis st !! voteKey round x = None ∧ redis st !! tallyKey round x = None.

(** The current round is at least [round], and the store holds no key of a
    round after the current one. *)
Definition rounds_sound (round : N) (st : state) : Prop :=
  (round ≤ currentRound st)%N ∧ no_round_after (currentRound st) st.

(** The round is at least [round] and the catalog is [cs]. *)
Definition settled (round : N) (cs : list Contestant.t) (st : state) : Prop :=
  (round ≤ currentRound st)%N ∧ contestants st = cs.

(** The round is [round] and no socket is an admin. *)
Definition locked (round : N) (st : state) : Prop :=
  currentRound st = round ∧ ∀ ws, socket_isAdmin ws st = false.

(** Socket [ws] is closed: it is not among the clients of the server, no
    user is bound to it, and the frames written to it are [out]. *)
Definition closed (ws : conn) (out : list Out.event) (st : state) : Prop :=
  (ws ∉ clients st) ∧ users st !! ws = None ∧ frames_to ws st = out.

(** An event that happens on socket [ws]. *)
Definition on_socket (ws : conn) (ev : server_event) : bool :=
  match ev with
  | connection w | message w _ | close w => bool_decide (w = ws)
  | elapse _ => false
  end.

(** The property names that every object inherits from [Object.prototype]:
    [eventHandlers[event]] is not [undefined] for them, though no handler
    is registered. *)
Definition inherited : list string :=
  ["constructor"; "__defineGetter__"; "__defineSetter__"; "hasOwnProperty";
   "__lookupGetter__"; "__lookupSetter__"; "isPrototypeOf"; "propertyIsEnumerable";
   "toString"; "valueOf"; "__proto__"; "toLocaleString"].

(** A message the router lets through to nothing: it does not parse, or it
    is no [identify] and either the socket has not identified or
    [eventHandlers[event]] is [undefined]: no handler is registered for the
    event and the event is no inherited property name. *)
Definition unroutable (ws : conn) (msg : inbound) (st : state) : Prop :=
  match msg with
  | unparseable => True
  | envelope event data =>
      event ≠ "identify" ∧
      (users st !! ws = None ∨ (eventHandlers !! event = None ∧ event ∉ inherited))
  end.

(** A token that makes no admin: absent, empty, rejected by the verifier or
    without the admin claim. *)
Definition no_admin_token (jwtVerify : N → string → option bool)
    (now : N) (token : option string) : Prop :=
  match token with
  | Some t => t = EmptyString ∨ jwtVerify now t ≠ Some true
  | None => True
  end.

(** *** Store calls that fail *)

(** One of the next [n] calls of the store fails. *)
Definition doomed (n : nat) (st : state) : Prop :=
  ∃ k, k < n ∧ faults st !! k = Some true.

(** [m] awaits [k] calls of the store: when one of the next [k + n] calls
    fails, [m] rejects, or it completes and the failure is among the [n]
    calls that follow. *)
Definition awaits {A} (k : nat) (m : M A) : Prop :=
  ∀ n st, doomed (k + n) st →
    (∃ st', m st = Thrown st') ∨ (∃ a st', m st = Done a st' ∧ doomed n st').

(** [m] rejects when one of the next [n] calls of the store fails. *)
Definition dooms {A} (n : nat) (m : M A) : Prop :=
  ∀ st, doomed n st → ∃ st', m st = Thrown st'.

(** The store calls that [handleVote] awaits: none for a falsy uuid (line
    32); else the read of the record (line 35) and, unless it returns early
    (line 38), the decrement when the record read is truthy (line 45), the
    write of the record (line 49) and the increment (line 50). *)
Definition awaited_vote (data : payload) (user : user) (st : state) : nat :=
  if negb (JS.truthy (uuid user)) then 0 else
  let prev := my_vote st (currentRound st) (JS.template (uuid user)) in
  if JS.strict_eq prev (data_contestantId data) then 1
  else 1 + ((if JS.reply_truthy prev then 1 else 0) + 2).

(** The store calls that the handler of a request awaits: the reads of
    [get_vote_counts], one for each contestant (line 137), the read of
    [get_my_vote] (line 146), the deletions of [reset_votes], one for each
    round and contestant (line 160); [next_round] and [identify] await none.
    The calls of [broadcastVoteCounts] are not among them: no handler awaits
    it. *)
Definition awaited (event : string) (data : payload) (user : user) (st : state) : nat :=
  if String.eqb event "vote" then awaited_vote data user st
  else if String.eqb event "get_vote_counts" then length (contestants st)
  else if String.eqb event "get_my_vote" then 1
  else if String.eqb event "reset_votes"
       then length (rounds_upto (currentRound st)) * length (contestants st)
  else 0.

(** ** More concrete runs *)

Module Again.

(** X holds a vote for A and votes for A again. *)
Definition before : state := Demo.x_votes_A.

Definition ballot : payload := Payload (JS.Str EmptyString) None (JS.Str "A").

Definition voter : user := User (JS.Str "X").

Definition after : state := final (handleVote 1 ballot voter before).

End Again.

Module Halfway.

(** X holds a vote for A and switches to B; the store answers the read and
    the decrement, and fails at the write of the record. *)
Definition before : state := set_faults [false; false; true] Demo.x_votes_A.

Definition after : state := final (handleVote 1 Switch.ballot Switch.voter before).

End Halfway.

Module Guest.

(** A verifier that accepts no token. *)
Definition jwtVerify (now : N) (token : string) : option bool := None.

(** A socket identifies with a token and asks for the next round and for a
    reset. *)
Definition events : list server_event :=
  [connection 1; message 1 (Demo.identify_as "X" (Some "admin-token"));
   message 1 (Demo.request "next_round"); message 1 (Demo.request "reset_votes")].

End Guest.

Module Hangup.

(** Socket 1 closes; then the admin on socket 2 votes and starts the next
    round. *)
Definition events : list server_event :=
  [message 2 (Demo.vote_for (JS.Str "A")); message 2 (Demo.request "next_round")].

End Hangup.

Module Blackout.

(** The server of [Demo.x_votes_A] with the store unreachable at the next
    call. *)
Definition before : state := set_faults [true] Demo.x_votes_A.

End Blackout.

Module Stale.

(** X voted for A an hour ago and votes for A again. *)
Definition before : state := Demo.hour_later.

Definition after : state := final (handleVote 1 Again.ballot Again.voter before).

End Stale.

Module Blank.

(** X holds a vote for the empty id and switches to B. *)
Definition before : state :=
  run Demo.jwtVerify [message 1 (Demo.vote_for (JS.Str EmptyString))] Demo.opened.

Definition after : state := final (handleVote 1 Switch.ballot Switch.voter before).

End Blank.

(** ** Handlers that overlap

    The server does not wait for a handler to finish before it takes the
    next message.  An [async] function runs up to its next [await]; the
    rest of it runs when the reply has arrived, and other handlers run in
    between.  The commands go to the store over the one connection of line
    14, and the store answers them in the order in which they were sent.
    This module follows [handleVote] and [broadcastVoteCounts] at that
    grain, with a store that is reachable: it answers every command, with
    an error where Redis does.  The definitions above run a handler as one
    piece; [Overlap.play] agrees with them when the replies of a vote come
    in before anything else happens. *)

Module Overlap.

(** A command sent to the store. *)
Inductive command :=
| GET (k : string)
| SETEX (k v : string) (ttl : N)
| INCRBY (k : string) (delta : Z).

(** The reply to it; [failed] is the error reply. *)
Inductive answer :=
| text (r : JS.reply)
| done
| number (z : Z)
| failed.

(** The store executes a command. *)
Definition execute (c : command) (st : state) : state * answer :=
  match c with
  | GET k => (st, text (Redis.GET (redis st) (clock st) k))
  | SETEX k v ttl => (set_redis (Redis.SETEX (redis st) (clock st) k v ttl) st, done)
  | INCRBY k delta =>
      match Redis.INCRBY (redis st) (clock st) k delta with
      | Some (m, z) => (set_redis m st, number z)
      | None => (st, failed)
      end
  end.

(** An [async] function at an [await]: the command it has sent, and what it
    does with the reply, up to its next [await] or to its end. *)
#[warnings="-register-all"]
Inductive suspended :=
| Await (c : command) (k : answer → state → state * option suspended).

(** The loop of [broadcastVoteCounts], lines 59-63. *)
Fixpoint readVoteCounts (cs : list Contestant.t) (voteCounts : gmap string (option Z))
    (st : state) : state * option suspended :=
  match cs with
  | [] => (final (broadcast (Out.vote_update voteCounts) st), None)
  | c :: rest =>
      (st, Some (Await (GET (tallyKey (currentRound st) (JS.template (Contestant.id c))))
                   (λ a st,
                      match a with
                      | text count =>
                          readVoteCounts rest
                            (<[JS.template (Contestant.id c) :=
                                 JS.parseInt (JS.or_zero count)]> voteCounts) st
                      | _ => (st, None)
                      end)))
  end.

Definition broadcastVoteCounts (st : state) : state * option suspended :=
  readVoteCounts (contestants st) ∅ st.

(** Lines 49-53 of [handleVote]. *)
Definition write_vote (ws : conn) (voteKey : string) (contestantId : JS.value)
    (st : state) : state * option suspended :=
  (st, Some (Await (SETEX voteKey (JS.template contestantId) (60 * 60))
               (λ a st,
                  match a with
                  | failed => (st, None)
                  | _ =>
                      (st, Some (Await (INCRBY (tallyKey (currentRound st)
                                                  (JS.template contestantId)) 1)
                                   (λ a st,
                                      match a with
                                      | failed => (st, None)
                                      | _ =>
                                          broadcastVoteCounts
                                            (final (send ws (Out.vote_success contestantId)
                                                      st))
                                      end)))
                  end))).

(** [handleVote], lines 29-54. *)
Definition handleVote (ws : conn) (data : payload) (user : user)
    (st : state) : state * option suspended :=
  let contestantId := data_contestantId data in
  let uuid := uuid user in
  if negb (JS.truthy uuid) then (st, None) else
  let voteKey := voteKey (currentRound st) (JS.template uuid) in
  (st, Some (Await (GET voteKey)
               (λ a st,
                  match a with
                  | text prevContestantId =>
                      if JS.strict_eq prevContestantId contestantId then
                        (final (send ws (Out.vote_success contestantId) st), None)
                      else
                        match prevContestantId with
                        | Some prev =>
                            if JS.reply_truthy prevContestantId then
                              (st, Some (Await (INCRBY (tallyKey (currentRound st) prev) (-1))
                                           (λ a st,
                                              match a with
                                              | failed => (st, None)
                                              | _ => write_vote ws voteKey contestantId st
                                              end)))
                            else write_vote ws voteKey contestantId st
                        | None => write_vote ws voteKey contestantId st
                        end
                  | _ => (st, None)
                  end))).

(** The server and the functions that wait for a reply, in the order of
    their commands. *)
Record world := World { js : state; queue : list suspended }.

Definition enqueue (q : list suspended) (o : state * option suspended) : world :=
  World o.1 (q ++ option_list o.2).

(** What happens: a vote of [user] arrives on [ws], the reply to the oldest
    command arrives, or time passes. *)
Inductive happening :=
| vote (ws : conn) (data : payload) (user : user)
| reply
| tick (seconds : N).

Definition advance (h : happening) (w : world) : world :=
  match h with
  | vote ws data user => enqueue (queue w) (handleVote ws data user (js w))
  | reply =>
      match queue w with
      | [] => w
      | Await c k :: rest =>
          let '(st, a) := execute c (js w) in enqueue rest (k a st)
      end
  | tick seconds => World (later seconds (js w)) (queue w)
  end.

Definition play (hs : list happening) (w : world) : world :=
  foldl (λ w h, advance h w) w hs.

(** X's vote for A, and for B. *)
Definition x_for_A : happening := vote 1 Again.ballot Again.voter.
Definition x_for_B : happening := vote 1 Switch.ballot Switch.voter.

(** X votes for A twice, the second vote arriving after the first is
    through: three store calls and two reads of the broadcast, then the
    read of the second vote. *)
Definition one_by_one : world :=
  play ([x_for_A] ++ replicate 5 reply ++ [x_for_A] ++ replicate 1 reply)
    (World Demo.opened []).

(** X votes for A twice, the second vote arriving before the reply to the
    first read. *)
Definition together : world :=
  play ([x_for_A; x_for_A] ++ replicate 10 reply) (World Demo.opened []).

(** X holds a vote for A and switches to B twice, the second message
    arriving before the reply to the first read. *)
Definition switches_together : world :=
  play ([x_for_B; x_for_B] ++ replicate 12 reply) (World Demo.x_votes_A []).

End Overlap.

Lemma string_of_uint_digits d : all_digits (NilEmpty.string_of_uint d) = true.
Proof. induction d; simpl; auto. Qed.

Lemma render_N_digits n : all_digits (JS.render_N n) = true.
Proof. apply string_of_uint_digits. Qed.

Lemma render_N_inj n m : JS.render_N n = JS.render_N m → n = m.
Proof.
  unfold JS.render_N. intros H.
  apply DecimalN.Unsigned.to_uint_inj.
  assert (Some (N.to_uint n) = Some (N.to_uint m)) as [= ->]; [|done].
  by rewrite <- !NilEmpty.usu, H.
Qed.

Lemma digits_split d1 d2 a b t1 t2 :
  all_digits d1 = true → all_digits d2 = true →
  JS.is_digit a = false → JS.is_digit b = false →
  d1 +:+ String a t1 = d2 +:+ String b t2 →
  d1 = d2 ∧ a = b ∧ t1 = t2.
Proof.
  revert d2. induction d1 as [|x d1 IH]; intros [|y d2]; simpl;
    intros H1 H2 Ha Hb Heq.
  - by simplify_eq.
  - injection Heq as -> _. apply andb_prop in H2 as [H2 _]. rewrite H2 in Ha. done.
  - injection Heq as <- _. apply andb_prop in H1 as [H1 _]. rewrite H1 in Hb. done.
  - apply andb_prop in H1 as [_ H1]. apply andb_prop in H2 as [_ H2].
    injection Heq as -> Heq.
    destruct (IH d2 H1 H2 Ha Hb Heq) as (-> & -> & ->). done.
Qed.

Lemma voteKey_inj r r' u u' : voteKey r u = voteKey r' u' → r = r' ∧ u = u'.
Proof.
  unfold voteKey. intros H. apply String.app_inj in H. simpl in H.
  apply digits_split in H as (H & _ & H'); auto using render_N_digits.
  apply render_N_inj in H. by simplify_eq.
Qed.

Lemma tallyKey_inj r r' c c' : tallyKey r c = tallyKey r' c' → r = r' ∧ c = c'.
Proof.
  unfold tallyKey. intros H. apply String.app_inj in H. simpl in H.
  apply digits_split in H as (H & _ & H'); auto using render_N_digits.
  apply render_N_inj in H. by simplify_eq.
Qed.

Lemma voteKey_tallyKey r u r' c : voteKey r u ≠ tallyKey r' c.
Proof.
  unfold voteKey, tallyKey. intros H. apply String.app_inj in H. simpl in H.
  apply digits_split in H as (_ & _ & H'); auto using render_N_digits.
  discriminate.
Qed.

Lemma starts_with_spec p s : starts_with p s = true ↔ ∃ t, s = p +:+ t.
Proof.
  revert s. induction p as [|a p IH]; intros s; simpl.
  - split; eauto.
  - destruct s as [|b s].
    + split; [done | intros [t [=]]].
    + rewrite andb_true_iff, IH. split.
      * intros [Hab [t ->]]. apply Ascii.eqb_eq in Hab as ->. eauto.
      * intros [t [= -> ->]]. split; [apply Ascii.eqb_refl | eauto].
Qed.

Lemma string_app_assoc (a b c : string) : (a +:+ b) +:+ c = a +:+ (b +:+ c).
Proof.
  induction a as [|x a IH]; [done|].
  change (String x ((a +:+ b) +:+ c) = String x (a +:+ (b +:+ c))). by rewrite IH.
Qed.

Lemma vote_prefix_app r u : vote_prefix r +:+ u = voteKey r u.
Proof. unfold vote_prefix, voteKey. by rewrite !string_app_assoc. Qed.

Lemma starts_with_voteKey r r' u :
  starts_with (vote_prefix r) (voteKey r' u) = bool_decide (r = r').
Proof.
  case_bool_decide as H.
  - subst. apply starts_with_spec. exists u. by rewrite vote_prefix_app.
  - apply not_true_is_false. intros [t Ht]%starts_with_spec.
    rewrite vote_prefix_app in Ht. apply voteKey_inj in Ht as [? _]. done.
Qed.

Lemma starts_with_tallyKey r r' c :
  starts_with (vote_prefix r) (tallyKey r' c) = false.
Proof.
  apply not_true_is_false. intros [t Ht]%starts_with_spec.
  rewrite vote_prefix_app in Ht. symmetry in Ht. by apply voteKey_tallyKey in Ht.
Qed.

Lemma digits_prefix_all s : all_digits s = true → JS.digits_prefix s = s.
Proof.
  induction s as [|a s IH]; simpl; [done|].
  intros [-> Hs]%andb_prop. by rewrite IH.
Qed.

Lemma string_of_uint_nonempty d : d ≠ Nil → NilEmpty.string_of_uint d ≠ EmptyString.
Proof. by destruct d. Qed.

Lemma digits_value_uint d :
  d ≠ Nil → JS.digits_value (NilEmpty.string_of_uint d) = Some (Z.of_uint d).
Proof.
  intros Hd. unfold JS.digits_value.
  rewrite digits_prefix_all by apply string_of_uint_digits.
  pose proof (string_of_uint_nonempty d Hd) as Hne.
  pose proof (NilEmpty.usu d) as Hu.
  destruct (NilEmpty.string_of_uint d); [done|]. by rewrite Hu.
Qed.

Lemma digit_not_space a : JS.is_digit a = true → JS.is_space a = false.
Proof. by destruct a as [[] [] [] [] [] [] [] []]. Qed.

Lemma digit_not_sign a :
  JS.is_digit a = true → Ascii.eqb a "-" = false ∧ Ascii.eqb a "+" = false.
Proof. by destruct a as [[] [] [] [] [] [] [] []]. Qed.

Lemma parseInt_uint d :
  d ≠ Nil → JS.parseInt (NilEmpty.string_of_uint d) = Some (Z.of_uint d).
Proof.
  intros Hd. pose proof (digits_value_uint d Hd) as Hv.
  pose proof (string_of_uint_digits d) as Hall.
  unfold JS.parseInt.
  destruct (NilEmpty.string_of_uint d) as [|a s] eqn:E; [by destruct d|].
  simpl in Hall. apply andb_prop in Hall as [Ha _].
  simpl. rewrite (digit_not_space a Ha).
  destruct (digit_not_sign a Ha) as [-> ->]. done.
Qed.

Lemma to_int_cases z :
  ∃ d, d ≠ Nil ∧ (Z.to_int z = Pos d ∨ Z.to_int z = Neg d).
Proof.
  destruct z as [|p|p]; simpl.
  - exists zero. split; [done | by left].
  - exists (Pos.to_uint p). split; [apply DecimalPos.Unsigned.to_uint_nonnil | by left].
  - exists (Pos.to_uint p). split; [apply DecimalPos.Unsigned.to_uint_nonnil | by right].
Qed.

Lemma parseInt_render z : JS.parseInt (JS.render_Z z) = Some z.
Proof.
  unfold JS.render_Z. pose proof (DecimalZ.of_to z) as Hz.
  destruct (to_int_cases z) as (d & Hd & [E | E]); rewrite E in *; simpl in *.
  - by rewrite parseInt_uint, Hz.
  - unfold JS.parseInt. simpl. rewrite digits_value_uint by done.
    simpl. by rewrite Hz.
Qed.

Lemma render_Z_nonempty z : JS.render_Z z ≠ EmptyString.
Proof.
  unfold JS.render_Z.
  destruct (to_int_cases z) as (d & Hd & [-> | ->]); simpl; [|done].
  by apply string_of_uint_nonempty.
Qed.

Lemma render_Z_inj z z' : JS.render_Z z = JS.render_Z z' → z = z'.
Proof.
  intros H. assert (Some z = Some z') as [=]; [|done].
  by rewrite <- !parseInt_render, H.
Qed.

Lemma integer_render z : Redis.int64 z = true → Redis.integer (JS.render_Z z) = Some z.
Proof.
  intros Hz. unfold Redis.integer. unfold JS.render_Z at 1.
  rewrite NilEmpty.isi. cbv zeta. rewrite DecimalZ.of_to, Hz.
  by rewrite String.eqb_refl.
Qed.

Lemma integer_Some s z :
  Redis.integer s = Some z → s = JS.render_Z z ∧ Redis.int64 z = true.
Proof.
  unfold Redis.integer. destruct (NilEmpty.int_of_string s) as [i|]; [|done].
  cbv zeta. destruct (String.eqb _ s) eqn:E; simpl; [|done].
  destruct (Redis.int64 _) eqn:E'; [|done].
  intros [= <-]. apply String.eqb_eq in E. done.
Qed.

Lemma or_zero_nonempty s : s ≠ EmptyString → JS.or_zero (Some s) = s.
Proof. intros H. simpl. by destruct s. Qed.

Lemma bind_Done {A B} (m : M A) (f : A → M B) st b st2 :
  (m ≫= f) st = Done b st2 ↔ ∃ a st1, m st = Done a st1 ∧ f a st1 = Done b st2.
Proof.
  unfold mbind, M_bind. destruct (m st) as [a st1|st1]; split.
  - eauto.
  - by intros (? & ? & [= -> ->] & ?).
  - done.
  - by intros (? & ? & [=] & ?).
Qed.

Lemma bind_Thrown {A B} (m : M A) (f : A → M B) st st2 :
  (m ≫= f) st = Thrown st2 ↔
  m st = Thrown st2 ∨ ∃ a st1, m st = Done a st1 ∧ f a st1 = Thrown st2.
Proof.
  unfold mbind, M_bind. destruct (m st) as [a st1|st1]; split.
  - eauto.
  - by intros [[=] | (? & ? & [= -> ->] & ?)].
  - intros [= ->]. by left.
  - by intros [[= ->] | (? & ? & [=] & ?)].
Qed.

Lemma bind_eq {A B} (m : M A) (f : A → M B) st a st1 :
  m st = Done a st1 → (m ≫= f) st = f a st1.
Proof. unfold mbind, M_bind. by intros ->. Qed.

Lemma bind_gets {A B} (g : state → A) (k : A → M B) st :
  (gets g ≫= k) st = k (g st) st.
Proof. done. Qed.

Lemma bind_modify {B} (g : state → state) (k : unit → M B) st :
  (modify g ≫= k) st = k tt (g st).
Proof. done. Qed.

Lemma store_call_available st : faults st = [] → store_call st = Done tt st.
Proof. unfold store_call. by intros ->. Qed.

Lemma store_call_Done st st' :
  store_call st = Done tt st' → ∃ fs, st' = set_faults fs st.
Proof.
  unfold store_call. destruct (faults st) as [|[] fs] eqn:E; intros [= <-].
  - exists []. destruct st. simpl in *. by subst.
  - by exists fs.
Qed.

Lemma store_call_Thrown st st' :
  store_call st = Thrown st' → ∃ fs, st' = set_faults fs st.
Proof.
  unfold store_call. destruct (faults st) as [|[] fs] eqn:E; intros [= <-].
  by exists fs.
Qed.

Lemma store_call_final st : ∃ fs, final (store_call st) = set_faults fs st.
Proof.
  destruct (store_call st) as [[] st'|st'] eqn:E; simpl.
  - by apply store_call_Done.
  - by apply store_call_Thrown.
Qed.

Lemma for_each_send cl ev st :
  for_each cl (λ client, send client ev) st =
  Done tt (set_sent (sent st ++ ((λ c, (c, ev)) <$> cl)) st).
Proof.
  revert st. induction cl as [|c cl IH]; intros st; simpl.
  - unfold mret, M_ret. rewrite app_nil_r. by destruct st.
  - unfold mbind, M_bind, send, modify. rewrite IH. simpl.
    by rewrite <- app_assoc.
Qed.

Lemma broadcast_eq ev st :
  broadcast ev st = Done tt (set_sent (sent st ++ ((λ c, (c, ev)) <$> clients st)) st).
Proof. unfold broadcast, gets, mbind, M_bind. apply for_each_send. Qed.

Lemma readVoteCounts_final cs vc st :
  ∃ fs, final (readVoteCounts cs vc st) = set_faults fs st.
Proof.
  revert vc st. induction cs as [|c cs IH]; intros vc st; simpl.
  - exists (faults st). by destruct st.
  - unfold redis_get, gets, mbind, M_bind.
    destruct (store_call st) as [[] st1|st1] eqn:E.
    + apply store_call_Done in E as [fs ->].
      destruct (IH (<[JS.template (Contestant.id c) :=
                      JS.parseInt (JS.or_zero (Redis.GET (redis (set_faults fs st))
                        (clock (set_faults fs st))
                        (tallyKey (currentRound st) (JS.template (Contestant.id c)))))]> vc)
                   (set_faults fs st)) as [fs' Hfs'].
      exists fs'. rewrite Hfs'. done.
    + apply store_call_Thrown in E as [fs ->]. by exists fs.
Qed.

Lemma readVoteCounts_available cs vc st :
  faults st = [] → ∃ vc', readVoteCounts cs vc st = Done vc' st.
Proof.
  intros Hf. revert vc. induction cs as [|c cs IH]; intros vc; simpl.
  - by exists vc.
  - unfold redis_get, gets, mbind, M_bind. rewrite store_call_available by done.
    apply IH.
Qed.

Lemma broadcastVoteCounts_final st :
  ∃ fs out, final (broadcastVoteCounts st) = set_faults fs (set_sent (sent st ++ out) st)
            ∧ vote_updates (clients st) out.
Proof.
  unfold broadcastVoteCounts, gets, mbind, M_bind.
  destruct (readVoteCounts_final (contestants st) ∅ st) as [fs Hfs].
  destruct (readVoteCounts (contestants st) ∅ st) as [vc st1|st1]; simpl in Hfs; subst st1.
  - rewrite broadcast_eq. simpl. eexists fs, _. split; [done|]. right. eauto.
  - simpl. exists fs, []. rewrite app_nil_r. split; [by destruct st | by left].
Qed.

Lemma broadcastVoteCounts_Thrown st st' :
  broadcastVoteCounts st = Thrown st' → sent st' = sent st.
Proof.
  unfold broadcastVoteCounts, gets, mbind, M_bind.
  destruct (readVoteCounts_final (contestants st) ∅ st) as [fs Hfs].
  destruct (readVoteCounts (contestants st) ∅ st) as [vc st1|st1]; simpl in Hfs; subst st1.
  - by rewrite broadcast_eq.
  - by intros [= <-].
Qed.

Lemma spawn_broadcastVoteCounts st :
  ∃ fs out, spawn broadcastVoteCounts st =
            Done tt (set_faults fs (set_sent (sent st ++ out) st))
            ∧ vote_updates (clients st) out.
Proof.
  destruct (broadcastVoteCounts_final st) as (fs & out & H & Hout). exists fs, out.
  split; [|done]. unfold spawn. by destruct (broadcastVoteCounts st); simpl in H; subst.
Qed.

(** Projections of updated states, and nothing else. *)
Ltac state_simpl :=
  cbn [redis clock faults contestants currentRound users isAdmin clients sent
       set_redis set_clock set_faults set_currentRound set_users set_isAdmin
       set_clients set_sent final].

Tactic Notation "state_simpl" "in" hyp(H) :=
  cbn [redis clock faults contestants currentRound users isAdmin clients sent
       set_redis set_clock set_faults set_currentRound set_users set_isAdmin
       set_clients set_sent final] in H.

Lemma handleVote_falsy ws data user st :
  JS.truthy (uuid user) = false → handleVote ws data user st = Done tt st.
Proof. intros H. unfold handleVote. by rewrite H. Qed.

Lemma redis_get_Done k st r st' :
  redis_get k st = Done r st' →
  ∃ fs, st' = set_faults fs st ∧ r = Redis.GET (redis st) (clock st) k.
Proof.
  unfold redis_get. intros ([] & st1 & H1 & H2)%bind_Done.
  apply store_call_Done in H1 as [fs ->]. unfold gets in H2.
  injection H2 as <- <-. eauto.
Qed.

Lemma redis_set_ex_Done k v ttl st st' :
  redis_set_ex k v ttl st = Done tt st' →
  ∃ fs, st' = set_faults fs (set_redis (Redis.SETEX (redis st) (clock st) k v ttl) st).
Proof.
  unfold redis_set_ex. intros ([] & st1 & H1 & H2)%bind_Done.
  apply store_call_Done in H1 as [fs ->]. unfold modify in H2.
  injection H2 as <-. eauto.
Qed.

Lemma redis_incrby_Done k d st z st' :
  redis_incrby k d st = Done z st' →
  ∃ fs m, Redis.INCRBY (redis st) (clock st) k d = Some (m, z) ∧
          st' = set_faults fs (set_redis m st).
Proof.
  unfold redis_incrby. intros ([] & st1 & H1 & H2)%bind_Done.
  apply store_call_Done in H1 as [fs ->]. unfold incrby_reply in H2. simpl in H2.
  destruct (Redis.INCRBY _ _ _ _) as [[m z']|]; [|done].
  injection H2 as <- <-. eauto.
Qed.

Lemma redis_del_Done k st st' :
  redis_del k st = Done tt st' →
  ∃ fs, st' = set_faults fs (set_redis (Redis.DEL (redis st) k) st).
Proof.
  unfold redis_del. intros ([] & st1 & H1 & H2)%bind_Done.
  apply store_call_Done in H1 as [fs ->]. unfold modify in H2.
  injection H2 as <-. eauto.
Qed.

Lemma handleVote_same ws data user st st' :
  JS.truthy (uuid user) = true →
  JS.strict_eq (my_vote st (currentRound st) (JS.template (uuid user)))
               (data_contestantId data) = true →
  handleVote ws data user st = Done tt st' →
  ∃ fs, st' = set_faults fs
                (set_sent (sent st ++ [(ws, Out.vote_success (data_contestantId data))]) st).
Proof.
  intros Hu Heq. unfold handleVote. rewrite Hu. simpl.
  intros (r & st0 & [= <- <-] & H)%bind_Done.
  apply bind_Done in H as (prev & st1 & H1 & H).
  apply redis_get_Done in H1 as (fs & -> & ->).
  unfold my_vote in Heq. rewrite Heq in H.
  unfold send, modify in H. injection H as <-. by exists fs.
Qed.

Lemma handleVote_other ws data user st st' :
  JS.truthy (uuid user) = true →
  JS.strict_eq (my_vote st (currentRound st) (JS.template (uuid user)))
               (data_contestantId data) = false →
  handleVote ws data user st = Done tt st' →
  ∃ m1 m3 z fs out,
    match my_vote st (currentRound st) (JS.template (uuid user)) with
    | Some a =>
        if JS.reply_truthy (Some a)
        then ∃ z0, Redis.INCRBY (redis st) (clock st)
                     (tallyKey (currentRound st) a) (-1) = Some (m1, z0)
        else m1 = redis st
    | None => m1 = redis st
    end ∧
    Redis.INCRBY
      (Redis.SETEX m1 (clock st) (voteKey (currentRound st) (JS.template (uuid user)))
         (JS.template (data_contestantId data)) (60 * 60))
      (clock st) (tallyKey (currentRound st) (JS.template (data_contestantId data))) 1
      = Some (m3, z) ∧
    st' = set_faults fs
            (set_sent (sent st ++ (ws, Out.vote_success (data_contestantId data)) :: out)
               (set_redis m3 st)) ∧
    vote_updates (clients st) out.
Proof.
  intros Hu Hne. unfold handleVote. rewrite Hu. simpl.
  intros (r & st0 & [= <- <-] & H)%bind_Done.
  apply bind_Done in H as (prev & st1 & H1 & H).
  apply redis_get_Done in H1 as (fs1 & -> & ->).
  unfold my_vote in *. rewrite Hne in H.
  set (prev := Redis.GET (redis st) (clock st) _) in *.
  apply bind_Done in H as ([] & st2 & H2 & H).
  assert (∃ fs2 m1, st2 = set_faults fs2 (set_redis m1 st) ∧
            match prev with
            | Some a =>
                if JS.reply_truthy (Some a)
                then ∃ z0, Redis.INCRBY (redis st) (clock st)
                             (tallyKey (currentRound st) a) (-1) = Some (m1, z0)
                else m1 = redis st
            | None => m1 = redis st
            end) as (fs2 & m1 & -> & Hm1).
  { destruct prev as [a|]; [destruct (JS.reply_truthy (Some a))|].
    - apply bind_Done in H2 as (r2 & st3 & [= <- <-] & H2).
      apply bind_Done in H2 as (z0 & st3 & H3 & [= <-]).
      apply redis_incrby_Done in H3 as (fs3 & m & Hm & ->). state_simpl in Hm.
      exists fs3, m. split; [done | eauto].
    - injection H2 as <-. exists fs1, (redis st). split; [by destruct st | done].
    - injection H2 as <-. exists fs1, (redis st). split; [by destruct st | done]. }
  apply bind_Done in H as ([] & st3 & H3 & H).
  apply redis_set_ex_Done in H3 as (fs3 & ->). state_simpl in H.
  apply bind_Done in H as (r4 & st4 & [= <- <-] & H).
  apply bind_Done in H as (z & st5 & H5 & H).
  apply redis_incrby_Done in H5 as (fs5 & m3 & Hm3 & ->). state_simpl in Hm3.
  apply bind_Done in H as ([] & st6 & [= <-] & H).
  match type of H with
  | spawn broadcastVoteCounts ?s = _ =>
      destruct (spawn_broadcastVoteCounts s) as (fs & out & Hsp & Hout)
  end.
  rewrite Hsp in H. injection H as <-.
  exists m1, m3, z, fs, out. split; [done|]. split; [done|]. split; [|done].
  state_simpl. by rewrite <- app_assoc.
Qed.

Lemma find_insert_eq (m : Redis.db) now k e :
  Redis.find (<[k := e]> m) now k = if Redis.live now e then Some e else None.
Proof. unfold Redis.find. by rewrite lookup_insert_eq. Qed.

Lemma find_insert_ne (m : Redis.db) now k k' e :
  k ≠ k' → Redis.find (<[k := e]> m) now k' = Redis.find m now k'.
Proof. intros H. unfold Redis.find. by rewrite lookup_insert_ne. Qed.

Lemma count_at_insert_ne (m : Redis.db) now k k' e :
  k ≠ k' → count_at (<[k := e]> m) now k' = count_at m now k'.
Proof. intros H. unfold count_at, Redis.GET. by rewrite find_insert_ne. Qed.

Lemma count_at_insert_eq (m : Redis.db) now k e z :
  Redis.live now e = true → Redis.value e = JS.render_Z z →
  count_at (<[k := e]> m) now k = Some z.
Proof.
  intros Hl Hv. unfold count_at, Redis.GET. rewrite find_insert_eq, Hl. simpl.
  rewrite Hv. pose proof (render_Z_nonempty z) as Hne.
  destruct (JS.render_Z z) eqn:E; [done|]. simpl. rewrite <- E. apply parseInt_render.
Qed.

Lemma INCRBY_Some m now k d m' z :
  Redis.INCRBY m now k d = Some (m', z) →
  ∃ e, m' = <[k := e]> m ∧ Redis.value e = JS.render_Z z ∧
       Redis.live now e = true ∧
       Redis.expires e = (Redis.find m now k ≫= Redis.expires) ∧
       count_at m now k = Some (z - d)%Z ∧
       Redis.int64 (z - d) = true ∧
       (Redis.int64 d = true → Redis.int64 z = true).
Proof.
  unfold Redis.INCRBY, count_at, Redis.GET.
  destruct (Redis.find m now k) as [e0|] eqn:E; simpl.
  - destruct (Redis.integer (Redis.value e0)) as [z0|] eqn:Ez; [|done].
    destruct (Redis.int64 (z0 + d)) eqn:Hzd; [|done]. intros [= <- <-].
    apply integer_Some in Ez as [Ez Hz0].
    eexists. split; [done|]. simpl. split; [done|].
    assert (Redis.live now e0 = true) as Hl.
    { unfold Redis.find in E. destruct (m !! k); [|done].
      destruct (Redis.live now e) eqn:?; by simplify_eq. }
    split; [by destruct e0|]. split; [done|].
    replace (z0 + d - d)%Z with z0 by lia. split; [|done].
    rewrite Ez. pose proof (render_Z_nonempty z0) as Hne.
    destruct (JS.render_Z z0) eqn:E'; [done|]. simpl. rewrite <- E'.
    apply parseInt_render.
  - intros [= <- <-]. eexists. split; [done|]. simpl.
    replace (d - d)%Z with 0%Z by lia. done.
Qed.

Lemma INCRBY_integer m now k d e z :
  Redis.find m now k = Some e → Redis.value e = JS.render_Z z →
  Redis.int64 z = true → Redis.int64 (z + d) = true →
  Redis.INCRBY m now k d =
    Some (<[k := Redis.Entry (JS.render_Z (z + d)) (Redis.expires e)]> m, (z + d)%Z).
Proof.
  intros Hf Hv Hz Hzd. unfold Redis.INCRBY. rewrite Hf, Hv, integer_render by done.
  by rewrite Hzd.
Qed.

Lemma count_at_INCRBY m now k d m' z k' :
  Redis.INCRBY m now k d = Some (m', z) →
  count_at m' now k' = if decide (k = k') then Some z else count_at m now k'.
Proof.
  intros (e & -> & Hv & Hl & _)%INCRBY_Some. case_decide as Hk.
  - subst. by apply count_at_insert_eq.
  - by apply count_at_insert_ne.
Qed.

Lemma tally_count_at st round id :
  tally st round id = count_at (redis st) (clock st) (tallyKey round id).
Proof. done. Qed.

Section size_filter.
Context {A : Type} (f : string * A → bool).

Lemma size_filter_insert_fresh (m : gmap string A) k e :
  m !! k = None →
  size (filter (λ kv, f kv = true) (<[k := e]> m)) =
  size (filter (λ kv, f kv = true) m) + (if f (k, e) then 1 else 0).
Proof.
  intros Hk. destruct (f (k, e)) eqn:E.
  - rewrite map_filter_insert_True by done.
    rewrite map_size_insert_None; [lia|].
    apply map_lookup_filter_None. by left.
  - rewrite map_filter_insert_not'; [lia | by rewrite E |].
    intros y. by rewrite Hk.
Qed.

Lemma size_filter_insert (m : gmap string A) k e :
  size (filter (λ kv, f kv = true) (<[k := e]> m)) +
    match m !! k with Some e0 => if f (k, e0) then 1 else 0 | None => 0 end =
  size (filter (λ kv, f kv = true) m) + (if f (k, e) then 1 else 0).
Proof.
  destruct (m !! k) as [e0|] eqn:Hk.
  - rewrite <- (insert_delete_id m k e0 Hk) at 2.
    rewrite <- (insert_delete_eq m k e).
    rewrite !size_filter_insert_fresh by apply lookup_delete_eq. lia.
  - rewrite size_filter_insert_fresh by done. lia.
Qed.

Lemma size_filter_insert_false (m : gmap string A) k e :
  (∀ x, f (k, x) = false) →
  size (filter (λ kv, f kv = true) (<[k := e]> m)) =
  size (filter (λ kv, f kv = true) m).
Proof.
  intros Hf. pose proof (size_filter_insert m k e) as H.
  rewrite Hf in H. destruct (m !! k); [rewrite Hf in H|]; lia.
Qed.

End size_filter.

Lemma is_vote_for_tallyKey round id now r c x :
  is_vote_for round id now (tallyKey r c, x) = false.
Proof. unfold is_vote_for, is_vote. cbn [fst snd]. by rewrite starts_with_tallyKey. Qed.

Lemma is_vote_tallyKey round now r c x : is_vote round now (tallyKey r c, x) = false.
Proof. unfold is_vote. cbn [fst snd]. by rewrite starts_with_tallyKey. Qed.

Lemma live_SETEX now v ttl :
  (0 < ttl)%N → Redis.live now (Redis.Entry v (Some (now + ttl)%N)) = true.
Proof. intros H. unfold Redis.live. simpl. apply N.ltb_lt. lia. Qed.

Lemma GET_lookup (m : Redis.db) now k :
  Redis.GET m now k =
  match m !! k with
  | Some e => if Redis.live now e then Some (Redis.value e) else None
  | None => None
  end.
Proof. unfold Redis.GET, Redis.find. destruct (m !! k) as [e|]; [|done]. by destruct (Redis.live now e). Qed.

Lemma GET_insert_ne (m : Redis.db) now k k' e :
  k ≠ k' → Redis.GET (<[k := e]> m) now k' = Redis.GET m now k'.
Proof. intros H. unfold Redis.GET. by rewrite find_insert_ne. Qed.

(** The records for [id] after [SET voteKey c EX ttl]. *)
Lemma is_vote_for_new round' id now round u c ttl :
  (0 < ttl)%N →
  is_vote_for round' id now (voteKey round u, Redis.Entry c (Some (now + ttl)%N)) =
  bool_decide (round' = round ∧ id = c).
Proof.
  intros Httl. unfold is_vote_for, is_vote. cbn [fst snd Redis.value].
  rewrite starts_with_voteKey, live_SETEX by done.
  destruct (String.eqb_spec c id) as [->|Hne].
  - rewrite !andb_true_r. apply bool_decide_ext. intuition congruence.
  - rewrite andb_false_r. symmetry. apply bool_decide_eq_false. intuition congruence.
Qed.

Lemma is_vote_for_old (m : Redis.db) round' id now round u :
  match m !! voteKey round u with
  | Some e0 => if is_vote_for round' id now (voteKey round u, e0) then 1 else 0
  | None => 0
  end =
  if bool_decide (round' = round ∧ Redis.GET m now (voteKey round u) = Some id)
  then 1 else 0.
Proof.
  rewrite GET_lookup. destruct (m !! voteKey round u) as [e0|].
  - unfold is_vote_for, is_vote. cbn [fst snd]. rewrite starts_with_voteKey.
    destruct (Redis.live now e0).
    + destruct (String.eqb_spec (Redis.value e0) id) as [->|Hne].
      * rewrite !andb_true_r.
        destruct (decide (round' = round)) as [->|];
          [rewrite !bool_decide_true | rewrite !bool_decide_false]; intuition congruence.
      * rewrite !andb_false_r. rewrite bool_decide_false; [done|]. intuition congruence.
    + rewrite andb_false_r. rewrite bool_decide_false; [done|]. intuition congruence.
  - rewrite bool_decide_false; [done|]. intuition congruence.
Qed.

(** The records for [id] after [SET voteKey c EX ttl]. *)
Lemma votes_SETEX (m : Redis.db) now round u c ttl round' id :
  (0 < ttl)%N →
  Z.of_nat (size (filter (λ kv, is_vote_for round' id now kv = true)
                    (Redis.SETEX m now (voteKey round u) c ttl))) =
  (Z.of_nat (size (filter (λ kv, is_vote_for round' id now kv = true) m))
   + vote_gain round c round' id
   - (if bool_decide (round' = round ∧ Redis.GET m now (voteKey round u) = Some id)
      then 1 else 0))%Z.
Proof.
  intros Httl. unfold Redis.SETEX.
  pose proof (size_filter_insert (λ kv, is_vote_for round' id now kv) m
                (voteKey round u) (Redis.Entry c (Some (now + ttl)%N))) as H.
  cbv beta in H.
  rewrite is_vote_for_new in H by done.
  rewrite (is_vote_for_old m round' id now round u) in H.
  unfold vote_gain. revert H.
  do 2 destruct (bool_decide _); lia.
Qed.

Lemma votes_insert_tallyKey (m : Redis.db) now r c e round' id :
  size (filter (λ kv, is_vote_for round' id now kv = true) (<[tallyKey r c := e]> m)) =
  size (filter (λ kv, is_vote_for round' id now kv = true) m).
Proof. apply size_filter_insert_false. intros x. apply is_vote_for_tallyKey. Qed.

Lemma votes_INCRBY m now r c d m' z round' id :
  Redis.INCRBY m now (tallyKey r c) d = Some (m', z) →
  size (filter (λ kv, is_vote_for round' id now kv = true) m') =
  size (filter (λ kv, is_vote_for round' id now kv = true) m).
Proof. intros (e & -> & _)%INCRBY_Some. apply votes_insert_tallyKey. Qed.

Lemma GET_INCRBY_voteKey m now r c d m' z round u :
  Redis.INCRBY m now (tallyKey r c) d = Some (m', z) →
  Redis.GET m' now (voteKey round u) = Redis.GET m now (voteKey round u).
Proof.
  intros (e & -> & _)%INCRBY_Some. apply GET_insert_ne.
  intros H. symmetry in H. by apply voteKey_tallyKey in H.
Qed.

Section vote_effect.
Context (ws : conn) (data : payload) (user : user) (st st' : state).
Let round := currentRound st.
Let u := JS.template (uuid user).
Let c := JS.template (data_contestantId data).
Let prev := my_vote st round u.

Hypothesis Huuid : JS.truthy (uuid user) = true.
Hypothesis Hother : JS.strict_eq prev (data_contestantId data) = false.
Hypothesis Hdone : handleVote ws data user st = Done tt st'.

Lemma handleVote_frame :
  clock st' = clock st ∧ currentRound st' = currentRound st ∧
  contestants st' = contestants st ∧ users st' = users st ∧
  isAdmin st' = isAdmin st ∧ clients st' = clients st.
Proof using Huuid Hother Hdone.
  destruct (handleVote_other ws data user st st' Huuid Hother Hdone)
    as (m1 & m3 & z & fs & out & _ & _ & -> & _). done.
Qed.

Lemma handleVote_live_votes round' id :
  id ≠ EmptyString →
  Z.of_nat (live_votes st' round' id) =
  (Z.of_nat (live_votes st round' id)
   + vote_gain round c round' id - vote_loss prev round round' id)%Z.
Proof using Huuid Hother Hdone.
  intros Hid.
  destruct (handleVote_other ws data user st st' Huuid Hother Hdone)
    as (m1 & m3 & z & fs & out & Hm1 & Hm3 & -> & _).
  unfold live_votes. simpl.
  rewrite (votes_INCRBY _ _ _ _ _ _ _ _ _ Hm3).
  rewrite votes_SETEX by done.
  fold round u c. fold round u in Hm1. fold prev in Hm1.
  assert (size (filter (λ kv, is_vote_for round' id (clock st) kv = true) m1) =
          size (filter (λ kv, is_vote_for round' id (clock st) kv = true) (redis st))
          ∧ Redis.GET m1 (clock st) (voteKey round u) = prev) as [-> ->].
  { destruct prev as [a|] eqn:Eprev; [destruct (JS.reply_truthy (Some a))|].
    - destruct Hm1 as [z0 Hm1]. split.
      + by eapply votes_INCRBY.
      + rewrite <- Eprev. by eapply GET_INCRBY_voteKey.
    - by subst m1.
    - by subst m1. }
  unfold vote_loss.
  assert (bool_decide (round' = round ∧ prev = Some id) =
          bool_decide (round' = round ∧ prev = Some id ∧ id ≠ EmptyString)) as ->
    by (apply bool_decide_ext; tauto).
  done.
Qed.

Lemma handleVote_tally_other round' id :
  vote_gain round c round' id = 0%Z → vote_loss prev round round' id = 0%Z →
  tally st' round' id = tally st round' id.
Proof using Huuid Hother Hdone.
  intros Hg Hl.
  destruct (handleVote_other ws data user st st' Huuid Hother Hdone)
    as (m1 & m3 & z & fs & out & Hm1 & Hm3 & -> & _).
  rewrite !tally_count_at. simpl. fold round u c in Hm3. fold round u in Hm1.
  fold prev in Hm1.
  rewrite (count_at_INCRBY _ _ _ _ _ _ (tallyKey round' id) Hm3).
  unfold vote_gain in Hg. unfold vote_loss in Hl.
  rewrite decide_False; last first.
  { intros [-> ->]%tallyKey_inj. rewrite bool_decide_true in Hg; done. }
  unfold Redis.SETEX. rewrite count_at_insert_ne; last apply voteKey_tallyKey.
  destruct prev as [a|] eqn:Eprev; [destruct (JS.reply_truthy (Some a)) eqn:Et|];
    [|by subst m1..].
  destruct Hm1 as [z0 Hm1].
  rewrite (count_at_INCRBY _ _ _ _ _ _ (tallyKey round' id) Hm1).
  rewrite decide_False; [done|].
  intros [-> ->]%tallyKey_inj. rewrite bool_decide_true in Hl; [done|].
  split; [done|]. split; [done|]. intros ->. done.
Qed.

Lemma handleVote_tally_touched round' id :
  vote_gain round c round' id = 1%Z ∨ vote_loss prev round round' id = 1%Z →
  ∃ n, tally st round' id = Some n ∧
       tally st' round' id =
         Some (n + vote_gain round c round' id - vote_loss prev round round' id)%Z.
Proof using Huuid Hother Hdone.
  intros Hgl.
  destruct (handleVote_other ws data user st st' Huuid Hother Hdone)
    as (m1 & m3 & z & fs & out & Hm1 & Hm3 & -> & _).
  rewrite !tally_count_at. simpl. fold round u c in Hm3. fold round u in Hm1.
  fold prev in Hm1.
  rewrite (count_at_INCRBY _ _ _ _ _ _ (tallyKey round' id) Hm3).
  pose proof Hm3 as (_ & _ & _ & _ & _ & Hc2 & _)%INCRBY_Some.
  unfold Redis.SETEX in Hc2. rewrite count_at_insert_ne in Hc2; last apply voteKey_tallyKey.
  unfold Redis.SETEX. rewrite count_at_insert_ne; last apply voteKey_tallyKey.
  assert (vote_loss prev round round' id = 1%Z →
          ∃ z0, JS.reply_truthy prev = true ∧ prev = Some id ∧ round' = round ∧
                Redis.INCRBY (redis st) (clock st) (tallyKey round id) (-1) = Some (m1, z0))
    as Hloss.
  { unfold vote_loss. case_bool_decide as Hd; [|done]. intros _.
    destruct Hd as (-> & Hp & Hid). rewrite Hp in Hm1.
    assert (JS.reply_truthy (Some id) = true) as Ht by (by destruct id).
    rewrite Ht in Hm1. destruct Hm1 as [z0 Hm1]. exists z0. by rewrite Hp. }
  assert (vote_loss prev round round' id = 0%Z →
          count_at m1 (clock st) (tallyKey round' id) =
          count_at (redis st) (clock st) (tallyKey round' id)) as Hkeep.
  { intros Hl0. destruct prev as [a|] eqn:Eprev;
      [destruct (JS.reply_truthy (Some a)) eqn:Et|]; [|by subst m1..].
    destruct Hm1 as [z0 Hm1].
    rewrite (count_at_INCRBY _ _ _ _ _ _ (tallyKey round' id) Hm1).
    rewrite decide_False; [done|].
    intros [-> ->]%tallyKey_inj. unfold vote_loss in Hl0.
    rewrite bool_decide_true in Hl0; [done|].
    split; [done|]. split; [done|]. intros ->. done. }
  unfold vote_gain in *. case_bool_decide as Hg.
  - destruct Hg as [-> ->]. rewrite decide_True by done.
    destruct (decide (vote_loss prev round round c = 1%Z)) as [Hl|Hl].
    + destruct (Hloss Hl) as (z0 & _ & _ & _ & Hm1').
      rewrite (count_at_INCRBY _ _ _ _ _ _ (tallyKey round c) Hm1') in Hc2.
      rewrite decide_True in Hc2 by done.
      apply INCRBY_Some in Hm1' as (_ & _ & _ & _ & _ & Hc0 & _).
      exists z. rewrite Hl. split; [|f_equal; lia].
      rewrite Hc0. f_equal. simplify_eq. lia.
    + assert (vote_loss prev round round c = 0%Z) as Hl0.
      { unfold vote_loss in *. case_bool_decide; done. }
      rewrite Hl0. rewrite (Hkeep Hl0) in Hc2. exists (z - 1)%Z.
      split; [done | f_equal; lia].
  - destruct Hgl as [|Hl]; [done|].
    destruct (Hloss Hl) as (z0 & _ & _ & -> & Hm1').
    rewrite Hl.
    rewrite decide_False; last first.
    { intros [_ ->]%tallyKey_inj. by apply Hg. }
    rewrite (count_at_INCRBY _ _ _ _ _ _ (tallyKey round id) Hm1').
    rewrite decide_True by done.
    apply INCRBY_Some in Hm1' as (_ & _ & _ & _ & _ & Hc0 & _).
    exists (z0 + 1)%Z. split; [rewrite Hc0; f_equal; lia | f_equal; lia].
Qed.

End vote_effect.

Lemma eventHandlers_lookup event :
  eventHandlers !! event =
  if decide (event = "reset_votes") then Some on_reset_votes
  else if decide (event = "next_round") then Some on_next_round
  else if decide (event = "get_my_vote") then Some on_get_my_vote
  else if decide (event = "get_vote_counts") then Some on_get_vote_counts
  else if decide (event = "vote") then Some handleVote
  else None.
Proof.
  unfold eventHandlers, on. rewrite !lookup_insert, lookup_empty.
  repeat case_decide; congruence.
Qed.

Lemma on_get_vote_counts_final ws data user st :
  ∃ fs out, final (on_get_vote_counts ws data user st) =
            set_faults fs (set_sent (sent st ++ out) st).
Proof.
  unfold on_get_vote_counts, gets, mbind, M_bind.
  destruct (readVoteCounts_final (contestants st) ∅ st) as [fs Hfs].
  destruct (readVoteCounts (contestants st) ∅ st) as [vc st1|st1]; simpl in Hfs; subst st1.
  - unfold send, modify. simpl. eauto.
  - simpl. exists fs, []. rewrite app_nil_r. by destruct st.
Qed.

Lemma on_get_my_vote_final ws data user st :
  ∃ fs out, final (on_get_my_vote ws data user st) =
            set_faults fs (set_sent (sent st ++ out) st).
Proof.
  unfold on_get_my_vote, gets, mbind, M_bind, redis_get, mbind, M_bind.
  destruct (store_call st) as [[] st1|st1] eqn:E.
  - apply store_call_Done in E as [fs ->]. unfold send, modify. simpl. eauto.
  - apply store_call_Thrown in E as [fs ->]. simpl. exists fs, [].
    rewrite app_nil_r. by destruct st.
Qed.

Lemma on_next_round_eq ws data user st :
  ∃ fs out, on_next_round ws data user st =
            Done tt (set_faults fs (set_sent (sent st ++ out)
                       (set_currentRound (currentRound st + 1) st))).
Proof.
  unfold on_next_round, modify, gets, mbind, M_bind. rewrite broadcast_eq.
  match goal with
  | |- context [spawn broadcastVoteCounts ?s] =>
      destruct (spawn_broadcastVoteCounts s) as (fs & out & -> & _)
  end.
  eexists fs, _. simpl. unfold set_faults, set_sent, set_currentRound. simpl.
  by rewrite <- app_assoc.
Qed.

Section router_frame.
Context (jwtVerify : N → string → option bool).

Lemma identify_eq ws data st :
  ∃ adm, identify jwtVerify ws data st =
    Done tt (set_sent (sent st ++ [(ws, Out.welcome (data_uuid data) (contestants st)
                                       (currentRound st) (default false (adm !! ws)))])
               (set_isAdmin adm (set_users (<[ws := User (data_uuid data)]> (users st)) st)))
    ∧ (adm = isAdmin st ∨ adm = <[ws := true]> (isAdmin st)).
Proof.
  unfold identify, modify, gets, send, modify, mbind, M_bind.
  destruct (data_token data) as [token|]; [destruct (negb (String.eqb token EmptyString))|].
  - simpl. destruct (jwtVerify (clock st) token) as [[]|].
    + exists (<[ws := true]> (isAdmin st)). split; [done | by right].
    + exists (isAdmin st). split; [done | by left].
    + exists (isAdmin st). split; [done | by left].
  - exists (isAdmin st). split; [done | by left].
  - exists (isAdmin st). split; [done | by left].
Qed.

End router_frame.

(** What the router does with a request it lets through: it calls the
    handler registered for the event with the user bound to the socket. *)
Lemma on_message_dispatch jwtVerify ws event data user (h : handler) st :
  event ≠ "identify" →
  users st !! ws = Some user →
  socket_isAdmin ws st = true ∨ (event ≠ "next_round" ∧ event ≠ "reset_votes") →
  eventHandlers !! event = Some h →
  on_message jwtVerify ws (envelope event data) st = h ws data user st.
Proof.
  intros Hid Huser Hauth Hh. cbn [on_message].
  apply String.eqb_neq in Hid. rewrite Hid.
  rewrite (bind_gets users), Huser, (bind_gets (socket_isAdmin ws)).
  assert ((String.eqb event "next_round" || String.eqb event "reset_votes")
          && negb (socket_isAdmin ws st) = false) as ->.
  { destruct Hauth as [-> | [H1 H2]]; [apply andb_false_r|].
    apply String.eqb_neq in H1, H2. by rewrite H1, H2. }
  match goal with
  | |- context [match ?x with Some _ => _ | None => _ end] =>
      replace x with (Some h) by exact (eq_sym Hh)
  end.
  done.
Qed.

Lemma on_message_vote jwtVerify ws data user st :
  users st !! ws = Some user →
  on_message jwtVerify ws (envelope "vote" data) st = handleVote ws data user st.
Proof.
  intros Huser. apply on_message_dispatch; [done | done | by right |].
  by rewrite eventHandlers_lookup.
Qed.

Lemma on_message_unidentified jwtVerify ws event data st :
  event ≠ "identify" → users st !! ws = None →
  on_message jwtVerify ws (envelope event data) st = Done tt st.
Proof.
  intros Hid Huser. cbn [on_message]. apply String.eqb_neq in Hid. rewrite Hid.
  by rewrite (bind_gets users), Huser.
Qed.

Lemma consistent_store st st' :
  redis st' = redis st → clock st' = clock st → consistent st → consistent st'.
Proof.
  intros Hr Hc H round id Hid. unfold tally, live_votes. rewrite Hr, Hc. by apply H.
Qed.

Lemma live_mono now d e : Redis.live (now + d) e = true → Redis.live now e = true.
Proof.
  unfold Redis.live. destruct (Redis.expires e); [|done].
  rewrite !N.ltb_lt. lia.
Qed.

Lemma consistent_elapse d st :
  unexpired (set_clock (clock st + d) st) → consistent st →
  consistent (set_clock (clock st + d) st).
Proof.
  intros Hun H round id Hid. unfold unexpired in Hun. simpl in Hun.
  specialize (H round id Hid). unfold tally, live_votes in *. simpl.
  assert (∀ k, Redis.GET (redis st) (clock st + d) k = Redis.GET (redis st) (clock st) k)
    as ->.
  { intros k. rewrite !GET_lookup. destruct (redis st !! k) as [e|] eqn:E; [|done].
    pose proof (Hun k e E) as Hl. simpl in Hl.
    by rewrite Hl, (live_mono _ _ _ Hl). }
  rewrite H. do 3 f_equal. apply map_filter_ext. intros k e E.
  pose proof (Hun k e E) as Hl. simpl in Hl.
  unfold is_vote_for, is_vote. simpl. by rewrite Hl, (live_mono _ _ _ Hl).
Qed.

Lemma handleVote_consistent ws data user st st' :
  handleVote ws data user st = Done tt st' → consistent st → consistent st'.
Proof.
  intros Hdone H.
  destruct (JS.truthy (uuid user)) eqn:Hu; last first.
  { rewrite handleVote_falsy in Hdone by done. by injection Hdone as <-. }
  destruct (JS.strict_eq (my_vote st (currentRound st) (JS.template (uuid user)))
              (data_contestantId data)) eqn:Heq.
  { destruct (handleVote_same ws data user st st' Hu Heq Hdone) as [fs ->].
    by apply (consistent_store st). }
  intros round id Hid.
  pose proof (handleVote_live_votes ws data user st st' Hu Heq Hdone round id Hid) as Hl.
  specialize (H round id Hid).
  set (g := vote_gain (currentRound st) (JS.template (data_contestantId data)) round id) in *.
  set (l := vote_loss (my_vote st (currentRound st) (JS.template (uuid user)))
              (currentRound st) round id) in *.
  assert (g = 0%Z ∨ g = 1%Z) as Hg by (subst g; unfold vote_gain; case_bool_decide; auto).
  assert (l = 0%Z ∨ l = 1%Z) as Hl' by (subst l; unfold vote_loss; case_bool_decide; auto).
  destruct (decide (g = 0%Z ∧ l = 0%Z)) as [[Hg0 Hl0]|Hn].
  - rewrite (handleVote_tally_other ws data user st st' Hu Heq Hdone round id Hg0 Hl0).
    rewrite H. f_equal. lia.
  - destruct (handleVote_tally_touched ws data user st st' Hu Heq Hdone round id)
      as (n & Hn1 & Hn2); [fold g l; lia|].
    fold g l in Hn2. rewrite Hn2. f_equal. rewrite H in Hn1. simplify_eq. lia.
Qed.

Section store_invariant.
Context (jwtVerify : N → string → option bool).
Context (P : state → Prop).
Hypothesis P_store : ∀ st st', redis st' = redis st → clock st' = clock st → P st → P st'.
Hypothesis P_vote : ∀ ws data user st st',
  handleVote ws data user st = Done tt st' → P st → P st'.

(** A property of the store that votes preserve is preserved by every
    message other than [reset_votes]. *)
Lemma on_message_invariant ws msg st st' :
  is_reset_votes (message ws msg) = false →
  on_message jwtVerify ws msg st = Done tt st' →
  P st → P st'.
Proof using P_store P_vote.
  intros Hev Hdone H. destruct msg as [|event data]; cbn [on_message is_reset_votes] in *.
  { by injection Hdone as <-. }
  destruct (String.eqb event "identify").
  { destruct (identify_eq jwtVerify ws data st) as (adm & Hid & _).
    rewrite Hid in Hdone. injection Hdone as <-. by apply (P_store st). }
  rewrite (bind_gets users) in Hdone.
  destruct (users st !! ws) as [user|]; last by injection Hdone as <-.
  rewrite (bind_gets (socket_isAdmin ws)) in Hdone.
  destruct ((String.eqb event "next_round" || String.eqb event "reset_votes")
            && negb (socket_isAdmin ws st)).
  { injection Hdone as <-. by apply (P_store st). }
  rewrite eventHandlers_lookup in Hdone.
  apply String.eqb_neq in Hev. rewrite decide_False in Hdone by done.
  repeat case_decide.
  - destruct (on_next_round_eq ws data user st) as (fs & out & Heq).
    rewrite Heq in Hdone. injection Hdone as <-. by apply (P_store st).
  - destruct (on_get_my_vote_final ws data user st) as (fs & out & Heq).
    rewrite Hdone in Heq. cbn [final] in Heq. subst st'. by apply (P_store st).
  - destruct (on_get_vote_counts_final ws data user st) as (fs & out & Heq).
    rewrite Hdone in Heq. cbn [final] in Heq. subst st'. by apply (P_store st).
  - by eapply P_vote.
  - by injection Hdone as <-.
Qed.

End store_invariant.

Section steady_consistent.
Context (jwtVerify : N → string → option bool).

Lemma step_consistent ev st st' :
  is_reset_votes ev = false →
  step jwtVerify ev st = Done tt st' →
  unexpired st' →
  consistent st → consistent st'.
Proof.
  intros Hev Hdone Hun H. destruct ev as [ws|ws msg|ws|d]; cbn [step] in Hdone.
  - injection Hdone as <-. by apply (consistent_store st).
  - eapply (on_message_invariant jwtVerify consistent); eauto.
    + apply consistent_store.
    + apply handleVote_consistent.
  - injection Hdone as <-. by apply (consistent_store st).
  - injection Hdone as <-. by apply consistent_elapse.
Qed.

Lemma consistent_boot rows : consistent (boot rows).
Proof.
  intros round id _. unfold tally, live_votes. cbn [boot redis clock].
  by rewrite map_filter_empty, map_size_empty.
Qed.

End steady_consistent.

(** ** Rules for [calm], [keeps], [mute] and [total] *)

(** *** The store stays available *)

Lemma calm_bind {A B} (m : M A) (f : A → M B) :
  calm m → (∀ a, calm (f a)) → calm (m ≫= f).
Proof.
  intros Hm Hf st Hst. specialize (Hm st Hst). unfold mbind, M_bind.
  destruct (m st) as [a st1|st1]; cbn [final] in *; [by apply Hf | done].
Qed.

Lemma calm_ret {A} (a : A) : calm (mret a).
Proof. by intros st. Qed.

Lemma calm_gets {A} (f : state → A) : calm (gets f).
Proof. by intros st. Qed.

Lemma calm_modify f : (∀ st, faults (f st) = faults st) → calm (modify f).
Proof. intros Hf st Hst. cbn [modify final]. by rewrite Hf. Qed.

Lemma calm_store_call : calm store_call.
Proof. intros st Hst. by rewrite store_call_available. Qed.

Lemma calm_incrby_reply k d : calm (incrby_reply k d).
Proof.
  intros st Hst. unfold incrby_reply. by destruct (Redis.INCRBY _ _ _ _) as [[m z]|].
Qed.

Lemma calm_for_each {A} (l : list A) (body : A → M unit) :
  (∀ x, calm (body x)) → calm (for_each l body).
Proof.
  intros Hb. induction l as [|x l IH]; cbn [for_each]; [apply calm_ret|].
  apply calm_bind; [apply Hb | by intros].
Qed.

Lemma calm_spawn (m : M unit) : calm m → calm (spawn m).
Proof.
  intros Hm st Hst. specialize (Hm st Hst). unfold spawn. by destruct (m st).
Qed.

Create HintDb calm discriminated.

#[local] Hint Resolve calm_ret calm_gets calm_store_call calm_incrby_reply : calm.
#[local] Hint Extern 1 (calm (modify _)) => apply calm_modify; done : calm.

(** Follows the structure of a computation down to its store calls. *)
Ltac calm_walk :=
  repeat first
    [ progress cbv beta
    | solve [auto with calm]
    | apply calm_bind; [|intros ?]
    | apply calm_spawn
    | apply calm_for_each; intros ?
    | match goal with
      | |- calm (if ?b then _ else _) => destruct b
      | |- calm (match ?x with Some _ => _ | None => _ end) => destruct x
      end ].

Lemma calm_redis_get k : calm (redis_get k).
Proof. unfold redis_get. calm_walk. Qed.

Lemma calm_redis_set_ex k v ttl : calm (redis_set_ex k v ttl).
Proof. unfold redis_set_ex. calm_walk. Qed.

Lemma calm_redis_del k : calm (redis_del k).
Proof. unfold redis_del. calm_walk. Qed.

Lemma calm_redis_incrby k d : calm (redis_incrby k d).
Proof. unfold redis_incrby. calm_walk. Qed.

Lemma calm_send ws ev : calm (send ws ev).
Proof. unfold send. calm_walk. Qed.

#[local] Hint Resolve calm_redis_get calm_redis_set_ex calm_redis_del
  calm_redis_incrby calm_send : calm.

Lemma calm_readVoteCounts cs vc : calm (readVoteCounts cs vc).
Proof.
  revert vc. induction cs as [|c cs IH]; intros vc; cbn [readVoteCounts]; calm_walk.
Qed.

Lemma calm_broadcast ev : calm (broadcast ev).
Proof. unfold broadcast. calm_walk. Qed.

#[local] Hint Resolve calm_readVoteCounts calm_broadcast : calm.

Lemma calm_broadcastVoteCounts : calm broadcastVoteCounts.
Proof. unfold broadcastVoteCounts. calm_walk. Qed.

#[local] Hint Resolve calm_broadcastVoteCounts : calm.

Lemma calm_handleVote ws data user : calm (handleVote ws data user).
Proof. unfold handleVote, redis_incr, redis_decr. calm_walk. Qed.

(** *** A component of the state stays as it was *)

Section keeps.
Context {B : Type} (f : state → B).
Hypothesis f_faults : ∀ fs st, f (set_faults fs st) = f st.
Hypothesis f_redis : ∀ m st, f (set_redis m st) = f st.

Lemma keeps_bind {A C} (m : M A) (k : A → M C) :
  keeps f m → (∀ a, keeps f (k a)) → keeps f (m ≫= k).
Proof using Type.
  intros Hm Hk st. specialize (Hm st). unfold mbind, M_bind.
  destruct (m st) as [a st1|st1]; cbn [final] in *; [by rewrite Hk | done].
Qed.

Lemma keeps_ret {A} (a : A) : keeps f (mret a).
Proof using Type. by intros st. Qed.

Lemma keeps_gets {A} (g : state → A) : keeps f (gets g).
Proof using Type. by intros st. Qed.

Lemma keeps_modify g : (∀ st, f (g st) = f st) → keeps f (modify g).
Proof using Type. intros Hg st. apply Hg. Qed.

Lemma keeps_store_call : keeps f store_call.
Proof using f_faults.
  intros st. destruct (store_call_final st) as [fs ->]. apply f_faults.
Qed.

Lemma keeps_redis_get k : keeps f (redis_get k).
Proof using f_faults.
  apply keeps_bind; [apply keeps_store_call | intros; apply keeps_gets].
Qed.

Lemma keeps_redis_set_ex k v ttl : keeps f (redis_set_ex k v ttl).
Proof using f_faults f_redis.
  apply keeps_bind; [apply keeps_store_call | intros [] st; apply f_redis].
Qed.

Lemma keeps_redis_del k : keeps f (redis_del k).
Proof using f_faults f_redis.
  apply keeps_bind; [apply keeps_store_call | intros [] st; apply f_redis].
Qed.

Lemma keeps_redis_incrby k d : keeps f (redis_incrby k d).
Proof using f_faults f_redis.
  apply keeps_bind; [apply keeps_store_call|]. intros _ st. unfold incrby_reply.
  destruct (Redis.INCRBY _ _ _ _) as [[m z]|]; cbn [final]; [apply f_redis | done].
Qed.

Lemma keeps_for_each {A} (l : list A) (body : A → M unit) :
  (∀ x, keeps f (body x)) → keeps f (for_each l body).
Proof using Type.
  intros Hb. induction l as [|x l IH]; cbn [for_each]; [apply keeps_ret|].
  apply keeps_bind; [apply Hb | by intros].
Qed.

Lemma keeps_spawn (m : M unit) : keeps f m → keeps f (spawn m).
Proof using Type.
  intros Hm st. specialize (Hm st). unfold spawn. by destruct (m st).
Qed.

Lemma keeps_readVoteCounts cs vc : keeps f (readVoteCounts cs vc).
Proof using f_faults.
  revert vc. induction cs as [|c cs IH]; intros vc; cbn [readVoteCounts];
    [apply keeps_ret|].
  apply keeps_bind; [apply keeps_gets|]. intros round; cbv beta.
  apply keeps_bind; [apply keeps_redis_get|]. intros count. apply IH.
Qed.

End keeps.

(** Follows the structure of a computation; the component must be one that
    store calls leave alone. *)
Ltac keeps_walk :=
  repeat first
    [ progress cbv beta
    | apply keeps_ret
    | apply keeps_gets
    | apply keeps_redis_get; done
    | apply keeps_redis_set_ex; done
    | apply keeps_redis_del; done
    | apply keeps_redis_incrby; done
    | apply keeps_readVoteCounts; done
    | apply keeps_modify; done
    | apply keeps_bind; [|intros ?]
    | apply keeps_spawn
    | apply keeps_for_each; intros ?
    | match goal with
      | |- keeps _ (if ?b then _ else _) => destruct b
      | |- keeps _ (match ?x with Some _ => _ | None => _ end) => destruct x
      end ].

(** *** Nothing is written before a rejection *)

Lemma mute_bind {A B} (m : M A) (f : A → M B) :
  silent m → (∀ a, mute (f a)) → mute (m ≫= f).
Proof.
  intros Hm Hf st st'. specialize (Hm st). unfold silent, mbind, M_bind in *.
  destruct (m st) as [a st1|st1]; cbn [final] in *.
  - intros H. rewrite <- Hm. by eapply Hf.
  - by intros [= <-].
Qed.

Lemma mute_total {A} (m : M A) : total m → mute m.
Proof. intros Hm st st' H. destruct (Hm st) as (a & st1 & H1). congruence. Qed.

Lemma total_ret {A} (a : A) : total (mret a).
Proof. intros st. by eexists _, _. Qed.

Lemma total_gets {A} (g : state → A) : total (gets g).
Proof. intros st. by eexists _, _. Qed.

Lemma total_modify g : total (modify g).
Proof. intros st. by eexists _, _. Qed.

Lemma total_spawn m : total (spawn m).
Proof. intros st. unfold spawn. destruct (m st); by eexists _, _. Qed.

Lemma total_bind {A B} (m : M A) (f : A → M B) :
  total m → (∀ a, total (f a)) → total (m ≫= f).
Proof.
  intros Hm Hf st. destruct (Hm st) as (a & st1 & H1).
  unfold mbind, M_bind. rewrite H1. apply Hf.
Qed.

Lemma total_for_each {A} (l : list A) (body : A → M unit) :
  (∀ x, total (body x)) → total (for_each l body).
Proof.
  intros Hb. induction l as [|x l IH]; cbn [for_each]; [apply total_ret|].
  apply total_bind; [apply Hb | by intros].
Qed.

(** Follows a computation that makes no awaited store call. *)
Ltac total_walk :=
  repeat first
    [ progress cbv beta
    | apply total_ret
    | apply total_gets
    | apply total_modify
    | apply total_spawn
    | apply total_bind; [|intros ?]
    | apply total_for_each; intros ?
    | match goal with
      | |- total (if ?b then _ else _) => destruct b
      | |- total (match ?x with _ => _ end) => destruct x
      end ].

(** Follows a computation through its silent prefix to a tail that cannot
    reject. *)
Ltac mute_walk :=
  repeat first
    [ progress cbv beta
    | apply mute_total; solve [total_walk]
    | apply mute_bind; [unfold silent; solve [keeps_walk] | intros ?]
    | match goal with
      | |- mute (if ?b then _ else _) => destruct b
      | |- mute (match ?x with Some _ => _ | None => _ end) => destruct x
      end ].

Lemma total_send ws ev : total (send ws ev).
Proof. unfold send. total_walk. Qed.

Lemma total_broadcast ev : total (broadcast ev).
Proof. unfold broadcast, send. total_walk. Qed.

Lemma mute_handleVote ws data user : mute (handleVote ws data user).
Proof. unfold handleVote, redis_incr, redis_decr, send. mute_walk. Qed.

Lemma mute_on_get_vote_counts ws data user : mute (on_get_vote_counts ws data user).
Proof. unfold on_get_vote_counts, send. mute_walk. Qed.

Lemma mute_on_get_my_vote ws data user : mute (on_get_my_vote ws data user).
Proof. unfold on_get_my_vote, send. mute_walk. Qed.

Lemma mute_on_next_round ws data user : mute (on_next_round ws data user).
Proof. unfold on_next_round, broadcast, send. mute_walk. Qed.

Lemma mute_on_reset_votes ws data user : mute (on_reset_votes ws data user).
Proof. unfold on_reset_votes. mute_walk. Qed.

Lemma total_identify jwtVerify ws data : total (identify jwtVerify ws data).
Proof.
  unfold identify, send. total_walk.
  all: destruct (jwtVerify _ _) as [[]|]; total_walk.
Qed.

Lemma mute_on_message jwtVerify ws msg : mute (on_message jwtVerify ws msg).
Proof.
  destruct msg as [|event data]; cbn [on_message]; [mute_walk|].
  destruct (String.eqb event "identify"); [apply mute_total, total_identify|].
  apply mute_bind; [unfold silent; keeps_walk | intros us; cbv beta].
  destruct (us !! ws) as [user|]; [|mute_walk].
  apply mute_bind; [unfold silent; keeps_walk | intros adm; cbv beta].
  destruct (_ && _); [unfold send; mute_walk|].
  rewrite eventHandlers_lookup. repeat case_decide.
  - apply mute_on_reset_votes.
  - apply mute_on_next_round.
  - apply mute_on_get_my_vote.
  - apply mute_on_get_vote_counts.
  - apply mute_handleVote.
  - mute_walk.
Qed.

(** *** The [isAdmin] flags stay as they were *)

Lemma keeps_isAdmin_handlers event (h : handler) :
  eventHandlers !! event = Some h → ∀ ws data user, keeps isAdmin (h ws data user).
Proof.
  rewrite eventHandlers_lookup. intros H ws data user.
  repeat case_decide; simplify_eq.
  - unfold on_reset_votes, broadcastVoteCounts, broadcast, send. keeps_walk.
  - unfold on_next_round, broadcastVoteCounts, broadcast, send. keeps_walk.
  - unfold on_get_my_vote, send. keeps_walk.
  - unfold on_get_vote_counts, send. keeps_walk.
  - unfold handleVote, redis_incr, redis_decr, broadcastVoteCounts, broadcast, send.
    keeps_walk.
Qed.

Lemma is_vote_new round' now round u c ttl :
  (0 < ttl)%N →
  is_vote round' now (voteKey round u, Redis.Entry c (Some (now + ttl)%N)) =
  bool_decide (round' = round).
Proof.
  intros Httl. unfold is_vote. cbn [fst snd].
  by rewrite starts_with_voteKey, live_SETEX, andb_true_r.
Qed.

Lemma is_vote_old (m : Redis.db) round' now round u :
  match m !! voteKey round u with
  | Some e0 => if is_vote round' now (voteKey round u, e0) then 1 else 0
  | None => 0
  end =
  if bool_decide (round' = round ∧ is_Some (Redis.GET m now (voteKey round u)))
  then 1 else 0.
Proof.
  rewrite GET_lookup. destruct (m !! voteKey round u) as [e0|].
  - unfold is_vote. cbn [fst snd]. rewrite starts_with_voteKey.
    destruct (Redis.live now e0).
    + rewrite andb_true_r.
      destruct (decide (round' = round)) as [->|];
        [rewrite !bool_decide_true | rewrite !bool_decide_false]; intuition eauto.
    + rewrite andb_false_r. rewrite bool_decide_false; [done|].
      intros [_ [? [=]]].
  - rewrite bool_decide_false; [done|]. intros [_ [? [=]]].
Qed.

(** The records of a round after [SET voteKey c EX ttl]. *)
Lemma active_SETEX (m : Redis.db) now round u c ttl round' :
  (0 < ttl)%N →
  size (filter (λ kv, is_vote round' now kv = true)
          (Redis.SETEX m now (voteKey round u) c ttl)) +
    (if bool_decide (round' = round ∧ is_Some (Redis.GET m now (voteKey round u)))
     then 1 else 0) =
  size (filter (λ kv, is_vote round' now kv = true) m) +
    (if bool_decide (round' = round) then 1 else 0).
Proof.
  intros Httl. unfold Redis.SETEX.
  pose proof (size_filter_insert (λ kv, is_vote round' now kv) m
                (voteKey round u) (Redis.Entry c (Some (now + ttl)%N))) as H.
  cbv beta in H.
  rewrite is_vote_new in H by done.
  by rewrite (is_vote_old m round' now round u) in H.
Qed.

Lemma active_INCRBY m now r c d m' z round' :
  Redis.INCRBY m now (tallyKey r c) d = Some (m', z) →
  size (filter (λ kv, is_vote round' now kv = true) m') =
  size (filter (λ kv, is_vote round' now kv = true) m).
Proof.
  intros (e & -> & _)%INCRBY_Some. apply size_filter_insert_false.
  intros x. apply is_vote_tallyKey.
Qed.

Lemma GET_SETEX_eq (m : Redis.db) now k v ttl :
  (0 < ttl)%N → Redis.GET (Redis.SETEX m now k v ttl) now k = Some v.
Proof.
  intros H. unfold Redis.GET, Redis.SETEX. by rewrite find_insert_eq, live_SETEX.
Qed.

Lemma strict_eq_true r v :
  JS.strict_eq r v = true → r = Some (JS.template v).
Proof.
  destruct r as [s|], v as [s'|z]; simpl; try done.
  by intros ->%String.eqb_eq.
Qed.

Lemma strict_eq_ne a v : a ≠ JS.template v → JS.strict_eq (Some a) v = false.
Proof.
  destruct v as [s|z]; simpl; [|done]. intros H. by apply String.eqb_neq.
Qed.

Section vote_effect_more.
Context (ws : conn) (data : payload) (user : user) (st st' : state).
Let round := currentRound st.
Let u := JS.template (uuid user).
Let c := JS.template (data_contestantId data).
Let prev := my_vote st round u.

Hypothesis Huuid : JS.truthy (uuid user) = true.
Hypothesis Hdone : handleVote ws data user st = Done tt st'.

(** After a vote that completes the voter's record names the contestant. *)
Lemma handleVote_my_vote : my_vote st' round u = Some c.
Proof using Huuid Hdone.
  destruct (JS.strict_eq prev (data_contestantId data)) eqn:Heq.
  - destruct (handleVote_same ws data user st st' Huuid Heq Hdone) as [fs ->].
    by apply strict_eq_true in Heq.
  - destruct (handleVote_other ws data user st st' Huuid Heq Hdone)
      as (m1 & m3 & z & fs & out & _ & Hm3 & -> & _).
    unfold my_vote. state_simpl.
    fold round u c in Hm3 |- *.
    rewrite (GET_INCRBY_voteKey _ _ _ _ _ _ _ round u Hm3).
    by apply GET_SETEX_eq.
Qed.

(** The frames of a vote that completes: the reply, then the broadcast. *)
Lemma handleVote_sent :
  ∃ out, sent st' = sent st ++ (ws, Out.vote_success (data_contestantId data)) :: out
         ∧ vote_updates (clients st) out.
Proof using Huuid Hdone.
  destruct (JS.strict_eq prev (data_contestantId data)) eqn:Heq.
  - destruct (handleVote_same ws data user st st' Huuid Heq Hdone) as [fs ->].
    exists []. split; [done | by left].
  - destruct (handleVote_other ws data user st st' Huuid Heq Hdone)
      as (m1 & m3 & z & fs & out & _ & Hm3 & -> & Hout).
    by exists out.
Qed.

Lemma handleVote_active_votes round' :
  JS.strict_eq prev (data_contestantId data) = false →
  active_votes st' round' + (if bool_decide (round' = round ∧ is_Some prev) then 1 else 0) =
  active_votes st round' + (if bool_decide (round' = round) then 1 else 0).
Proof using Huuid Hdone.
  intros Heq.
  destruct (handleVote_other ws data user st st' Huuid Heq Hdone)
    as (m1 & m3 & z & fs & out & Hm1 & Hm3 & -> & _).
  unfold active_votes. state_simpl.
  fold round u c in Hm3. fold round u in Hm1. fold prev in Hm1.
  rewrite (active_INCRBY _ _ _ _ _ _ _ round' Hm3).
  pose proof (active_SETEX m1 (clock st) round u c (60 * 60) round') as H.
  assert (size (filter (λ kv, is_vote round' (clock st) kv = true) m1) =
          size (filter (λ kv, is_vote round' (clock st) kv = true) (redis st))
          ∧ Redis.GET m1 (clock st) (voteKey round u) = prev) as [E1 E2].
  { destruct prev as [a|] eqn:Eprev; [destruct (JS.reply_truthy (Some a))|].
    - destruct Hm1 as [z0 Hm1]. split.
      + by eapply active_INCRBY.
      + rewrite <- Eprev. by eapply GET_INCRBY_voteKey.
    - by subst m1.
    - by subst m1. }
  rewrite E1, E2 in H. by apply H.
Qed.

End vote_effect_more.

(** ** Store calls that fail *)

Lemma bind_rejects {A B} (m : M A) (f : A → M B) st st' :
  m st = Thrown st' → (m ≫= f) st = Thrown st'.
Proof. unfold mbind, M_bind. by intros ->. Qed.

Lemma doomed_zero st : ¬ doomed 0 st.
Proof. intros (k & Hk & _). lia. Qed.

Lemma awaits_dooms {A} k (m : M A) : awaits k m → dooms k m.
Proof.
  intros H st Hst. rewrite <- (Nat.add_0_r k) in Hst.
  destruct (H 0 st Hst) as [? | (a & st' & _ & Hst')]; [done|].
  by apply doomed_zero in Hst'.
Qed.

Lemma dooms_zero {A} (m : M A) : dooms 0 m.
Proof. intros st Hst. by apply doomed_zero in Hst. Qed.

Lemma awaits_ret {A} (a : A) : awaits 0 (mret a).
Proof. intros n st Hst. right. by exists a, st. Qed.

Lemma awaits_gets {A} (g : state → A) : awaits 0 (gets g).
Proof. intros n st Hst. right. by exists (g st), st. Qed.

Lemma awaits_store_call : awaits 1 store_call.
Proof.
  intros n st (k & Hk & Hf). unfold store_call.
  destruct (faults st) as [|[] fs] eqn:E.
  - by rewrite lookup_nil in Hf.
  - left. eauto.
  - right. exists tt, (set_faults fs st). split; [done|].
    destruct k as [|k]; [done|]. exists k. split; [lia | done].
Qed.

Lemma awaits_incrby_reply k d : awaits 0 (incrby_reply k d).
Proof.
  intros n st Hst. unfold incrby_reply.
  destruct (Redis.INCRBY _ _ _ _) as [[m z]|]; [right | left; eauto].
  by exists z, (set_redis m st).
Qed.

Lemma awaits_bind {A B} a b (m : M A) (f : A → M B) :
  awaits a m → (∀ x, awaits b (f x)) → awaits (a + b) (m ≫= f).
Proof.
  intros Hm Hf n st Hst. rewrite <- Nat.add_assoc in Hst.
  destruct (Hm (b + n) st Hst) as [[st' E] | (x & st' & E & Hst')].
  - left. exists st'. unfold mbind, M_bind. by rewrite E.
  - unfold mbind, M_bind. rewrite E. by apply Hf.
Qed.

Lemma dooms_bind {A B} a b n (m : M A) (f : A → M B) :
  n = a + b → awaits a m → (∀ x, dooms b (f x)) → dooms n (m ≫= f).
Proof.
  intros -> Hm Hf st Hst.
  destruct (Hm b st Hst) as [[st' E] | (x & st' & E & Hst')].
  - exists st'. unfold mbind, M_bind. by rewrite E.
  - unfold mbind, M_bind. rewrite E. by apply Hf.
Qed.

Lemma awaits_redis_get k : awaits 1 (redis_get k).
Proof. apply (awaits_bind 1 0); [apply awaits_store_call | intros; apply awaits_gets]. Qed.

Lemma awaits_redis_set_ex k v ttl : awaits 1 (redis_set_ex k v ttl).
Proof.
  apply (awaits_bind 1 0); [apply awaits_store_call|].
  intros [] n st Hst. right. by eexists tt, _.
Qed.

Lemma awaits_redis_del k : awaits 1 (redis_del k).
Proof.
  apply (awaits_bind 1 0); [apply awaits_store_call|].
  intros [] n st Hst. right. by eexists tt, _.
Qed.

Lemma awaits_redis_incrby k d : awaits 1 (redis_incrby k d).
Proof.
  apply (awaits_bind 1 0); [apply awaits_store_call | intros; apply awaits_incrby_reply].
Qed.

Lemma awaits_for_each {A} k (l : list A) (body : A → M unit) :
  (∀ x, awaits k (body x)) → awaits (length l * k) (for_each l body).
Proof.
  intros Hb. induction l as [|x l IH]; [apply (awaits_ret tt)|].
  cbn [for_each length Nat.mul]. apply awaits_bind; [apply Hb | by intros].
Qed.

Lemma awaits_readVoteCounts cs vc : awaits (length cs) (readVoteCounts cs vc).
Proof.
  revert vc. induction cs as [|c cs IH]; intros vc; [apply (awaits_ret vc)|].
  cbn [readVoteCounts length]. apply (awaits_bind 0 (S (length cs))); [apply awaits_gets|].
  intros round; cbv beta.
  apply (awaits_bind 1 (length cs)); [apply awaits_redis_get | intros; apply IH].
Qed.

(** The record that [handleVote] reads decides how many calls follow. *)
Lemma dooms_handleVote ws data user st :
  doomed (awaited_vote data user st) st →
  ∃ st', handleVote ws data user st = Thrown st'.
Proof.
  unfold awaited_vote, handleVote.
  destruct (JS.truthy (uuid user)); cbn [negb]; [|by intros ?%doomed_zero].
  intros Hst. rewrite bind_gets.
  set (key := voteKey (currentRound st) (JS.template (uuid user))) in *.
  fold (my_vote st (currentRound st) (JS.template (uuid user))) in *.
  set (prev := my_vote st (currentRound st) (JS.template (uuid user))) in *.
  assert (doomed (1 + (if JS.strict_eq prev (data_contestantId data) then 0
                       else (if JS.reply_truthy prev then 1 else 0) + 2)) st) as Hst'.
  { by destruct (JS.strict_eq prev (data_contestantId data)). }
  clear Hst.
  destruct (awaits_redis_get key _ st Hst') as [[st' E] | (r & st1 & E & Hst1)].
  { exists st'. by apply bind_rejects. }
  rewrite (bind_eq _ _ _ _ _ E).
  apply redis_get_Done in E as (fs & -> & ->). fold key in Hst1 |- *.
  change (Redis.GET (redis st) (clock st) key) with prev in *.
  destruct (JS.strict_eq prev (data_contestantId data)); [by apply doomed_zero in Hst1|].
  revert Hst1. generalize (set_faults fs st). clear.
  apply (dooms_bind (if JS.reply_truthy prev then 1 else 0) 2); [done | |intros _].
  { destruct prev as [a|]; [|apply (awaits_ret tt)].
    destruct (JS.reply_truthy (Some a)); [|apply (awaits_ret tt)].
    apply (awaits_bind 0 1); [apply awaits_gets | intros round; cbv beta].
    apply (awaits_bind 1 0); [apply awaits_redis_incrby | intros; apply awaits_ret]. }
  apply (dooms_bind 1 1); [done | apply awaits_redis_set_ex | intros _].
  apply (dooms_bind 0 1); [done | apply awaits_gets | intros round; cbv beta].
  apply (dooms_bind 1 0); [done | apply awaits_redis_incrby | intros; apply dooms_zero].
Qed.

Lemma dooms_on_get_my_vote ws data user : dooms 1 (on_get_my_vote ws data user).
Proof.
  unfold on_get_my_vote.
  apply (dooms_bind 0 1); [done | apply awaits_gets | intros round; cbv beta].
  apply (dooms_bind 1 0); [done | apply awaits_redis_get | intros; apply dooms_zero].
Qed.

Lemma dooms_on_get_vote_counts ws data user st :
  doomed (length (contestants st)) st →
  ∃ st', on_get_vote_counts ws data user st = Thrown st'.
Proof.
  intros Hst. unfold on_get_vote_counts. rewrite bind_gets. revert Hst.
  apply (dooms_bind (length (contestants st)) 0);
    [lia | apply awaits_readVoteCounts | intros; apply dooms_zero].
Qed.

Lemma dooms_on_reset_votes ws data user st :
  doomed (length (rounds_upto (currentRound st)) * length (contestants st)) st →
  ∃ st', on_reset_votes ws data user st = Thrown st'.
Proof.
  intros Hst. unfold on_reset_votes. rewrite !bind_gets. revert Hst.
  apply (dooms_bind (length (rounds_upto (currentRound st)) * length (contestants st)) 0);
    [lia | | intros; apply dooms_zero].
  apply awaits_for_each. intros round.
  rewrite <- (Nat.mul_1_r (length (contestants st))).
  apply awaits_for_each. intros c. apply awaits_redis_del.
Qed.

(** ** Handlers with the store available *)

Lemma redis_get_available k st :
  faults st = [] → redis_get k st = Done (Redis.GET (redis st) (clock st) k) st.
Proof.
  intros Hf. unfold redis_get, mbind, M_bind. by rewrite store_call_available.
Qed.

Lemma redis_set_ex_available k v ttl st :
  faults st = [] →
  redis_set_ex k v ttl st =
    Done tt (set_redis (Redis.SETEX (redis st) (clock st) k v ttl) st).
Proof.
  intros Hf. unfold redis_set_ex, mbind, M_bind. by rewrite store_call_available.
Qed.

Lemma redis_incrby_available k d st m z :
  faults st = [] → Redis.INCRBY (redis st) (clock st) k d = Some (m, z) →
  redis_incrby k d st = Done z (set_redis m st).
Proof.
  intros Hf Hm. unfold redis_incrby, mbind, M_bind.
  rewrite store_call_available by done. unfold incrby_reply. by rewrite Hm.
Qed.

Lemma redis_del_available k st :
  faults st = [] →
  redis_del k st = Done tt (set_redis (Redis.DEL (redis st) k) st).
Proof.
  intros Hf. unfold redis_del, mbind, M_bind. by rewrite store_call_available.
Qed.

Lemma handleVote_same_available ws data user st :
  faults st = [] →
  JS.truthy (uuid user) = true →
  JS.strict_eq (my_vote st (currentRound st) (JS.template (uuid user)))
               (data_contestantId data) = true →
  handleVote ws data user st =
    Done tt (set_sent (sent st ++ [(ws, Out.vote_success (data_contestantId data))]) st).
Proof.
  intros Hf Hu Heq. unfold handleVote. rewrite Hu. cbn [negb].
  rewrite bind_gets.
  rewrite (bind_eq _ _ _ _ _ (redis_get_available _ st Hf)).
  unfold my_vote in Heq. by rewrite Heq.
Qed.

Lemma handleVote_other_available ws data user st m1 m3 z :
  faults st = [] →
  JS.truthy (uuid user) = true →
  JS.strict_eq (my_vote st (currentRound st) (JS.template (uuid user)))
               (data_contestantId data) = false →
  match my_vote st (currentRound st) (JS.template (uuid user)) with
  | Some a =>
      if JS.reply_truthy (Some a)
      then ∃ z0, Redis.INCRBY (redis st) (clock st)
                   (tallyKey (currentRound st) a) (-1) = Some (m1, z0)
      else m1 = redis st
  | None => m1 = redis st
  end →
  Redis.INCRBY
    (Redis.SETEX m1 (clock st) (voteKey (currentRound st) (JS.template (uuid user)))
       (JS.template (data_contestantId data)) (60 * 60))
    (clock st) (tallyKey (currentRound st) (JS.template (data_contestantId data))) 1
    = Some (m3, z) →
  ∃ st', handleVote ws data user st = Done tt st'.
Proof.
  intros Hf Hu Heq Hm1 Hm3. unfold handleVote. rewrite Hu. cbn [negb].
  rewrite bind_gets.
  rewrite (bind_eq _ _ _ _ _ (redis_get_available _ st Hf)).
  unfold my_vote in *. rewrite Heq.
  set (prev := Redis.GET (redis st) (clock st) _) in *.
  assert ((match prev with
           | Some prev0 =>
               if JS.reply_truthy prev
               then round ← gets currentRound;
                    redis_decr (tallyKey round prev0);; mret ()
               else mret ()
           | None => mret ()
           end) st = Done tt (set_redis m1 st)) as Hdecr.
  { destruct prev as [a|]; [destruct (JS.reply_truthy (Some a))|].
    - destruct Hm1 as [z0 Hm1]. rewrite bind_gets. unfold redis_decr.
      by rewrite (bind_eq _ _ _ _ _ (redis_incrby_available _ _ st m1 z0 Hf Hm1)).
    - subst m1. by destruct st.
    - subst m1. by destruct st. }
  rewrite (bind_eq _ _ _ _ _ Hdecr).
  rewrite (bind_eq _ _ _ _ _ (redis_set_ex_available _ _ _ (set_redis m1 st) Hf)).
  rewrite bind_gets. state_simpl. unfold redis_incr.
  rewrite (bind_eq _ _ _ _ _
    (redis_incrby_available _ _ (set_redis _ (set_redis m1 st)) m3 z Hf Hm3)).
  unfold send at 1. rewrite bind_modify.
  match goal with
  | |- context [spawn broadcastVoteCounts ?s] =>
      destruct (spawn_broadcastVoteCounts s) as (fs & out & -> & _)
  end.
  by eexists.
Qed.

Lemma replies_head ws ev out st st' :
  sent st' = sent st ++ (ws, ev) :: out → ev ∈ replies ws st st'.
Proof.
  intros H. unfold replies. rewrite H, drop_app_length.
  rewrite filter_cons_True by done. apply elem_of_cons. by left.
Qed.

Lemma replies_same ws st : replies ws st st = [].
Proof. unfold replies. by rewrite drop_all. Qed.

(** ** The deletions of [reset_votes] *)

Lemma foldl_delete_lookup {A} (f : A → string) (l : list A) (m : Redis.db) k :
  foldl (λ m x, Redis.DEL m (f x)) m l !! k =
  if bool_decide (k ∈ f <$> l) then None else m !! k.
Proof.
  revert m. induction l as [|x l IH]; intros m.
  - cbn [foldl]. rewrite bool_decide_false; [done|]. rewrite fmap_nil. apply not_elem_of_nil.
  - cbn [foldl]. rewrite fmap_cons. rewrite IH. unfold Redis.DEL.
    destruct (decide (k = f x)) as [->|Hne].
    + rewrite lookup_delete_eq. rewrite (bool_decide_true (_ ∈ _ :: _)).
      * by destruct (bool_decide _).
      * apply elem_of_cons. by left.
    + rewrite lookup_delete_ne by done.
      apply (f_equal (λ b : bool, if b then None else m !! k)).
      apply bool_decide_ext. rewrite elem_of_cons. intuition.
Qed.

Lemma for_each_del_available {A} (f : A → string) (l : list A) st :
  faults st = [] →
  for_each l (λ x, redis_del (f x)) st =
    Done tt (set_redis (foldl (λ m x, Redis.DEL m (f x)) (redis st) l) st).
Proof.
  intros Hf. revert st Hf. induction l as [|x l IH]; intros st Hf; simpl.
  - by destruct st.
  - rewrite (bind_eq _ _ _ _ _ (redis_del_available _ st Hf)).
    by rewrite IH.
Qed.

Lemma reset_loops_available cs rounds st :
  faults st = [] →
  for_each rounds (λ round,
    for_each cs (λ c, redis_del (tallyKey round (JS.template (Contestant.id c))))) st =
  Done tt (set_redis (reset_db cs rounds (redis st)) st).
Proof.
  intros Hf. unfold reset_db. revert st Hf.
  induction rounds as [|r rounds IH]; intros st Hf; simpl.
  - by destruct st.
  - rewrite (bind_eq _ _ _ _ _
      (for_each_del_available (λ c, tallyKey r (JS.template (Contestant.id c))) cs st Hf)).
    by rewrite IH.
Qed.

Lemma reset_db_deleted cs rounds m round c :
  round ∈ rounds → c ∈ cs →
  reset_db cs rounds m !! tallyKey round (JS.template (Contestant.id c)) = None.
Proof.
  unfold reset_db. intros Hr Hc. revert m.
  induction rounds as [|r rounds IH]; intros m; [by apply elem_of_nil in Hr|].
  simpl. apply elem_of_cons in Hr as [->|Hr]; [|by apply IH].
  assert (∀ m', m' !! tallyKey r (JS.template (Contestant.id c)) = None →
    foldl (λ m round,
       foldl (λ m c, Redis.DEL m (tallyKey round (JS.template (Contestant.id c)))) m cs)
      m' rounds !! tallyKey r (JS.template (Contestant.id c)) = None) as Hkeep.
  { clear. induction rounds as [|r' rounds IH]; intros m' Hm'; simpl; [done|].
    apply IH.
    rewrite (foldl_delete_lookup (λ c, tallyKey r' (JS.template (Contestant.id c)))).
    by destruct (bool_decide _). }
  apply Hkeep.
  rewrite (foldl_delete_lookup (λ c, tallyKey r (JS.template (Contestant.id c)))).
  rewrite bool_decide_true; [done|].
  apply list_elem_of_fmap. by exists c.
Qed.

Lemma reset_db_voteKey cs rounds m round u :
  reset_db cs rounds m !! voteKey round u = m !! voteKey round u.
Proof.
  unfold reset_db. revert m. induction rounds as [|r rounds IH]; intros m; simpl; [done|].
  rewrite IH.
  rewrite (foldl_delete_lookup (λ c, tallyKey r (JS.template (Contestant.id c)))).
  rewrite bool_decide_false; [done|].
  intros (c & Hc & _)%list_elem_of_fmap. by apply voteKey_tallyKey in Hc.
Qed.

Lemma rounds_upto_elem round last : (round ≤ last)%N → round ∈ rounds_upto last.
Proof.
  intros H. unfold rounds_upto. apply list_elem_of_fmap.
  exists (N.to_nat round). split; [by rewrite N2Nat.id|].
  apply elem_of_seq. lia.
Qed.

Lemma on_reset_votes_available ws data user st :
  faults st = [] →
  ∃ out, on_reset_votes ws data user st =
    Done tt (set_sent (sent st ++ out)
               (set_redis (reset_db (contestants st) (rounds_upto (currentRound st))
                             (redis st)) st)).
Proof.
  intros Hf. unfold on_reset_votes. rewrite !bind_gets.
  rewrite (bind_eq _ _ _ _ _ (reset_loops_available _ _ st Hf)).
  match goal with
  | |- context [spawn broadcastVoteCounts ?s] =>
      destruct (spawn_broadcastVoteCounts s) as (fs & out & Hsp & _);
      pose proof (calm_spawn _ calm_broadcastVoteCounts s Hf) as Hcalm
  end.
  rewrite Hsp in Hcalm |- *. state_simpl in Hcalm. subst fs.
  exists out. destruct st. cbn in Hf. by subst.
Qed.

Lemma on_get_my_vote_available ws data user st :
  faults st = [] →
  on_get_my_vote ws data user st =
    Done tt (set_sent (sent st ++
               [(ws, Out.my_vote (my_vote st (currentRound st) (JS.template (uuid user))))])
               st).
Proof.
  intros Hf. unfold on_get_my_vote. rewrite bind_gets.
  by rewrite (bind_eq _ _ _ _ _ (redis_get_available _ st Hf)).
Qed.
Lemma covered_store st st' :
  redis st' = redis st → clock st' = clock st → covered st → covered st'.
Proof.
  intros Hr Hc [H1 H2]. split.
  - rewrite Hr. apply H1.
  - intros round id. unfold tally, live_votes. rewrite Hr, Hc. apply H2.
Qed.

Lemma live_votes_elapse st d round id :
  live_votes (set_clock (clock st + d) st) round id ≤ live_votes st round id.
Proof.
  unfold live_votes. state_simpl.
  rewrite <- (map_filter_filter_l
    (λ kv, is_vote_for round id (clock st + d) kv = true)
    (λ kv, is_vote_for round id (clock st) kv = true)).
  - apply map_size_filter.
  - intros k e _ H. unfold is_vote_for, is_vote in *. cbn [fst snd] in *.
    destruct (starts_with _ _); [|done]. cbn [andb] in *.
    destruct (Redis.live (clock st + d) e) eqn:E; [|done].
    by rewrite (live_mono _ _ _ E).
Qed.

Lemma covered_elapse st d : covered st → covered (set_clock (clock st + d) st).
Proof.
  intros [H1 H2]. split; [apply H1|].
  intros round id. destruct (H2 round id) as (n & Hn & Hn0 & Hlive).
  exists n. split; [|split; [done|]].
  - unfold tally in *. state_simpl. rewrite GET_lookup in *.
    destruct (redis st !! tallyKey round id) as [e|] eqn:E; [|done].
    unfold Redis.live in *. by rewrite (H1 _ _ _ E) in *.
  - intros Hid. pose proof (live_votes_elapse st d round id). specialize (Hlive Hid). lia.
Qed.

Lemma INCRBY_no_expiry m now k d m' z :
  (∀ e, m !! k = Some e → Redis.expires e = None) →
  Redis.INCRBY m now k d = Some (m', z) →
  ∃ e, m' = <[k := e]> m ∧ Redis.expires e = None.
Proof.
  intros Hm (e & -> & _ & _ & He & _)%INCRBY_Some. exists e. split; [done|].
  rewrite He. unfold Redis.find. destruct (m !! k) as [e0|] eqn:E; [|done].
  destruct (Redis.live now e0); [|done]. simpl. by apply Hm.
Qed.

Lemma handleVote_covered ws data user st st' :
  handleVote ws data user st = Done tt st' → covered st → covered st'.
Proof.
  intros Hdone Hcov.
  destruct (JS.truthy (uuid user)) eqn:Hu; last first.
  { rewrite handleVote_falsy in Hdone by done. by injection Hdone as <-. }
  destruct (JS.strict_eq (my_vote st (currentRound st) (JS.template (uuid user)))
              (data_contestantId data)) eqn:Heq.
  { destruct (handleVote_same ws data user st st' Hu Heq Hdone) as [fs ->].
    by apply (covered_store st). }
  destruct Hcov as [H1 H2]. split.
  - destruct (handleVote_other ws data user st st' Hu Heq Hdone)
      as (m1 & m3 & z & fs & out & Hm1 & Hm3 & -> & _).
    state_simpl.
    assert (∀ round id e, m1 !! tallyKey round id = Some e → Redis.expires e = None)
      as H1'.
    { destruct (my_vote st _ _) as [a|]; [destruct (JS.reply_truthy (Some a))|];
        [|by subst m1..].
      destruct Hm1 as [z0 Hm1].
      apply INCRBY_no_expiry in Hm1 as (e1 & -> & He1); [|apply H1].
      intros round id e. destruct (decide (tallyKey (currentRound st) a = tallyKey round id))
        as [<-|Hne].
      - rewrite lookup_insert_eq. by intros [= <-].
      - rewrite lookup_insert_ne by done. apply H1. }
    apply INCRBY_no_expiry in Hm3 as (e3 & -> & He3).
    + intros round id e.
      destruct (decide (tallyKey (currentRound st) (JS.template (data_contestantId data))
                        = tallyKey round id)) as [<-|Hne].
      * rewrite lookup_insert_eq. by intros [= <-].
      * rewrite lookup_insert_ne by done. unfold Redis.SETEX.
        rewrite lookup_insert_ne by apply voteKey_tallyKey. apply H1'.
    + intros e. unfold Redis.SETEX.
      rewrite lookup_insert_ne by apply voteKey_tallyKey. apply H1'.
  - intros round id. destruct (H2 round id) as (n & Hn & Hn0 & Hlive).
    set (g := vote_gain (currentRound st) (JS.template (data_contestantId data)) round id).
    set (l := vote_loss (my_vote st (currentRound st) (JS.template (uuid user)))
                (currentRound st) round id).
    assert (g = 0%Z ∨ g = 1%Z) as Hg by (subst g; unfold vote_gain; case_bool_decide; auto).
    assert (l = 0%Z ∨ l = 1%Z) as Hl by (subst l; unfold vote_loss; case_bool_decide; auto).
    assert (id = EmptyString → l = 0%Z) as Hempty.
    { intros ->. subst l. unfold vote_loss. rewrite bool_decide_false; [done|].
      by intros (_ & _ & ?). }
    assert (tally st' round id = Some (n + g - l)%Z) as Hn'.
    { destruct (decide (g = 0%Z ∧ l = 0%Z)) as [[Hg0 Hl0]|Hnz].
      - rewrite (handleVote_tally_other ws data user st st' Hu Heq Hdone round id Hg0 Hl0).
        rewrite Hn. f_equal. lia.
      - destruct (handleVote_tally_touched ws data user st st' Hu Heq Hdone round id)
          as (n0 & Hn0' & ->); [fold g l; lia|]. fold g l. rewrite Hn in Hn0'.
        by simplify_eq. }
    exists (n + g - l)%Z. split; [done|].
    destruct (decide (id = EmptyString)) as [Hid|Hid].
    + specialize (Hempty Hid). split; [lia | done].
    + pose proof (handleVote_live_votes ws data user st st' Hu Heq Hdone round id Hid) as Hlv.
      fold g l in Hlv. specialize (Hlive Hid). split; [lia|]. intros _. lia.
Qed.

Section resetless_covered.
Context (jwtVerify : N → string → option bool).

Lemma step_covered ev st st' :
  is_reset_votes ev = false →
  step jwtVerify ev st = Done tt st' →
  covered st → covered st'.
Proof.
  intros Hev Hdone H. destruct ev as [ws|ws msg|ws|d]; cbn [step] in Hdone.
  - injection Hdone as <-. by apply (covered_store st).
  - eapply (on_message_invariant jwtVerify covered); eauto.
    + apply covered_store.
    + apply handleVote_covered.
  - injection Hdone as <-. by apply (covered_store st).
  - injection Hdone as <-. by apply covered_elapse.
Qed.

Lemma covered_boot rows : covered (boot rows).
Proof.
  split; [done|]. intros round id. exists 0%Z. split; [done|]. split; [done|].
  intros _. unfold live_votes. cbn [boot redis clock].
  by rewrite map_filter_empty, map_size_empty.
Qed.

(** Without [reset_votes] no tally is negative, whatever expires. *)
Lemma resetless_nonnegative rows st :
  resetless jwtVerify rows st →
  ∀ round id, ∃ n, tally st round id = Some n ∧ (0 ≤ n)%Z.
Proof.
  intros Hreach.
  assert (covered st) as [_ H].
  { induction Hreach as [|st ev st' _ IH Hev Hstep].
    - apply covered_boot.
    - by apply (step_covered ev st st'). }
  intros round id. destruct (H round id) as (n & Hn & Hn0 & _). eauto.
Qed.

End resetless_covered.
(** ** C1: tally consistency *)

Lemma steady_x_votes_A : steady Demo.jwtVerify Demo.rows Demo.x_votes_A.
Proof.
  eapply (steady_step _ _ _ (message 1 (Demo.vote_for (JS.Str "A")))).
  eapply (steady_step _ _ _ (message 2 (Demo.identify_as "root" (Some "admin-token")))).
  eapply (steady_step _ _ _ (connection 2)).
  eapply (steady_step _ _ _ (message 1 (Demo.identify_as "X" None))).
  eapply (steady_step _ _ _ (connection 1)).
  apply steady_boot.
  all: try (vm_compute; reflexivity).
  all: unfold unexpired; apply (bool_decide_unpack _); vm_compute; exact I.
Defined.

(** C1 (as amended).  The server boots against an empty store and handles
    its events one at a time, each request to completion before the next
    event is taken (no two handlers overlap), the ids in the requests being
    JSON strings or integers.  In every state it reaches through events that
    complete, without a [reset_votes] request and without a stored key
    expiring, the tally of every round and every non-empty contestant id
    equals the number of non-expired vote records of that round naming that
    id. *)
Theorem tally_consistency jwtVerify rows st :
  steady jwtVerify rows st →
  ∀ round id, id ≠ EmptyString →
    tally st round id = Some (Z.of_nat (live_votes st round id)).
Proof.
  induction 1 as [|st ev st' _ IH Hev Hstep Hun].
  - apply consistent_boot.
  - by apply (step_consistent jwtVerify ev st st').
Qed.

Lemma tally_consistency_witness :
  steady Demo.jwtVerify Demo.rows Demo.x_votes_A ∧
  tally Demo.x_votes_A 0 "A" = Some (Z.of_nat (live_votes Demo.x_votes_A 0 "A")).
Proof.
  split; [apply steady_x_votes_A|].
  apply (tally_consistency Demo.jwtVerify Demo.rows Demo.x_votes_A).
  - apply steady_x_votes_A.
  - done.
Defined.

(** C1 as stated fails: X votes A and an hour passes; X's record has expired
    and nothing has decremented the tally of A, which still reads 1. *)
Lemma tally_consistency_counterexample :
  tally Demo.hour_later 0 "A" = Some 1%Z ∧
  live_votes Demo.hour_later 0 "A" = 0 ∧
  tally Demo.hour_later 0 "A" ≠ Some (Z.of_nat (live_votes Demo.hour_later 0 "A")).
Proof. repeat apply conj; vm_compute; (reflexivity || discriminate). Qed.

(** The other two conditions of the amended statement are needed as well:
    after a reset the tally of A reads 0 while X's record for A is live ... *)
Example reset_breaks_consistency :
  tally Demo.after_reset 0 "A" = Some 0%Z ∧ live_votes Demo.after_reset 0 "A" = 1.
Proof. split; vm_compute; reflexivity. Qed.

(** ... and a record for the empty id is overwritten without a decrement,
    because an empty string is falsy. *)
Example empty_id_breaks_consistency :
  tally Demo.empty_then_A 0 EmptyString = Some 1%Z ∧
  live_votes Demo.empty_then_A 0 EmptyString = 0 ∧
  tally Demo.empty_then_A 0 "A" = Some 1%Z ∧
  live_votes Demo.empty_then_A 0 "A" = 1.
Proof. repeat apply conj; vm_compute; reflexivity. Qed.

(** The scenario of the specification, run through the router. *)
Example scenario_boards :
  Scenario.board Scenario.x_A = (Some 1%Z, Some 0%Z) ∧
  Scenario.board Scenario.y_A = (Some 2%Z, Some 0%Z) ∧
  Scenario.board Scenario.x_B = (Some 1%Z, Some 1%Z) ∧
  Scenario.board Scenario.x_B_again = (Some 1%Z, Some 1%Z) ∧
  Scenario.board Scenario.cleared = (Some 0%Z, Some 0%Z).
Proof. repeat apply conj; vm_compute; reflexivity. Qed.

(** ** C2: votes for ids outside the catalog *)

(** C2 (as amended).  A vote whose contestantId is a JSON string or
    integer that is not in the catalog, cast by a voter with a truthy id and
    handled with no other request handled meanwhile, is not refused: when
    the cast completes the caller has been sent [vote_success] with that id,
    every other frame written is a [vote_update] broadcast (none is an
    [error]), the voter's record of the current round names the id, and --
    unless that record named it already -- the tally of the id in the
    current round has grown by 1. *)
Theorem vote_unknown_contestant ws data user st st' :
  JS.template (data_contestantId data)
    ∉ (λ c, JS.template (Contestant.id c)) <$> contestants st →
  JS.truthy (uuid user) = true →
  handleVote ws data user st = Done tt st' →
  (∃ out, sent st' = sent st ++ (ws, Out.vote_success (data_contestantId data)) :: out
          ∧ vote_updates (clients st) out) ∧
  my_vote st' (currentRound st) (JS.template (uuid user))
    = Some (JS.template (data_contestantId data)) ∧
  (my_vote st (currentRound st) (JS.template (uuid user))
     ≠ Some (JS.template (data_contestantId data)) →
   ∃ n, tally st (currentRound st) (JS.template (data_contestantId data)) = Some n ∧
        tally st' (currentRound st) (JS.template (data_contestantId data))
          = Some (n + 1)%Z).
Proof.
  intros _ Hu Hdone. split; [by apply (handleVote_sent ws data user st st')|].
  split; [by apply (handleVote_my_vote ws data user st st')|].
  intros Hne.
  assert (JS.strict_eq (my_vote st (currentRound st) (JS.template (uuid user)))
            (data_contestantId data) = false) as Heq.
  { apply not_true_is_false. by intros ?%strict_eq_true. }
  set (round := currentRound st) in *.
  set (b := JS.template (data_contestantId data)) in *.
  destruct (handleVote_tally_touched ws data user st st' Hu Heq Hdone round b)
    as (n & Hn & Hn').
  { left. fold round b. unfold vote_gain. by rewrite bool_decide_true. }
  fold round b in Hn'. unfold vote_gain, vote_loss in Hn'.
  rewrite bool_decide_true in Hn' by done.
  rewrite bool_decide_false in Hn' by (intros (_ & ? & _); done).
  exists n. split; [done|]. rewrite Hn'. f_equal. lia.
Qed.

Lemma vote_unknown_contestant_witness :
  my_vote Unknown.after 0 "X" = Some "Z" ∧
  ∃ n, tally Unknown.before 0 "Z" = Some n ∧ tally Unknown.after 0 "Z" = Some (n + 1)%Z.
Proof.
  destruct (vote_unknown_contestant 1 Unknown.ballot Unknown.voter
              Unknown.before Unknown.after) as (_ & Hrec & Htally).
  - vm_compute. intros H. repeat (apply elem_of_cons in H as [[=]|H]).
    by apply elem_of_nil in H.
  - reflexivity.
  - vm_compute; reflexivity.
  - split; [exact Hrec|]. apply Htally. vm_compute. discriminate.
Defined.

(** C2 as stated fails: Z is not in the catalog, yet X's vote for Z is
    answered with [vote_success], X's record is created and the counter of Z
    is created with value 1. *)
Lemma vote_unknown_contestant_counterexample :
  (JS.Str "Z" ∉ Contestant.id <$> contestants Unknown.before) ∧
  handleVote 1 Unknown.ballot Unknown.voter Unknown.before = Done tt Unknown.after ∧
  replies 1 Unknown.before Unknown.after
    = [Out.vote_success (JS.Str "Z");
       Out.vote_update {[ "A" := Some 0%Z; "B" := Some 0%Z ]}] ∧
  my_vote Unknown.before 0 "X" = None ∧ my_vote Unknown.after 0 "X" = Some "Z" ∧
  redis Unknown.before !! tallyKey 0 "Z" = None ∧
  redis Unknown.after !! tallyKey 0 "Z" = Some (Redis.Entry "1" None).
Proof.
  split.
  - vm_compute. intros H. repeat (apply elem_of_cons in H as [[=]|H]).
    by apply elem_of_nil in H.
  - repeat apply conj; vm_compute; reflexivity.
Qed.

(** ** C3: tallies are never negative *)

(** C3 fails on the code: X votes A, the admin resets, X switches to B; the
    switch decrements the counter of A that the reset has deleted, and the
    tally of A reads -1.  ([resetless_nonnegative] shows that no tally is
    negative as long as no [reset_votes] is handled.) *)
Lemma negative_tally_after_reset :
  tally Demo.x_votes_A 0 "A" = Some 1%Z ∧
  tally Demo.after_reset 0 "A" = Some 0%Z ∧
  tally Demo.switch_after_reset 0 "A" = Some (-1)%Z.
Proof. repeat apply conj; vm_compute; reflexivity. Qed.

(** ** C4: voting twice for the same contestant *)

Lemma strict_eq_false_truthy v :
  JS.strict_eq (Some (JS.template v)) v = false →
  JS.reply_truthy (Some (JS.template v)) = true.
Proof.
  destruct v as [s|z]; cbn [JS.strict_eq JS.template JS.reply_truthy].
  - by rewrite String.eqb_refl.
  - intros _. pose proof (render_Z_nonempty z) as Hne.
    by destruct (String.eqb_spec (JS.render_Z z) EmptyString).
Qed.

Lemma int64_one : Redis.int64 1 = true.
Proof. done. Qed.

Lemma strict_eq_template r v :
  JS.strict_eq r v = true → JS.strict_eq (Some (JS.template v)) v = true.
Proof.
  destruct r as [s|], v as [s'|z]; cbn [JS.strict_eq JS.template]; try done.
  intros _. apply String.eqb_refl.
Qed.

(** The second of two equal votes through the decrement and increment path
    completes, whether or not the counter has run out of time since the
    first. *)
Lemma revote_completes ws data user st st1 seconds :
  faults st1 = [] →
  JS.truthy (uuid user) = true →
  handleVote ws data user st = Done tt st1 →
  my_vote (later seconds st1) (currentRound st1) (JS.template (uuid user))
    = Some (JS.template (data_contestantId data)) →
  JS.strict_eq (Some (JS.template (data_contestantId data)))
               (data_contestantId data) = false →
  ∃ st2, handleVote ws data user (later seconds st1) = Done tt st2.
Proof.
  intros Hf1 Hu H1 Hlive Heq1.
  destruct (JS.strict_eq (my_vote st (currentRound st) (JS.template (uuid user)))
              (data_contestantId data)) eqn:Heq.
  { apply strict_eq_template in Heq. congruence. }
  destruct (handleVote_other ws data user st st1 Hu Heq H1)
    as (m1 & m3 & z & fs & out & _ & Hm3 & -> & _).
  unfold later in *. unfold my_vote in Hlive. state_simpl in Hlive. state_simpl in Hf1.
  state_simpl.
  set (round := currentRound st) in *.
  set (u := JS.template (uuid user)) in *.
  set (c := JS.template (data_contestantId data)) in *.
  set (now := (clock st + seconds)%N) in *.
  pose proof (strict_eq_false_truthy _ Heq1) as Htruthy. fold c in Htruthy.
  apply INCRBY_Some in Hm3 as (e & -> & Hv & Hl & _ & _ & Hz0 & Hz).
  specialize (Hz int64_one).
  set (m2 := Redis.SETEX m1 (clock st) (voteKey round u) c (60 * 60)) in *.
  set (m3 := <[tallyKey round c := e]> m2) in *.
  assert (∃ m4 e4 z4, Redis.INCRBY m3 now (tallyKey round c) (-1) = Some (m4, z4) ∧
            m4 = <[tallyKey round c := e4]> m3 ∧
            Redis.live now e4 = true ∧ Redis.value e4 = JS.render_Z z4 ∧
            Redis.int64 z4 = true ∧ Redis.int64 (z4 + 1) = true)
    as (m4 & e4 & z4 & Hdecr & -> & Hl4 & Hv4 & Hz4 & Hz4').
  { destruct (Redis.live now e) eqn:Hlnow.
    - eexists _, (Redis.Entry (JS.render_Z (z + -1)) (Redis.expires e)), _.
      split; [|split; [done|]].
      + apply (INCRBY_integer _ _ _ _ e z); [|done..|].
        * subst m3. by rewrite find_insert_eq, Hlnow.
        * by replace (z + -1)%Z with (z - 1)%Z by lia.
      + split; [done|]. split; [done|]. split.
        * by replace (z + -1)%Z with (z - 1)%Z by lia.
        * by replace (z + -1 + 1)%Z with z by lia.
    - eexists _, (Redis.Entry (JS.render_Z (-1)) None), _.
      split; [|split; [done|]].
      + unfold Redis.INCRBY. subst m3. by rewrite find_insert_eq, Hlnow.
      + done. }
  apply (handleVote_other_available ws data user _
           (<[tallyKey round c := e4]> m3)
           (<[tallyKey round c := Redis.Entry (JS.render_Z (z4 + 1)) (Redis.expires e4)]>
              (Redis.SETEX (<[tallyKey round c := e4]> m3) now (voteKey round u) c (60 * 60)))
           (z4 + 1)%Z); state_simpl; try done.
  - unfold my_vote. state_simpl. fold round u now. by rewrite Hlive.
  - unfold my_vote. state_simpl. fold round u now. rewrite Hlive, Htruthy. eauto.
  - fold round u c now.
    apply (INCRBY_integer _ _ _ _ e4 z4); [|done..].
    unfold Redis.SETEX. rewrite find_insert_ne by apply voteKey_tallyKey.
    by rewrite find_insert_eq, Hl4.
Qed.

(** C4 (as amended).  The store is available and the ids are JSON strings
    or integers.  A cast completes and is answered with [vote_success]; the
    same vote is sent again and handled after the first has completed, with
    nothing but time in between and no other request handled meanwhile, while
    the voter's record is still live.  Then the second cast completes, is
    answered with [vote_success], and leaves the tally of every round and
    contestant as it was before the second cast. *)
Theorem revote_idempotent ws data user st st1 seconds :
  faults st = [] →
  handleVote ws data user st = Done tt st1 →
  Out.vote_success (data_contestantId data) ∈ replies ws st st1 →
  my_vote (later seconds st1) (currentRound st1) (JS.template (uuid user))
    = Some (JS.template (data_contestantId data)) →
  ∃ st2, handleVote ws data user (later seconds st1) = Done tt st2 ∧
         (∀ round id, tally st2 round id = tally (later seconds st1) round id) ∧
         Out.vote_success (data_contestantId data) ∈ replies ws (later seconds st1) st2.
Proof.
  intros Hf H1 Hrep Hlive.
  destruct (JS.truthy (uuid user)) eqn:Hu; last first.
  { rewrite handleVote_falsy in H1 by done. injection H1 as <-.
    rewrite replies_same in Hrep. by apply elem_of_nil in Hrep. }
  assert (faults st1 = []) as Hf1.
  { pose proof (calm_handleVote ws data user st Hf) as H. by rewrite H1 in H. }
  set (st1' := later seconds st1) in *.
  assert (my_vote st1' (currentRound st1') (JS.template (uuid user)) =
          Some (JS.template (data_contestantId data))) as Hmine1 by exact Hlive.
  assert (faults st1' = []) as Hf1' by exact Hf1.
  destruct (JS.strict_eq (my_vote st1' (currentRound st1') (JS.template (uuid user)))
              (data_contestantId data)) eqn:Heq1.
  - eexists. split; [by apply handleVote_same_available|]. split; [done|].
    by eapply replies_head.
  - pose proof Heq1 as Htruthy. rewrite Hmine1 in Htruthy.
    destruct (revote_completes ws data user st st1 seconds Hf1 Hu H1 Hlive Htruthy)
      as [st2 H2].
    fold st1' in H2. exists st2. split; [done|]. split.
    + apply strict_eq_false_truthy in Htruthy.
      intros round id.
      set (g := vote_gain (currentRound st1') (JS.template (data_contestantId data)) round id).
      set (l := vote_loss (my_vote st1' (currentRound st1') (JS.template (uuid user)))
                  (currentRound st1') round id).
      assert (l = g) as Hlg.
      { subst l g. rewrite Hmine1. unfold vote_loss, vote_gain.
        apply (f_equal (λ x : bool, if x then _ else _)). apply bool_decide_ext.
        split.
        - by intros (-> & [= ->] & _).
        - intros [-> ->]. split; [done|]. split; [done|].
          intros E. rewrite E in Htruthy. done. }
      destruct (decide (g = 0%Z)) as [Hg|Hg].
      * apply (handleVote_tally_other ws data user st1' st2 Hu Heq1 H2); fold g l; lia.
      * destruct (handleVote_tally_touched ws data user st1' st2 Hu Heq1 H2 round id)
          as (n & Hn & Hn').
        { left. fold g. subst g. unfold vote_gain in *. by case_bool_decide. }
        fold g l in Hn'. rewrite Hn, Hn'. f_equal. lia.
    + destruct (handleVote_sent ws data user st1' st2 Hu H2) as (out & Hout & _).
      by eapply replies_head.
Qed.

Lemma revote_idempotent_witness :
  ∃ st2, handleVote 1 Revote.ballot Revote.voter (later 1800 Revote.first) = Done tt st2 ∧
         (∀ round id, tally st2 round id = tally (later 1800 Revote.first) round id) ∧
         Out.vote_success (JS.Num 7) ∈ replies 1 (later 1800 Revote.first) st2.
Proof.
  apply (revote_idempotent 1 Revote.ballot Revote.voter Revote.before Revote.first 1800).
  - vm_compute; reflexivity.
  - vm_compute; reflexivity.
  - apply list_elem_of_lookup. exists 0. vm_compute; reflexivity.
  - vm_compute; reflexivity.
Defined.

(** C4 as stated fails: X votes A, an hour passes and X's record runs out;
    X votes A again, nothing else having happened.  The second cast finds no
    record and counts once more: the tally of A goes from 1 to 2, with one
    live record. *)
Lemma revote_idempotent_counterexample :
  handleVote 1 Again.ballot Again.voter Demo.opened = Done tt Demo.x_votes_A ∧
  Stale.before = run Demo.jwtVerify [elapse 3600] Demo.x_votes_A ∧
  handleVote 1 Again.ballot Again.voter Stale.before = Done tt Stale.after ∧
  tally Stale.before 0 "A" = Some 1%Z ∧
  tally Stale.after 0 "A" = Some 2%Z ∧
  live_votes Stale.after 0 "A" = 1 ∧
  Out.vote_success (JS.Str "A") ∈ replies 1 Stale.before Stale.after.
Proof.
  repeat apply conj; try (vm_compute; reflexivity).
  apply list_elem_of_lookup. exists 0. vm_compute; reflexivity.
Qed.

(** ** C5: switching a vote *)

(** C5 (as amended).  A voter with a truthy id whose live record in the
    current round names contestant A, A not the empty string, casts a vote
    for a different contestant B, the ids being JSON strings or integers and
    no other request being handled meanwhile: when the cast completes, the
    tally of A is one less, the tally of B one more, every other tally of
    every round is as before, the number of live records of the round is
    unchanged, and the voter's record names B. *)
Theorem vote_switch_delta ws data user st st' a :
  JS.truthy (uuid user) = true →
  my_vote st (currentRound st) (JS.template (uuid user)) = Some a →
  a ≠ EmptyString →
  a ≠ JS.template (data_contestantId data) →
  handleVote ws data user st = Done tt st' →
  (∃ n, tally st (currentRound st) a = Some n ∧
        tally st' (currentRound st) a = Some (n - 1)%Z) ∧
  (∃ n, tally st (currentRound st) (JS.template (data_contestantId data)) = Some n ∧
        tally st' (currentRound st) (JS.template (data_contestantId data))
          = Some (n + 1)%Z) ∧
  (∀ round id,
     (round, id) ≠ (currentRound st, a) →
     (round, id) ≠ (currentRound st, JS.template (data_contestantId data)) →
     tally st' round id = tally st round id) ∧
  active_votes st' (currentRound st) = active_votes st (currentRound st) ∧
  my_vote st' (currentRound st) (JS.template (uuid user))
    = Some (JS.template (data_contestantId data)).
Proof.
  intros Hu Hprev Ha Hab Hdone.
  assert (JS.strict_eq (my_vote st (currentRound st) (JS.template (uuid user)))
            (data_contestantId data) = false) as Heq
    by (rewrite Hprev; by apply strict_eq_ne).
  set (round := currentRound st) in *.
  set (b := JS.template (data_contestantId data)) in *.
  assert (∀ r id, vote_gain round b r id =
                  if bool_decide ((r, id) = (round, b)) then 1%Z else 0%Z) as Hgain.
  { intros r id. unfold vote_gain. apply (f_equal (λ x : bool, if x then _ else _)).
    apply bool_decide_ext. split; [by intros [-> ->] | by intros [= -> ->]]. }
  assert (∀ r id, vote_loss (Some a) round r id =
                  if bool_decide ((r, id) = (round, a)) then 1%Z else 0%Z) as Hloss.
  { intros r id. unfold vote_loss. apply (f_equal (λ x : bool, if x then _ else _)).
    apply bool_decide_ext. split.
    - by intros (-> & [= ->] & _).
    - by intros [= -> ->]. }
  repeat split.
  - destruct (handleVote_tally_touched ws data user st st' Hu Heq Hdone round a)
      as (n & Hn & Hn').
    { right. fold round. rewrite Hprev, Hloss. by rewrite bool_decide_true. }
    fold round b in Hn'. rewrite Hprev, Hgain, Hloss in Hn'.
    rewrite bool_decide_false in Hn' by (intros [=]; done).
    rewrite bool_decide_true in Hn' by done.
    exists n. split; [done|]. rewrite Hn'. f_equal. lia.
  - destruct (handleVote_tally_touched ws data user st st' Hu Heq Hdone round b)
      as (n & Hn & Hn').
    { left. fold round b. rewrite Hgain. by rewrite bool_decide_true. }
    fold round b in Hn'. rewrite Hprev, Hgain, Hloss in Hn'.
    rewrite bool_decide_true in Hn' by done.
    rewrite bool_decide_false in Hn' by (intros [=]; done).
    exists n. split; [done|]. rewrite Hn'. f_equal. lia.
  - intros r id Hna Hnb.
    apply (handleVote_tally_other ws data user st st' Hu Heq Hdone); fold round b.
    + rewrite Hgain. by rewrite bool_decide_false.
    + rewrite Hprev, Hloss. by rewrite bool_decide_false.
  - pose proof (handleVote_active_votes ws data user st st' Hu Hdone round Heq) as H.
    fold round in H. rewrite Hprev in H.
    rewrite !bool_decide_true in H by eauto. lia.
  - by apply (handleVote_my_vote ws data user st st').
Qed.

Lemma vote_switch_delta_witness :
  (∃ n, tally Switch.before 0 "A" = Some n ∧ tally Switch.after 0 "A" = Some (n - 1)%Z) ∧
  (∃ n, tally Switch.before 0 "B" = Some n ∧ tally Switch.after 0 "B" = Some (n + 1)%Z) ∧
  active_votes Switch.after 0 = active_votes Switch.before 0.
Proof.
  destruct (vote_switch_delta 1 Switch.ballot Switch.voter Switch.before Switch.after "A")
    as (HA & HB & _ & Hact & _).
  - vm_compute; reflexivity.
  - vm_compute; reflexivity.
  - done.
  - done.
  - vm_compute; reflexivity.
  - split; [exact HA|]. split; [exact HB | exact Hact].
Defined.

(** C5 as stated fails: X holds a live record for the empty id, which the
    test of line 44 takes for no vote, and switches to B.  The tally of the
    old id is not decremented -- it reads 1 before and after -- while the
    tally of B is one more and X's record names B. *)
Lemma vote_switch_delta_counterexample :
  my_vote Blank.before 0 "X" = Some EmptyString ∧
  handleVote 1 Switch.ballot Switch.voter Blank.before = Done tt Blank.after ∧
  tally Blank.before 0 EmptyString = Some 1%Z ∧
  tally Blank.after 0 EmptyString = Some 1%Z ∧
  tally Blank.before 0 "B" = Some 0%Z ∧
  tally Blank.after 0 "B" = Some 1%Z ∧
  my_vote Blank.after 0 "X" = Some "B".
Proof. repeat apply conj; vm_compute; reflexivity. Qed.

(** ** C6: reset_votes *)



(** ** C7: next_round *)

(** C7.  [next_round] always completes, adds exactly 1 to the round number
    and leaves the store as it was: every tally of every round, and every
    vote record, reads as before. *)
Theorem next_round_increments ws data user st :
  ∃ st', on_next_round ws data user st = Done tt st' ∧
         currentRound st' = (currentRound st + 1)%N ∧
         redis st' = redis st ∧
         (∀ round id, tally st' round id = tally st round id) ∧
         (∀ round uuid, my_vote st' round uuid = my_vote st round uuid).
Proof.
  destruct (on_next_round_eq ws data user st) as (fs & out & ->).
  eexists. split; [done|]. by repeat split.
Qed.

(** ** C8: authorization *)

(** C8.  An identified connection whose [isAdmin] is false that sends
    [next_round] or [reset_votes] gets the reply [error{message:
    "Unauthorized"}]; the only change of the state is that frame, so the
    round, the tallies and the ledger stay as they were. *)
Theorem unauthorized_rejected jwtVerify ws event data user st :
  users st !! ws = Some user →
  socket_isAdmin ws st = false →
  event = "next_round" ∨ event = "reset_votes" →
  on_message jwtVerify ws (envelope event data) st =
    Done tt (set_sent (sent st ++ [(ws, Out.error "Unauthorized")]) st)
  ∧ replies ws st (set_sent (sent st ++ [(ws, Out.error "Unauthorized")]) st)
    = [Out.error "Unauthorized"].
Proof.
  intros Hu Hadm Hev. split.
  - unfold on_message.
    assert (String.eqb event "identify" = false) as ->
      by (by destruct Hev as [-> | ->]).
    assert ((String.eqb event "next_round" || String.eqb event "reset_votes") = true)
      as Hor by (by destruct Hev as [-> | ->]).
    unfold gets, mbind, M_bind. rewrite Hu, Hadm, Hor. done.
  - unfold replies. state_simpl. rewrite drop_app_length.
    rewrite filter_cons_True by done. done.
Qed.

Lemma unauthorized_rejected_witness :
  let st := Demo.opened in
  on_message Demo.jwtVerify 1 (Demo.request "next_round") st =
    Done tt (set_sent (sent st ++ [(1, Out.error "Unauthorized")]) st)
  ∧ replies 1 st (set_sent (sent st ++ [(1, Out.error "Unauthorized")]) st)
    = [Out.error "Unauthorized"].
Proof.
  intros st.
  apply (unauthorized_rejected Demo.jwtVerify 1 "next_round" _ (User (JS.Str "X")) st).
  - vm_compute; reflexivity.
  - vm_compute; reflexivity.
  - by left.
Defined.

(** ** C9: store failures *)

(** C9 (as amended).  A request comes from an identified socket and passes
    the admin check, and one of the store calls that its handler awaits
    fails.  Then the handler rejects and has written no frame: the caller
    gets no [error] reply, nor any other, for that request. *)
Theorem store_failure_unreported jwtVerify ws event data user st :
  users st !! ws = Some user →
  socket_isAdmin ws st = true ∨ event ≠ "reset_votes" →
  doomed (awaited event data user st) st →
  ∃ st', on_message jwtVerify ws (envelope event data) st = Thrown st' ∧
         sent st' = sent st ∧ replies ws st st' = [].
Proof.
  intros Hus Hadm Hst.
  assert (∃ st', on_message jwtVerify ws (envelope event data) st = Thrown st')
    as [st' Hst'].
  { unfold awaited in Hst.
    destruct (String.eqb_spec event "vote") as [->|_].
    { rewrite (on_message_vote _ _ _ user) by done. by apply dooms_handleVote. }
    destruct (String.eqb_spec event "get_vote_counts") as [->|_].
    { rewrite (on_message_dispatch jwtVerify ws _ data user on_get_vote_counts st);
        [by apply dooms_on_get_vote_counts | done | done | right; split; discriminate | done]. }
    destruct (String.eqb_spec event "get_my_vote") as [->|_].
    { rewrite (on_message_dispatch jwtVerify ws _ data user on_get_my_vote st);
        [by apply dooms_on_get_my_vote | done | done | right; split; discriminate | done]. }
    destruct (String.eqb_spec event "reset_votes") as [->|_].
    { destruct Hadm as [Hadm | ?]; [|done].
      rewrite (on_message_dispatch jwtVerify ws _ data user on_reset_votes st);
        [by apply dooms_on_reset_votes | done | done | by left | done]. }
    by apply doomed_zero in Hst. }
  exists st'. split; [done|].
  pose proof (mute_on_message _ _ _ _ _ Hst') as H. split; [done|].
  unfold replies. by rewrite H, drop_all.
Qed.

Lemma store_failure_unreported_witness :
  ∃ st', on_message Demo.jwtVerify 1 (Demo.vote_for (JS.Str "B")) Halfway.before
           = Thrown st' ∧
         sent st' = sent Halfway.before ∧ replies 1 Halfway.before st' = [].
Proof.
  apply (store_failure_unreported Demo.jwtVerify 1 "vote" Switch.ballot
           (User (JS.Str "X")) Halfway.before).
  - vm_compute; reflexivity.
  - right. discriminate.
  - exists 2. split; [vm_compute; lia | vm_compute; reflexivity].
Defined.

(** C9 as stated fails: the store is down when X votes; the handler rejects
    and X is sent nothing. *)
Lemma store_failure_counterexample :
  Outage.vote_lost = Thrown (set_faults [] Outage.store_down) ∧
  replies 1 Outage.store_down (set_faults [] Outage.store_down) = [].
Proof. split; vm_compute; reflexivity. Qed.

(** A failure in the broadcast that follows a vote is dropped as well: X has
    its [vote_success], nobody gets a [vote_update] or an [error]. *)
Example broadcast_failure_dropped :
  ∃ st', Outage.broadcast_lost = Done tt st' ∧
         snd <$> drop (length (sent Outage.broadcast_down)) (sent st')
           = [(Out.vote_success (JS.Str "A"))].
Proof. eexists. split; vm_compute; reflexivity. Qed.

(** ** C10: admin is sticky *)

Section sticky.
Context (jwtVerify : N → string → option bool).

Lemma on_message_admin ws' msg st ws :
  socket_isAdmin ws st = true →
  socket_isAdmin ws (final (on_message jwtVerify ws' msg st)) = true.
Proof.
  intros Hadm. destruct msg as [|event data]; cbn [on_message]; [done|].
  destruct (String.eqb event "identify").
  { destruct (identify_eq jwtVerify ws' data st) as (adm & -> & [-> | ->]); [done|].
    unfold socket_isAdmin in *. state_simpl.
    destruct (decide (ws' = ws)) as [->|Hne].
    - by rewrite lookup_insert_eq.
    - by rewrite lookup_insert_ne. }
  rewrite (bind_gets users). destruct (users st !! ws') as [user|]; [|done].
  rewrite (bind_gets (socket_isAdmin ws')). destruct (_ && _); [done|].
  destruct (eventHandlers !! event) as [h|] eqn:Eh; [|done].
  unfold socket_isAdmin in *.
  by rewrite (keeps_isAdmin_handlers event h Eh ws' data user st).
Qed.

Lemma step_admin ev st ws :
  ev ≠ connection ws →
  socket_isAdmin ws st = true →
  socket_isAdmin ws (final (step jwtVerify ev st)) = true.
Proof.
  intros Hev Hadm. destruct ev as [ws'|ws' msg|ws'|d]; cbn [step]; try done.
  - unfold socket_isAdmin in *. cbn [on_connection modify final]. state_simpl.
    rewrite lookup_insert_ne; [done|]. by intros ->.
  - by apply on_message_admin.
Qed.

Lemma run_admin evs st ws :
  connection ws ∉ evs →
  socket_isAdmin ws st = true →
  socket_isAdmin ws (run jwtVerify evs st) = true.
Proof.
  unfold run. revert st. induction evs as [|ev evs IH]; intros st Hevs Hadm; [done|].
  cbn [foldl]. apply not_elem_of_cons in Hevs as [Hev Hevs].
  apply IH; [done|]. by apply step_admin.
Qed.

End sticky.

(** C10.  Once an [identify] with a token that verifies as admin has made a
    socket admin, the socket stays admin through every later event other
    than a new connection on it; a further [identify] on it, whatever its
    token, completes, binds the new user id, and is answered with
    [welcome{isAdmin: true}]. *)
Theorem admin_sticky jwtVerify ws data token evs data' st :
  data_token data = Some token →
  token ≠ EmptyString →
  jwtVerify (clock st) token = Some true →
  connection ws ∉ evs →
  let st1 := final (on_message jwtVerify ws (envelope "identify" data) st) in
  let st2 := run jwtVerify evs st1 in
  socket_isAdmin ws st1 = true ∧
  socket_isAdmin ws st2 = true ∧
  ∃ st3, on_message jwtVerify ws (envelope "identify" data') st2 = Done tt st3 ∧
         socket_isAdmin ws st3 = true ∧
         users st3 !! ws = Some (User (data_uuid data')) ∧
         replies ws st2 st3 =
           [Out.welcome (data_uuid data') (contestants st2) (currentRound st2) true].
Proof.
  intros Htok Hne Hjwt Hevs st1 st2.
  assert (socket_isAdmin ws st1 = true) as H1.
  { subst st1. cbn [on_message String.eqb Ascii.eqb Bool.eqb].
    apply String.eqb_neq in Hne.
    unfold identify, modify, gets, send, modify, mbind, M_bind.
    rewrite Htok, Hne. cbn [negb]. state_simpl. rewrite Hjwt.
    unfold socket_isAdmin. state_simpl. by rewrite lookup_insert_eq. }
  assert (socket_isAdmin ws st2 = true) as H2 by (by apply run_admin).
  split; [done|]. split; [done|].
  cbn [on_message String.eqb Ascii.eqb Bool.eqb].
  destruct (identify_eq jwtVerify ws data' st2) as (adm & -> & Hadm).
  eexists. split; [done|].
  assert (default false (adm !! ws) = true) as Hadm'.
  { unfold socket_isAdmin in H2. destruct Hadm as [-> | ->]; [done|].
    by rewrite lookup_insert_eq. }
  split; [exact Hadm'|]. split.
  - state_simpl. by rewrite lookup_insert_eq.
  - unfold replies. state_simpl. rewrite drop_app_length.
    rewrite filter_cons_True by done. by rewrite Hadm'.
Qed.

Lemma admin_sticky_witness :
  let st1 := final (on_message Demo.jwtVerify 2
                      (envelope "identify" Promotion.credentials) Promotion.start) in
  let st2 := run Demo.jwtVerify Promotion.later st1 in
  socket_isAdmin 2 st1 = true ∧
  socket_isAdmin 2 st2 = true ∧
  ∃ st3, on_message Demo.jwtVerify 2 (envelope "identify" Promotion.rebind) st2
           = Done tt st3 ∧
         socket_isAdmin 2 st3 = true ∧
         users st3 !! 2 = Some (User (JS.Str "nobody")) ∧
         replies 2 st2 st3 =
           [Out.welcome (JS.Str "nobody") (contestants st2) (currentRound st2) true].
Proof.
  apply (admin_sticky Demo.jwtVerify 2 Promotion.credentials "admin-token"
           Promotion.later Promotion.rebind Promotion.start).
  - reflexivity.
  - discriminate.
  - vm_compute; reflexivity.
  - intros H. repeat (apply elem_of_cons in H as [[=]|H]). by apply elem_of_nil in H.
Defined.


(** * Further properties of the handlers *)

(** ** The tally loop *)

Lemma read_counts_lookup st cs vc id :
  read_counts st cs vc !! id =
  if bool_decide (id ∈ (λ c, JS.template (Contestant.id c)) <$> cs)
  then Some (tally st (currentRound st) id)
  else vc !! id.
Proof.
  revert vc. induction cs as [|c cs IH]; intros vc.
  - cbn [read_counts foldl]. rewrite bool_decide_false; [done|].
    rewrite fmap_nil. apply not_elem_of_nil.
  - change (read_counts st (c :: cs) vc) with
      (read_counts st cs
         (<[JS.template (Contestant.id c) :=
              tally st (currentRound st) (JS.template (Contestant.id c))]> vc)).
    rewrite IH, fmap_cons.
    destruct (decide (id ∈ (λ c, JS.template (Contestant.id c)) <$> cs)) as [Hin|Hin].
    + rewrite !bool_decide_true; [done | apply elem_of_cons; by right | done].
    + rewrite (bool_decide_false _ Hin).
      destruct (decide (id = JS.template (Contestant.id c))) as [->|Hne].
      * rewrite lookup_insert_eq, bool_decide_true; [done|]. apply elem_of_cons. by left.
      * rewrite lookup_insert_ne by done. rewrite bool_decide_false; [done|].
        rewrite elem_of_cons. intuition.
Qed.

Lemma read_counts_catalog st c :
  c ∈ contestants st →
  read_counts st (contestants st) ∅ !! JS.template (Contestant.id c) =
    Some (tally st (currentRound st) (JS.template (Contestant.id c))).
Proof.
  intros Hc. rewrite read_counts_lookup, bool_decide_true; [done|].
  apply list_elem_of_fmap. by exists c.
Qed.

Lemma read_counts_other st id :
  id ∉ catalog_ids st → read_counts st (contestants st) ∅ !! id = None.
Proof. intros Hid. by rewrite read_counts_lookup, bool_decide_false. Qed.

(** Only the store, its clock and the round are read. *)
Lemma read_counts_ext st st' cs vc :
  redis st' = redis st → clock st' = clock st → currentRound st' = currentRound st →
  read_counts st' cs vc = read_counts st cs vc.
Proof. intros Hr Hc Hn. unfold read_counts, tally. by rewrite Hr, Hc, Hn. Qed.

Lemma readVoteCounts_available_eq cs vc st :
  faults st = [] → readVoteCounts cs vc st = Done (read_counts st cs vc) st.
Proof.
  intros Hf. revert vc. induction cs as [|c cs IH]; intros vc; [done|].
  cbn [readVoteCounts]. rewrite bind_gets.
  rewrite (bind_eq _ _ _ _ _ (redis_get_available _ st Hf)). by rewrite IH.
Qed.

Lemma broadcastVoteCounts_available st :
  faults st = [] →
  broadcastVoteCounts st =
    Done tt (set_sent (sent st ++ to_all (clients st)
                         (Out.vote_update (read_counts st (contestants st) ∅))) st).
Proof.
  intros Hf. unfold broadcastVoteCounts. rewrite bind_gets.
  rewrite (bind_eq _ _ _ _ _ (readVoteCounts_available_eq _ _ st Hf)).
  by rewrite broadcast_eq.
Qed.

Lemma spawn_broadcastVoteCounts_available st :
  faults st = [] →
  spawn broadcastVoteCounts st =
    Done tt (set_sent (sent st ++ to_all (clients st)
                         (Out.vote_update (read_counts st (contestants st) ∅))) st).
Proof. intros Hf. unfold spawn. by rewrite broadcastVoteCounts_available. Qed.

Lemma on_get_vote_counts_available ws data user st :
  faults st = [] →
  on_get_vote_counts ws data user st =
    Done tt (set_sent (sent st ++
               [(ws, Out.vote_update (read_counts st (contestants st) ∅))]) st).
Proof.
  intros Hf. unfold on_get_vote_counts. rewrite bind_gets.
  by rewrite (bind_eq _ _ _ _ _ (readVoteCounts_available_eq _ _ st Hf)).
Qed.

Lemma tally_missing st round id :
  redis st !! tallyKey round id = None → tally st round id = Some 0%Z.
Proof. intros H. unfold tally. by rewrite GET_lookup, H. Qed.

(** ** Frames *)

Lemma frames_to_app ws st out :
  frames_to ws (set_sent (sent st ++ out) st) =
  frames_to ws st ++ (snd <$> filter (λ f, f.1 = ws) out).
Proof. unfold frames_to. state_simpl. by rewrite filter_app, fmap_app. Qed.

Lemma filter_to_all_ne ws cl ev :
  ws ∉ cl → filter (λ f : conn * Out.event, f.1 = ws) (to_all cl ev) = [].
Proof.
  intros Hws. induction cl as [|c cl IH]; [done|].
  apply not_elem_of_cons in Hws as [Hne Hws].
  unfold to_all. rewrite fmap_cons, filter_cons_False; [by apply IH|].
  cbn [fst]. congruence.
Qed.

Lemma replies_app ws st out st' :
  sent st' = sent st ++ out →
  replies ws st st' = snd <$> filter (λ f, f.1 = ws) out.
Proof. intros H. unfold replies. by rewrite H, drop_app_length. Qed.

(** ** What a vote leaves alone *)

Section handleVote_keeps.
Context {B : Type} (f : state → B).
Hypothesis f_faults : ∀ fs st, f (set_faults fs st) = f st.
Hypothesis f_redis : ∀ m st, f (set_redis m st) = f st.
Hypothesis f_sent : ∀ out st, f (set_sent out st) = f st.

Lemma keeps_send ws ev : keeps f (send ws ev).
Proof using f_sent. unfold send. apply keeps_modify. intros st. apply f_sent. Qed.

Lemma keeps_broadcast ev : keeps f (broadcast ev).
Proof using f_sent.
  unfold broadcast. apply keeps_bind; [apply keeps_gets|]. intros cl.
  apply keeps_for_each. intros c. apply keeps_send.
Qed.

Lemma keeps_broadcastVoteCounts : keeps f broadcastVoteCounts.
Proof using f_faults f_sent.
  unfold broadcastVoteCounts. apply keeps_bind; [apply keeps_gets|]. intros cs.
  apply keeps_bind; [by apply keeps_readVoteCounts|]. intros vc. apply keeps_broadcast.
Qed.

Lemma keeps_handleVote ws data user : keeps f (handleVote ws data user).
Proof using f_faults f_redis f_sent.
  pose proof keeps_send. pose proof keeps_broadcastVoteCounts.
  unfold handleVote, redis_incr, redis_decr. keeps_walk; done.
Qed.

Lemma keeps_on_reset_votes ws data user : keeps f (on_reset_votes ws data user).
Proof using f_faults f_redis f_sent.
  pose proof keeps_broadcastVoteCounts.
  unfold on_reset_votes. keeps_walk; done.
Qed.

Lemma keeps_on_get_vote_counts ws data user : keeps f (on_get_vote_counts ws data user).
Proof using f_faults f_sent.
  pose proof keeps_send. unfold on_get_vote_counts. keeps_walk; done.
Qed.

Lemma keeps_on_get_my_vote ws data user : keeps f (on_get_my_vote ws data user).
Proof using f_faults f_sent.
  pose proof keeps_send. unfold on_get_my_vote. keeps_walk; done.
Qed.

End handleVote_keeps.

Lemma handleVote_unchanged ws data user st st' :
  handleVote ws data user st = Done tt st' →
  clock st' = clock st ∧ currentRound st' = currentRound st ∧
  contestants st' = contestants st ∧ users st' = users st ∧
  isAdmin st' = isAdmin st ∧ clients st' = clients st.
Proof.
  intros Hdone.
  pose proof (keeps_handleVote clock) as H1.
  pose proof (keeps_handleVote currentRound) as H2.
  pose proof (keeps_handleVote contestants) as H3.
  pose proof (keeps_handleVote users) as H4.
  pose proof (keeps_handleVote isAdmin) as H5.
  pose proof (keeps_handleVote clients) as H6.
  unfold keeps in *.
  specialize (H1 ltac:(done) ltac:(done) ltac:(done) ws data user st).
  specialize (H2 ltac:(done) ltac:(done) ltac:(done) ws data user st).
  specialize (H3 ltac:(done) ltac:(done) ltac:(done) ws data user st).
  specialize (H4 ltac:(done) ltac:(done) ltac:(done) ws data user st).
  specialize (H5 ltac:(done) ltac:(done) ltac:(done) ws data user st).
  specialize (H6 ltac:(done) ltac:(done) ltac:(done) ws data user st).
  rewrite Hdone in *. done.
Qed.

Lemma handleVote_other_records ws data user st st' round' uuid' :
  handleVote ws data user st = Done tt st' →
  (round', uuid') ≠ (currentRound st, JS.template (uuid user)) →
  my_vote st' round' uuid' = my_vote st round' uuid'.
Proof.
  intros Hdone Hne.
  destruct (JS.truthy (uuid user)) eqn:Hu; last first.
  { rewrite handleVote_falsy in Hdone by done. by injection Hdone as <-. }
  destruct (JS.strict_eq (my_vote st (currentRound st) (JS.template (uuid user)))
              (data_contestantId data)) eqn:Heq.
  { by destruct (handleVote_same ws data user st st' Hu Heq Hdone) as [fs ->]. }
  destruct (handleVote_other ws data user st st' Hu Heq Hdone)
    as (m1 & m3 & z & fs & out & Hm1 & Hm3 & -> & _).
  unfold my_vote in *. state_simpl.
  rewrite (GET_INCRBY_voteKey _ _ _ _ _ _ _ round' uuid' Hm3).
  unfold Redis.SETEX. rewrite GET_insert_ne by (intros [??]%voteKey_inj; congruence).
  destruct (Redis.GET (redis st) (clock st) _) as [a|]; [destruct (JS.reply_truthy _)|].
  - destruct Hm1 as [z0 Hm1]. by eapply GET_INCRBY_voteKey.
  - by subst m1.
  - by subst m1.
Qed.

(** ** A vote with the store available *)

Lemma handleVote_other_available_eq ws data user st m1 m3 z :
  faults st = [] →
  JS.truthy (uuid user) = true →
  JS.strict_eq (my_vote st (currentRound st) (JS.template (uuid user)))
               (data_contestantId data) = false →
  match my_vote st (currentRound st) (JS.template (uuid user)) with
  | Some a =>
      if JS.reply_truthy (Some a)
      then ∃ z0, Redis.INCRBY (redis st) (clock st)
                   (tallyKey (currentRound st) a) (-1) = Some (m1, z0)
      else m1 = redis st
  | None => m1 = redis st
  end →
  Redis.INCRBY
    (Redis.SETEX m1 (clock st) (voteKey (currentRound st) (JS.template (uuid user)))
       (JS.template (data_contestantId data)) (60 * 60))
    (clock st) (tallyKey (currentRound st) (JS.template (data_contestantId data))) 1
    = Some (m3, z) →
  handleVote ws data user st =
    Done tt (set_sent (sent st ++ (ws, Out.vote_success (data_contestantId data)) ::
                         to_all (clients st)
                           (Out.vote_update
                              (read_counts (set_redis m3 st) (contestants st) ∅)))
               (set_redis m3 st)).
Proof.
  intros Hf Hu Heq Hm1 Hm3. unfold handleVote. rewrite Hu. cbn [negb].
  rewrite bind_gets.
  rewrite (bind_eq _ _ _ _ _ (redis_get_available _ st Hf)).
  unfold my_vote in *. rewrite Heq.
  set (prev := Redis.GET (redis st) (clock st) _) in *.
  assert ((match prev with
           | Some prev0 =>
               if JS.reply_truthy prev
               then round ← gets currentRound;
                    redis_decr (tallyKey round prev0);; mret ()
               else mret ()
           | None => mret ()
           end) st = Done tt (set_redis m1 st)) as Hdecr.
  { destruct prev as [a|]; [destruct (JS.reply_truthy (Some a))|].
    - destruct Hm1 as [z0 Hm1]. rewrite bind_gets. unfold redis_decr.
      by rewrite (bind_eq _ _ _ _ _ (redis_incrby_available _ _ st m1 z0 Hf Hm1)).
    - subst m1. by destruct st.
    - subst m1. by destruct st. }
  rewrite (bind_eq _ _ _ _ _ Hdecr).
  rewrite (bind_eq _ _ _ _ _ (redis_set_ex_available _ _ _ (set_redis m1 st) Hf)).
  rewrite bind_gets. state_simpl. unfold redis_incr.
  rewrite (bind_eq _ _ _ _ _
    (redis_incrby_available _ _ (set_redis _ (set_redis m1 st)) m3 z Hf Hm3)).
  unfold send at 1. rewrite bind_modify.
  rewrite spawn_broadcastVoteCounts_available by done.
  state_simpl. rewrite <- app_assoc. cbn [app].
  f_equal.
Qed.

(** ** The admin requests with the store available *)

Lemma on_next_round_available ws data user st :
  faults st = [] →
  on_next_round ws data user st =
    Done tt (set_sent
               (sent st ++ to_all (clients st) (Out.round_update (currentRound st + 1)) ++
                  to_all (clients st)
                    (Out.vote_update
                       (read_counts (set_currentRound (currentRound st + 1) st)
                          (contestants st) ∅)))
               (set_currentRound (currentRound st + 1) st)).
Proof.
  intros Hf. unfold on_next_round. rewrite bind_modify, bind_gets.
  rewrite (bind_eq _ _ _ _ _ (broadcast_eq _ _)).
  rewrite spawn_broadcastVoteCounts_available by done.
  state_simpl. by rewrite <- app_assoc.
Qed.

Lemma reset_db_other cs rounds (m : Redis.db) k :
  (∀ round c, round ∈ rounds → c ∈ cs → k ≠ tallyKey round (JS.template (Contestant.id c))) →
  reset_db cs rounds m !! k = m !! k.
Proof.
  unfold reset_db. revert m. induction rounds as [|r rounds IH]; intros m Hk; [done|].
  cbn [foldl]. rewrite IH.
  - rewrite (foldl_delete_lookup (λ c, tallyKey r (JS.template (Contestant.id c)))).
    rewrite bool_decide_false; [done|].
    intros (c & Hc & Hin)%list_elem_of_fmap.
    apply (Hk r c); [apply elem_of_cons; by left | done | done].
  - intros round c Hr Hc. apply Hk; [apply elem_of_cons; by right | done].
Qed.

Lemma rounds_upto_bound round last : round ∈ rounds_upto last → (round ≤ last)%N.
Proof.
  unfold rounds_upto. intros (n & -> & Hn)%list_elem_of_fmap.
  apply elem_of_seq in Hn. lia.
Qed.

Lemma on_reset_votes_available_eq ws data user st :
  faults st = [] →
  on_reset_votes ws data user st =
    Done tt (set_sent
               (sent st ++ to_all (clients st)
                  (Out.vote_update
                     (read_counts
                        (set_redis (reset_db (contestants st) (rounds_upto (currentRound st))
                                      (redis st)) st)
                        (contestants st) ∅)))
               (set_redis (reset_db (contestants st) (rounds_upto (currentRound st))
                             (redis st)) st)).
Proof.
  intros Hf. unfold on_reset_votes. rewrite !bind_gets.
  rewrite (bind_eq _ _ _ _ _ (reset_loops_available _ _ st Hf)).
  by rewrite spawn_broadcastVoteCounts_available.
Qed.

(** ** A store failure in the middle of a vote *)

Lemma store_call_false fs st :
  faults st = false :: fs → store_call st = Done tt (set_faults fs st).
Proof. unfold store_call. by intros ->. Qed.

Lemma store_call_true fs st :
  faults st = true :: fs → store_call st = Thrown (set_faults fs st).
Proof. unfold store_call. by intros ->. Qed.

Lemma redis_get_answered k fs st :
  faults st = false :: fs →
  redis_get k st = Done (Redis.GET (redis st) (clock st) k) (set_faults fs st).
Proof.
  intros Hf. unfold redis_get. by rewrite (bind_eq _ _ _ _ _ (store_call_false _ _ Hf)).
Qed.

Lemma redis_incrby_answered k d fs st m z :
  faults st = false :: fs →
  Redis.INCRBY (redis st) (clock st) k d = Some (m, z) →
  redis_incrby k d st = Done z (set_redis m (set_faults fs st)).
Proof.
  intros Hf Hm. unfold redis_incrby.
  rewrite (bind_eq _ _ _ _ _ (store_call_false _ _ Hf)).
  unfold incrby_reply. state_simpl. by rewrite Hm.
Qed.

Lemma redis_set_ex_failed k v ttl fs st :
  faults st = true :: fs → redis_set_ex k v ttl st = Thrown (set_faults fs st).
Proof.
  intros Hf. unfold redis_set_ex. apply bind_rejects. by apply store_call_true.
Qed.

(** ** An [identify] that makes no admin *)

Lemma identify_plain jwtVerify ws data st :
  no_admin_token jwtVerify (clock st) (data_token data) →
  identify jwtVerify ws data st =
    Done tt (set_sent (sent st ++ [(ws, Out.welcome (data_uuid data) (contestants st)
                                          (currentRound st) (socket_isAdmin ws st))])
               (set_users (<[ws := User (data_uuid data)]> (users st)) st)).
Proof.
  intros Htok. unfold identify, no_admin_token in *. rewrite bind_modify.
  destruct (data_token data) as [token|]; [|done].
  destruct (String.eqb token EmptyString) eqn:E; [done|].
  apply String.eqb_neq in E. destruct Htok as [? | Hjwt]; [done|].
  cbn [negb]. unfold gets, modify, mbind, M_bind. state_simpl.
  by destruct (jwtVerify (clock st) token) as [[]|].
Qed.

Lemma broadcastVoteCounts_down st fs :
  contestants st ≠ [] → faults st = true :: fs →
  broadcastVoteCounts st = Thrown (set_faults fs st).
Proof.
  intros Hcs Hf. unfold broadcastVoteCounts. rewrite bind_gets.
  destruct (contestants st) as [|c cs]; [done|].
  apply bind_rejects. cbn [readVoteCounts]. rewrite bind_gets.
  apply bind_rejects. unfold redis_get. apply bind_rejects.
  by apply store_call_true.
Qed.

(** ** Invariants of computations *)

Lemma preserves_bind {A B} P (m : M A) (f : A → M B) :
  preserves P m → (∀ a, preserves P (f a)) → preserves P (m ≫= f).
Proof.
  intros Hm Hf st H. specialize (Hm st H). unfold mbind, M_bind.
  destruct (m st) as [a st1|st1]; cbn [final] in *; [by apply Hf | done].
Qed.

Lemma preserves_ret {A} P (a : A) : preserves P (mret a).
Proof. by intros st. Qed.

Lemma preserves_gets {A} P (g : state → A) : preserves P (gets g).
Proof. by intros st. Qed.

Lemma preserves_modify P g : (∀ st, P st → P (g st)) → preserves P (modify g).
Proof. intros Hg st. apply Hg. Qed.

Lemma preserves_spawn P m : preserves P m → preserves P (spawn m).
Proof. intros Hm st H. specialize (Hm st H). unfold spawn. by destruct (m st). Qed.

Lemma preserves_for_each {A} P (l : list A) (body : A → M unit) :
  (∀ x, preserves P (body x)) → preserves P (for_each l body).
Proof.
  intros Hb. induction l as [|x l IH]; cbn [for_each]; [apply preserves_ret|].
  apply preserves_bind; [apply Hb | by intros].
Qed.

Section preserved.
Context (P : state → Prop).
Hypothesis P_faults : ∀ fs st, P st → P (set_faults fs st).

Lemma preserves_store_call : preserves P store_call.
Proof using P_faults.
  intros st H. destruct (store_call_final st) as [fs ->]. by apply P_faults.
Qed.

Lemma preserves_redis_get k : preserves P (redis_get k).
Proof using P_faults.
  apply preserves_bind; [apply preserves_store_call | intros; apply preserves_gets].
Qed.

Lemma preserves_redis_set_ex k v ttl :
  (∀ st, P st → P (set_redis (Redis.SETEX (redis st) (clock st) k v ttl) st)) →
  preserves P (redis_set_ex k v ttl).
Proof using P_faults.
  intros H. apply preserves_bind; [apply preserves_store_call|].
  intros []. by apply preserves_modify.
Qed.

Lemma preserves_redis_del k :
  (∀ st, P st → P (set_redis (Redis.DEL (redis st) k) st)) →
  preserves P (redis_del k).
Proof using P_faults.
  intros H. apply preserves_bind; [apply preserves_store_call|].
  intros []. by apply preserves_modify.
Qed.

Lemma preserves_redis_incrby k d :
  (∀ st m z, Redis.INCRBY (redis st) (clock st) k d = Some (m, z) →
             P st → P (set_redis m st)) →
  preserves P (redis_incrby k d).
Proof using P_faults.
  intros H. apply preserves_bind; [apply preserves_store_call|].
  intros [] st Hst. unfold incrby_reply.
  destruct (Redis.INCRBY _ _ _ _) as [[m z]|] eqn:E; cbn [final]; [by eapply H | done].
Qed.

Lemma preserves_readVoteCounts cs vc : preserves P (readVoteCounts cs vc).
Proof using P_faults.
  revert vc. induction cs as [|c cs IH]; intros vc; cbn [readVoteCounts];
    [apply preserves_ret|].
  apply preserves_bind; [apply preserves_gets|]. intros round; cbv beta.
  apply preserves_bind; [apply preserves_redis_get|]. intros count. apply IH.
Qed.

Lemma preserves_send ws ev :
  (∀ st, P st → P (set_sent (sent st ++ [(ws, ev)]) st)) → preserves P (send ws ev).
Proof using Type. intros H. by apply preserves_modify. Qed.

Lemma preserves_broadcast ev :
  (∀ st, P st → P (set_sent (sent st ++ to_all (clients st) ev) st)) →
  preserves P (broadcast ev).
Proof using Type. intros H st Hst. rewrite broadcast_eq. by apply H. Qed.

Lemma preserves_broadcastVoteCounts :
  (∀ ev, preserves P (broadcast ev)) → preserves P broadcastVoteCounts.
Proof using P_faults.
  intros H. unfold broadcastVoteCounts.
  apply preserves_bind; [apply preserves_gets|]. intros cs.
  apply preserves_bind; [apply preserves_readVoteCounts | intros vc; apply H].
Qed.

End preserved.

Create HintDb preserves discriminated.

#[local] Hint Extern 1 (_ ≤ _)%N => lia : preserves.

(** Follows the structure of a computation down to the calls of the store
    and the writes to the sockets. *)
Ltac preserves_walk :=
  repeat first
    [ progress cbv beta zeta
    | apply preserves_ret
    | apply preserves_gets
    | solve [auto with preserves]
    | apply preserves_bind; [|intros ?]
    | apply preserves_spawn
    | apply preserves_for_each; intros ?
    | match goal with
      | |- preserves _ (if ?b then _ else _) => destruct b
      | |- preserves _ (match ?x with Some _ => _ | None => _ end) => destruct x
      end ].

(** *** From the handlers to the server *)

Section router_preserves.
Context (jwtVerify : N → string → option bool) (P : state → Prop) (ws : conn).
Hypothesis P_identify : ∀ data, preserves P (identify jwtVerify ws data).
Hypothesis P_send : ∀ ev, preserves P (send ws ev).
Hypothesis P_handlers : ∀ event (h : handler),
  eventHandlers !! event = Some h → ∀ data user, preserves P (h ws data user).

Lemma on_message_preserves msg : preserves P (on_message jwtVerify ws msg).
Proof using P_identify P_send P_handlers.
  destruct msg as [|event data]; cbn [on_message]; [apply preserves_ret|].
  destruct (String.eqb event "identify"); [apply P_identify|].
  apply preserves_bind; [apply preserves_gets | intros us; cbv beta].
  destruct (us !! ws) as [user|]; [|apply preserves_ret].
  apply preserves_bind; [apply preserves_gets | intros adm; cbv beta].
  destruct (_ && _); [apply P_send|].
  destruct (eventHandlers !! event) as [h|] eqn:Hh; [|apply preserves_ret].
  by apply (P_handlers event).
Qed.

End router_preserves.

Lemma run_preserves jwtVerify (P : state → Prop) (ok : server_event → Prop) evs st :
  (∀ ev, ok ev → preserves P (step jwtVerify ev)) →
  Forall ok evs → P st → P (run jwtVerify evs st).
Proof.
  intros Hstep Hevs. revert st. induction Hevs as [|ev evs Hev _ IH]; intros st H; [done|].
  cbn [run foldl]. apply IH. by apply Hstep.
Qed.

Lemma identify_preserves jwtVerify (P : state → Prop) ws data :
  (∀ u st, P st → P (set_users (<[ws := u]> (users st)) st)) →
  (∀ st, P st → P (set_isAdmin (<[ws := true]> (isAdmin st)) st)) →
  (∀ ev, preserves P (send ws ev)) →
  preserves P (identify jwtVerify ws data).
Proof.
  intros Hus Hadm Hsend. unfold identify.
  apply preserves_bind; [apply preserves_modify; intros st; apply Hus | intros _].
  apply preserves_bind; [|intros _].
  - destruct (data_token data) as [token|]; [|apply preserves_ret].
    destruct (negb _); [|apply preserves_ret].
    apply preserves_bind; [apply preserves_gets | intros now; cbv beta].
    destruct (jwtVerify now token) as [[]|]; [|apply preserves_ret..].
    by apply preserves_modify.
  - apply preserves_bind; [apply preserves_gets | intros cs; cbv beta].
    apply preserves_bind; [apply preserves_gets | intros round; cbv beta].
    apply preserves_bind; [apply preserves_gets | intros adm; cbv beta].
    apply Hsend.
Qed.

(** *** Counters hold integers *)

Lemma counters_sound_store st st' :
  redis st' = redis st → counters_sound st → counters_sound st'.
Proof. unfold counters_sound. by intros ->. Qed.

Lemma counters_sound_insert st k e :
  (∀ round id, k = tallyKey round id →
     Redis.expires e = None ∧ ∃ z, Redis.value e = JS.render_Z z) →
  counters_sound st → counters_sound (set_redis (<[k := e]> (redis st)) st).
Proof.
  intros Hk H round id e'. state_simpl.
  destruct (decide (k = tallyKey round id)) as [->|Hne].
  - rewrite lookup_insert_eq. intros [= <-]. by eapply Hk.
  - rewrite lookup_insert_ne by done. apply H.
Qed.

Lemma sound_store_call : preserves counters_sound store_call.
Proof. apply preserves_store_call. intros fs st. by apply counters_sound_store. Qed.

Lemma sound_redis_get k : preserves counters_sound (redis_get k).
Proof. apply preserves_redis_get. intros fs st. by apply counters_sound_store. Qed.

Lemma sound_redis_set_ex round u v ttl :
  preserves counters_sound (redis_set_ex (voteKey round u) v ttl).
Proof.
  apply preserves_redis_set_ex; [intros fs st; by apply counters_sound_store|].
  intros st. apply counters_sound_insert.
  intros round' id H. by apply voteKey_tallyKey in H.
Qed.

Lemma sound_redis_incrby k d : preserves counters_sound (redis_incrby k d).
Proof.
  apply preserves_redis_incrby; [intros fs st; by apply counters_sound_store|].
  intros st m z (e & -> & He & _ & Hexp & _)%INCRBY_Some H. revert H.
  intros H. apply counters_sound_insert; [|done].
  intros round id ->. split; [|eauto].
  rewrite Hexp. unfold Redis.find.
  destruct (redis st !! tallyKey round id) as [e0|] eqn:E; [|done].
  destruct (H round id e0 E) as [He0 _].
  destruct (Redis.live (clock st) e0); [exact He0 | done].
Qed.

Lemma sound_redis_del k : preserves counters_sound (redis_del k).
Proof.
  apply preserves_redis_del; [intros fs st; by apply counters_sound_store|].
  intros st H round id e. state_simpl. unfold Redis.DEL.
  intros [_ He]%lookup_delete_Some. by eapply H.
Qed.

Lemma sound_send ws ev : preserves counters_sound (send ws ev).
Proof. apply preserves_send. intros st. by apply counters_sound_store. Qed.

Lemma sound_broadcast ev : preserves counters_sound (broadcast ev).
Proof. apply preserves_broadcast. intros st. by apply counters_sound_store. Qed.

Lemma sound_broadcastVoteCounts : preserves counters_sound broadcastVoteCounts.
Proof.
  apply preserves_broadcastVoteCounts; [|apply sound_broadcast].
  intros fs st. by apply counters_sound_store.
Qed.

Lemma sound_readVoteCounts cs vc : preserves counters_sound (readVoteCounts cs vc).
Proof. apply preserves_readVoteCounts. intros fs st. by apply counters_sound_store. Qed.

#[local] Hint Resolve sound_store_call sound_redis_get sound_redis_set_ex
  sound_redis_incrby sound_redis_del sound_send sound_broadcast
  sound_broadcastVoteCounts sound_readVoteCounts : preserves.
#[local] Hint Extern 1 (preserves counters_sound (modify _)) =>
  apply preserves_modify; intros ?; by apply counters_sound_store : preserves.

Lemma sound_handlers event (h : handler) :
  eventHandlers !! event = Some h →
  ∀ ws data user, preserves counters_sound (h ws data user).
Proof.
  rewrite eventHandlers_lookup. intros H ws data user.
  repeat case_decide; simplify_eq.
  - unfold on_reset_votes. preserves_walk.
  - unfold on_next_round. preserves_walk.
  - unfold on_get_my_vote. preserves_walk.
  - unfold on_get_vote_counts. preserves_walk.
  - unfold handleVote, redis_incr, redis_decr. preserves_walk.
Qed.

Lemma sound_step jwtVerify ev : preserves counters_sound (step jwtVerify ev).
Proof.
  destruct ev as [ws|ws msg|ws|d]; cbn [step]; unfold on_connection, on_close;
    [preserves_walk| |preserves_walk..].
  apply on_message_preserves.
  - intros data. apply identify_preserves.
    + intros us st. by apply counters_sound_store.
    + intros st. by apply counters_sound_store.
    + apply sound_send.
  - apply sound_send.
  - intros event h Hh. by apply (sound_handlers event).
Qed.

Lemma counters_sound_tally st round id :
  counters_sound st → ∃ n, tally st round id = Some n.
Proof.
  intros H. unfold tally. rewrite GET_lookup.
  destruct (redis st !! tallyKey round id) as [e|] eqn:E; [|by exists 0%Z].
  destruct (Redis.live (clock st) e); [|by exists 0%Z].
  destruct (H round id e E) as (_ & z & Hz). exists z. rewrite Hz.
  rewrite or_zero_nonempty by apply render_Z_nonempty. apply parseInt_render.
Qed.

Lemma counters_sound_later st seconds round id :
  counters_sound st → tally (later seconds st) round id = tally st round id.
Proof.
  intros H. unfold tally, later. state_simpl. rewrite !GET_lookup.
  destruct (redis st !! tallyKey round id) as [e|] eqn:E; [|done].
  destruct (H round id e E) as [He _]. unfold Redis.live. by rewrite He.
Qed.

(** *** No key of a later round *)

Lemma rounds_sound_store r st st' :
  redis st' = redis st → currentRound st' = currentRound st →
  rounds_sound r st → rounds_sound r st'.
Proof. unfold rounds_sound, no_round_after. by intros -> ->. Qed.

Lemma rounds_sound_insert r st k e :
  (∀ round x, (currentRound st < round)%N → k ≠ voteKey round x ∧ k ≠ tallyKey round x) →
  rounds_sound r st → rounds_sound r (set_redis (<[k := e]> (redis st)) st).
Proof.
  intros Hk [Hr H]. split; [done|]. intros round x Hround. state_simpl.
  destruct (Hk round x Hround) as [H1 H2]. rewrite !lookup_insert_ne by done.
  by apply H.
Qed.

Lemma rounds_sound_gets {B} r (f : N → M B) :
  (∀ round, (r ≤ round)%N → preserves (rounds_sound round) (f round)) →
  preserves (rounds_sound r) (gets currentRound ≫= f).
Proof.
  intros H st [Hr Hno]. rewrite bind_gets.
  destruct (H (currentRound st) Hr st) as [Hle Hno']; [split; [lia | done]|].
  split; [lia | done].
Qed.

Lemma rounds_store_call r : preserves (rounds_sound r) store_call.
Proof. apply preserves_store_call. intros fs st. by apply rounds_sound_store. Qed.

Lemma rounds_redis_get r k : preserves (rounds_sound r) (redis_get k).
Proof. apply preserves_redis_get. intros fs st. by apply rounds_sound_store. Qed.

Lemma rounds_redis_set_ex r round u v ttl :
  (round ≤ r)%N → preserves (rounds_sound r) (redis_set_ex (voteKey round u) v ttl).
Proof.
  intros Hround.
  apply preserves_redis_set_ex; [intros fs st; by apply rounds_sound_store|].
  intros st H. pose proof H as [Hr _]. revert H. apply rounds_sound_insert.
  intros round' x Hlt. split.
  - intros [? _]%voteKey_inj. lia.
  - apply voteKey_tallyKey.
Qed.

Lemma rounds_redis_incrby r round c d :
  (round ≤ r)%N → preserves (rounds_sound r) (redis_incrby (tallyKey round c) d).
Proof.
  intros Hround.
  apply preserves_redis_incrby; [intros fs st; by apply rounds_sound_store|].
  intros st m z (e & -> & _)%INCRBY_Some H. pose proof H as [Hr _]. revert H.
  apply rounds_sound_insert. intros round' x Hlt. split.
  - intros Heq. symmetry in Heq. by apply voteKey_tallyKey in Heq.
  - intros [? _]%tallyKey_inj. lia.
Qed.

Lemma rounds_redis_del r k : preserves (rounds_sound r) (redis_del k).
Proof.
  apply preserves_redis_del; [intros fs st; by apply rounds_sound_store|].
  intros st [Hr H]. split; [done|]. intros round x Hlt. state_simpl. unfold Redis.DEL.
  destruct (H round x Hlt) as [H1 H2].
  split; apply lookup_delete_None; by right.
Qed.

Lemma rounds_send r ws ev : preserves (rounds_sound r) (send ws ev).
Proof. apply preserves_send. intros st. by apply rounds_sound_store. Qed.

Lemma rounds_broadcast r ev : preserves (rounds_sound r) (broadcast ev).
Proof. apply preserves_broadcast. intros st. by apply rounds_sound_store. Qed.

Lemma rounds_broadcastVoteCounts r : preserves (rounds_sound r) broadcastVoteCounts.
Proof.
  apply preserves_broadcastVoteCounts; [|apply rounds_broadcast].
  intros fs st. by apply rounds_sound_store.
Qed.

Lemma rounds_readVoteCounts r cs vc : preserves (rounds_sound r) (readVoteCounts cs vc).
Proof. apply preserves_readVoteCounts. intros fs st. by apply rounds_sound_store. Qed.

Lemma rounds_next r :
  preserves (rounds_sound r) (modify (λ st, set_currentRound (currentRound st + 1) st)).
Proof.
  apply preserves_modify. intros st [Hr H]. split; [state_simpl; lia|].
  intros round x Hlt. state_simpl in Hlt. state_simpl. apply H. lia.
Qed.

#[local] Hint Resolve rounds_store_call rounds_redis_get rounds_redis_set_ex
  rounds_redis_incrby rounds_redis_del rounds_send rounds_broadcast
  rounds_broadcastVoteCounts rounds_readVoteCounts rounds_next : preserves.

Ltac rounds_walk :=
  repeat first
    [ progress cbv beta zeta
    | apply preserves_ret
    | apply preserves_gets
    | solve [auto with preserves]
    | apply rounds_sound_gets; intros ? ?
    | apply preserves_bind; [|intros ?]
    | apply preserves_spawn
    | apply preserves_for_each; intros ?
    | match goal with
      | |- preserves _ (if ?b then _ else _) => destruct b
      | |- preserves _ (match ?x with Some _ => _ | None => _ end) => destruct x
      end ].

Lemma rounds_handlers r event (h : handler) :
  eventHandlers !! event = Some h →
  ∀ ws data user, preserves (rounds_sound r) (h ws data user).
Proof.
  rewrite eventHandlers_lookup. intros H ws data user.
  repeat case_decide; simplify_eq.
  - unfold on_reset_votes. rounds_walk.
  - unfold on_next_round. rounds_walk.
  - unfold on_get_my_vote. rounds_walk.
  - unfold on_get_vote_counts. rounds_walk.
  - unfold handleVote, redis_incr, redis_decr. rounds_walk.
Qed.

Lemma rounds_step jwtVerify r ev : preserves (rounds_sound r) (step jwtVerify ev).
Proof.
  destruct ev as [ws|ws msg|ws|d]; cbn [step]; unfold on_connection, on_close.
  - apply preserves_modify. intros st. by apply rounds_sound_store.
  - apply on_message_preserves.
    + intros data. apply identify_preserves.
      * intros us st. by apply rounds_sound_store.
      * intros st. by apply rounds_sound_store.
      * apply rounds_send.
    + apply rounds_send.
    + intros event h Hh. by apply (rounds_handlers r event).
  - apply preserves_modify. intros st. by apply rounds_sound_store.
  - apply preserves_modify. intros st. by apply rounds_sound_store.
Qed.

Lemma no_round_after_reads last st round x :
  no_round_after last st → (last < round)%N →
  tally st round x = Some 0%Z ∧ my_vote st round x = None.
Proof.
  intros H Hlt. destruct (H round x Hlt) as [H1 H2]. split.
  - by apply tally_missing.
  - unfold my_vote. by rewrite GET_lookup, H1.
Qed.

(** *** A closed socket *)

Lemma closed_ext ws out st st' :
  clients st' = clients st → users st' = users st → sent st' = sent st →
  closed ws out st → closed ws out st'.
Proof. unfold closed, frames_to. by intros -> -> ->. Qed.

Lemma closed_store_call ws out : preserves (closed ws out) store_call.
Proof. apply preserves_store_call. intros fs st. by apply closed_ext. Qed.

Lemma closed_redis_get ws out k : preserves (closed ws out) (redis_get k).
Proof. apply preserves_redis_get. intros fs st. by apply closed_ext. Qed.

Lemma closed_redis_set_ex ws out k v ttl : preserves (closed ws out) (redis_set_ex k v ttl).
Proof.
  apply preserves_redis_set_ex; [intros fs st; by apply closed_ext|].
  intros st. by apply closed_ext.
Qed.

Lemma closed_redis_incrby ws out k d : preserves (closed ws out) (redis_incrby k d).
Proof.
  apply preserves_redis_incrby; [intros fs st; by apply closed_ext|].
  intros st m z _. by apply closed_ext.
Qed.

Lemma closed_redis_del ws out k : preserves (closed ws out) (redis_del k).
Proof.
  apply preserves_redis_del; [intros fs st; by apply closed_ext|].
  intros st. by apply closed_ext.
Qed.

Lemma closed_send ws out ws' ev : ws' ≠ ws → preserves (closed ws out) (send ws' ev).
Proof.
  intros Hne. apply preserves_send. intros st (Hcl & Hus & Hout).
  split; [done|]. split; [done|].
  rewrite frames_to_app, filter_cons_False by done. by rewrite app_nil_r.
Qed.

Lemma closed_broadcast ws out ev : preserves (closed ws out) (broadcast ev).
Proof.
  apply preserves_broadcast. intros st (Hcl & Hus & Hout).
  split; [done|]. split; [done|].
  rewrite frames_to_app, filter_to_all_ne by done. by rewrite app_nil_r.
Qed.

Lemma closed_broadcastVoteCounts ws out : preserves (closed ws out) broadcastVoteCounts.
Proof.
  apply preserves_broadcastVoteCounts; [|apply closed_broadcast].
  intros fs st. by apply closed_ext.
Qed.

Lemma closed_readVoteCounts ws out cs vc : preserves (closed ws out) (readVoteCounts cs vc).
Proof. apply preserves_readVoteCounts. intros fs st. by apply closed_ext. Qed.

#[local] Hint Resolve closed_store_call closed_redis_get closed_redis_set_ex
  closed_redis_incrby closed_redis_del closed_send closed_broadcast
  closed_broadcastVoteCounts closed_readVoteCounts : preserves.
#[local] Hint Extern 1 (preserves (closed _ _) (modify _)) =>
  apply preserves_modify; intros ?; by apply closed_ext : preserves.

Lemma closed_handlers ws out ws' event (h : handler) :
  ws' ≠ ws → eventHandlers !! event = Some h →
  ∀ data user, preserves (closed ws out) (h ws' data user).
Proof.
  rewrite eventHandlers_lookup. intros Hne H data user.
  repeat case_decide; simplify_eq.
  - unfold on_reset_votes. preserves_walk.
  - unfold on_next_round. preserves_walk.
  - unfold on_get_my_vote. preserves_walk.
  - unfold on_get_vote_counts. preserves_walk.
  - unfold handleVote, redis_incr, redis_decr. preserves_walk.
Qed.

Lemma closed_step jwtVerify ws out ev :
  on_socket ws ev = false → preserves (closed ws out) (step jwtVerify ev).
Proof.
  destruct ev as [ws'|ws' msg|ws'|d]; cbn [step on_socket];
    unfold on_connection, on_close; intros Hne; try apply bool_decide_eq_false in Hne.
  - apply preserves_modify. intros st (Hcl & Hus & Hout).
    split; [|done]. state_simpl.
    rewrite elem_of_app, list_elem_of_singleton. intros [? | ?]; congruence.
  - apply on_message_preserves.
    + intros data. apply identify_preserves.
      * intros u st (Hcl & Hus & Hout). split; [done|]. split; [|done].
        state_simpl. by rewrite lookup_insert_ne.
      * intros st. by apply closed_ext.
      * intros ev. by apply closed_send.
    + intros ev. by apply closed_send.
    + intros event h Hh. by apply (closed_handlers ws out ws' event).
  - apply preserves_modify. intros st (Hcl & Hus & Hout).
    split; [|split; [|done]]; state_simpl.
    + by intros [_ ?]%list_elem_of_filter.
    + by rewrite lookup_delete_ne.
  - apply preserves_modify. intros st. by apply closed_ext.
Qed.

Lemma closed_on_close ws st :
  closed ws (frames_to ws st) (final (on_close ws st)).
Proof.
  unfold on_close. cbn [modify final]. split; [|split]; state_simpl.
  - by intros [? _]%list_elem_of_filter.
  - apply lookup_delete_eq.
  - done.
Qed.

(** *** What the handlers keep *)

Lemma keeps_preserves {A B} (f : state → B) (P : state → Prop) (m : M A) :
  keeps f m → (∀ st st', f st' = f st → P st → P st') → preserves P m.
Proof. intros Hm HP st. apply HP. apply Hm. Qed.

Lemma keeps_on_next_round_catalog ws data user :
  keeps contestants (on_next_round ws data user).
Proof.
  intros st. by destruct (on_next_round_eq ws data user st) as (fs & out & ->).
Qed.

Section round_and_catalog.
Context (jwtVerify : N → string → option bool) (r : N) (cs : list Contestant.t).

Lemma settled_ext st st' :
  (currentRound st', contestants st') = (currentRound st, contestants st) →
  settled r cs st → settled r cs st'.
Proof. unfold settled. by intros [= -> ->]. Qed.

Lemma settled_handlers event (h : handler) :
  eventHandlers !! event = Some h →
  ∀ ws data user, preserves (settled r cs) (h ws data user).
Proof.
  rewrite eventHandlers_lookup. intros H ws data user.
  repeat case_decide; simplify_eq.
  - apply (keeps_preserves (λ st, (currentRound st, contestants st)));
      [by apply keeps_on_reset_votes | apply settled_ext].
  - intros st [Hr Hcs]. destruct (on_next_round_eq ws data user st) as (fs & out & ->).
    split; state_simpl; [lia | done].
  - apply (keeps_preserves (λ st, (currentRound st, contestants st)));
      [by apply keeps_on_get_my_vote | apply settled_ext].
  - apply (keeps_preserves (λ st, (currentRound st, contestants st)));
      [by apply keeps_on_get_vote_counts | apply settled_ext].
  - apply (keeps_preserves (λ st, (currentRound st, contestants st)));
      [by apply keeps_handleVote | apply settled_ext].
Qed.

Lemma settled_send ws ev : preserves (settled r cs) (send ws ev).
Proof. by apply preserves_send. Qed.

Lemma settled_step ev : preserves (settled r cs) (step jwtVerify ev).
Proof.
  destruct ev as [ws|ws msg|ws|d]; cbn [step]; unfold on_connection, on_close.
  - by apply preserves_modify.
  - apply on_message_preserves.
    + intros data. apply identify_preserves; [done | done | apply settled_send].
    + apply settled_send.
    + intros event h Hh. by apply (settled_handlers event).
  - by apply preserves_modify.
  - by apply preserves_modify.
Qed.

End round_and_catalog.

(** *** A server without an admin *)

Section no_admin.
Context (jwtVerify : N → string → option bool) (r : N).
Hypothesis no_token : ∀ now token, jwtVerify now token ≠ Some true.

Lemma locked_ext st st' :
  (currentRound st', isAdmin st') = (currentRound st, isAdmin st) →
  locked r st → locked r st'.
Proof. unfold locked, socket_isAdmin. by intros [= -> ->]. Qed.

Lemma locked_on_message ws msg : preserves (locked r) (on_message jwtVerify ws msg).
Proof using no_token.
  destruct msg as [|event data]; cbn [on_message]; [apply preserves_ret|].
  destruct (String.eqb event "identify").
  { intros st H. rewrite identify_plain; [revert H; by apply locked_ext|].
    unfold no_admin_token.
    destruct (data_token data) as [token|]; [right; apply no_token | done]. }
  intros st H. rewrite (bind_gets users).
  destruct (users st !! ws) as [user|]; [|done].
  rewrite (bind_gets (socket_isAdmin ws)).
  pose proof H as [_ Hadm]. rewrite (Hadm ws). cbn [negb].
  rewrite andb_true_r.
  destruct (String.eqb event "next_round" || String.eqb event "reset_votes") eqn:E.
  { revert H. by apply locked_ext. }
  apply orb_false_elim in E as [E1 E2].
  apply String.eqb_neq in E1, E2.
  rewrite eventHandlers_lookup.
  rewrite decide_False by done. rewrite decide_False by done.
  revert H. repeat case_decide.
  - apply (keeps_preserves (λ st, (currentRound st, isAdmin st)));
      [by apply keeps_on_get_my_vote | apply locked_ext].
  - apply (keeps_preserves (λ st, (currentRound st, isAdmin st)));
      [by apply keeps_on_get_vote_counts | apply locked_ext].
  - apply (keeps_preserves (λ st, (currentRound st, isAdmin st)));
      [by apply keeps_handleVote | apply locked_ext].
  - done.
Qed.

Lemma locked_step ev : preserves (locked r) (step jwtVerify ev).
Proof using no_token.
  destruct ev as [ws|ws msg|ws|d]; cbn [step]; unfold on_connection, on_close.
  - apply preserves_modify. intros st [Hr Hadm]. split; [done|]. intros ws'.
    unfold socket_isAdmin in *. state_simpl.
    destruct (decide (ws = ws')) as [->|Hne];
      [by rewrite lookup_insert_eq | rewrite lookup_insert_ne by done; apply Hadm].
  - apply locked_on_message.
  - apply preserves_modify. intros st. by apply locked_ext.
  - apply preserves_modify. intros st. by apply locked_ext.
Qed.

End no_admin.

(** * Properties of the code beyond the specification's claims *)

(** ** Keys *)

(** X1.  The keys of the store never collide: the key of a vote record
    determines its round and its voter, the key of a counter determines its
    round and its contestant, and no vote record shares its key with a
    counter -- whatever characters the voter's id or the contestant's id
    contains. *)
Theorem keys_never_collide round round' x x' :
  (voteKey round x = voteKey round' x' → round = round' ∧ x = x') ∧
  (tallyKey round x = tallyKey round' x' → round = round' ∧ x = x') ∧
  voteKey round x ≠ tallyKey round' x'.
Proof.
  split; [apply voteKey_inj|]. split; [apply tallyKey_inj | apply voteKey_tallyKey].
Qed.

(** ** The router *)

(** X2.  A message that does not parse, a request other than [identify] on
    a socket that has not identified, and a request for which
    [eventHandlers[event]] is [undefined] -- no handler is registered for
    the event, and the event is none of the property names that the table
    inherits from [Object.prototype] -- are dropped: the state stays as it
    was and no frame is written, whoever sends them.  (The messages meant are
    those of the model: text that does not parse, or an object with a
    string [event].) *)
Theorem unroutable_dropped jwtVerify ws msg st :
  unroutable ws msg st →
  on_message jwtVerify ws msg st = Done tt st.
Proof.
  destruct msg as [|event data]; [done|]. intros [Hid [Hus | [Hno _]]].
  { by apply on_message_unidentified. }
  cbn [on_message]. apply String.eqb_neq in Hid. rewrite Hid.
  rewrite (bind_gets users). destruct (users st !! ws) as [user|]; [|done].
  rewrite (bind_gets (socket_isAdmin ws)).
  replace (eventHandlers !! event) with (@None handler) by exact (eq_sym Hno).
  rewrite eventHandlers_lookup in Hno.
  destruct (decide (event = "reset_votes")) as [|H1]; [done|].
  destruct (decide (event = "next_round")) as [|H2]; [done|].
  apply String.eqb_neq in H1, H2. by rewrite H1, H2.
Qed.

Lemma unroutable_dropped_witness :
  on_message Demo.jwtVerify 1 (Demo.vote_for (JS.Str "A")) (boot Demo.rows)
    = Done tt (boot Demo.rows) ∧
  on_message Demo.jwtVerify 1 (Demo.request "shutdown") Demo.opened = Done tt Demo.opened.
Proof.
  split.
  - apply (unroutable_dropped Demo.jwtVerify 1 (Demo.vote_for (JS.Str "A")) (boot Demo.rows)).
    split; [discriminate | by left].
  - apply (unroutable_dropped Demo.jwtVerify 1 (Demo.request "shutdown") Demo.opened).
    split; [discriminate|]. right. split; [vm_compute; reflexivity|].
    unfold inherited. intros H.
    repeat (apply elem_of_cons in H as [[=]|H]). by apply elem_of_nil in H.
Defined.

(** X3.  An [identify] whose token is absent, empty, rejected by the
    verifier or without the admin claim is not refused: it completes, binds
    the socket to the uuid it carries, leaves the [isAdmin] flag of the
    socket as it was, and is answered with one [welcome] that carries the
    catalog, the current round and that flag. *)
Theorem identify_without_admin_token jwtVerify ws data st :
  no_admin_token jwtVerify (clock st) (data_token data) →
  on_message jwtVerify ws (envelope "identify" data) st =
    Done tt (set_sent (sent st ++ [(ws, Out.welcome (data_uuid data) (contestants st)
                                          (currentRound st) (socket_isAdmin ws st))])
               (set_users (<[ws := User (data_uuid data)]> (users st)) st)).
Proof.
  intros Htok. cbn [on_message String.eqb Ascii.eqb Bool.eqb].
  by apply identify_plain.
Qed.

Lemma identify_without_admin_token_witness :
  let st := Demo.opened in
  on_message Demo.jwtVerify 1 (Demo.identify_as "Y" (Some "forged")) st =
    Done tt (set_sent (sent st ++ [(1, Out.welcome (JS.Str "Y") Demo.rows 0 false)])
               (set_users (<[1 := User (JS.Str "Y")]> (users st)) st)).
Proof.
  intros st.
  apply (identify_without_admin_token Demo.jwtVerify 1
           (Payload (JS.Str "Y") (Some "forged") (JS.Str EmptyString)) st).
  right. vm_compute. discriminate.
Defined.

(** ** Reading the tallies *)

(** X4.  With the store available, [get_vote_counts] from an identified
    socket is answered with one [vote_update], written to that socket only
    and changing nothing else: its [voteCounts] has exactly the ids of the
    catalog as keys, each with the tally of the current round, and a counter
    that is missing from the store reads 0. *)
Theorem get_vote_counts_reply jwtVerify ws data user st :
  faults st = [] →
  users st !! ws = Some user →
  ∃ voteCounts,
    on_message jwtVerify ws (envelope "get_vote_counts" data) st =
      Done tt (set_sent (sent st ++ [(ws, Out.vote_update voteCounts)]) st) ∧
    (∀ c, c ∈ contestants st →
       voteCounts !! JS.template (Contestant.id c) =
         Some (tally st (currentRound st) (JS.template (Contestant.id c)))) ∧
    (∀ id, id ∉ catalog_ids st → voteCounts !! id = None) ∧
    (∀ id, redis st !! tallyKey (currentRound st) id = None →
       tally st (currentRound st) id = Some 0%Z).
Proof.
  intros Hf Hus. exists (read_counts st (contestants st) ∅). split.
  - rewrite (on_message_dispatch jwtVerify ws _ data user on_get_vote_counts st);
      [by apply on_get_vote_counts_available | done | done | | done].
    right. split; discriminate.
  - split; [apply read_counts_catalog|]. split; [apply read_counts_other|].
    intros id. apply tally_missing.
Qed.

Lemma get_vote_counts_reply_witness :
  ∃ voteCounts,
    on_message Demo.jwtVerify 1 (Demo.request "get_vote_counts") Demo.x_votes_A =
      Done tt (set_sent (sent Demo.x_votes_A ++ [(1, Out.vote_update voteCounts)])
                 Demo.x_votes_A) ∧
    voteCounts !! "A" = Some (Some 1%Z) ∧ voteCounts !! "B" = Some (Some 0%Z) ∧
    voteCounts !! "Z" = None.
Proof.
  destruct (get_vote_counts_reply Demo.jwtVerify 1 Demo.request_data (User (JS.Str "X"))
              Demo.x_votes_A) as (vc & Hdone & Hin & Hout & _).
  - vm_compute; reflexivity.
  - vm_compute; reflexivity.
  - exists vc. split; [exact Hdone|].
    split; [|split].
    + etrans; [apply (Hin (Contestant.Make (JS.Str "A") "Ann")) | vm_compute; reflexivity].
      vm_compute. apply elem_of_cons. by left.
    + etrans; [apply (Hin (Contestant.Make (JS.Str "B") "Bob")) | vm_compute; reflexivity].
      vm_compute. apply elem_of_cons. right. apply elem_of_cons. by left.
    + apply Hout. vm_compute. intros H.
      repeat (apply elem_of_cons in H as [[=]|H]). by apply elem_of_nil in H.
Defined.

(** X5.  [get_vote_counts] and [get_my_vote] only read: whether the store
    answers or fails, the store, its clock, the round, the catalog, the
    users and the sockets are afterwards as before, and at most one frame
    has been written, to the socket that asked. *)
Theorem queries_read_only jwtVerify ws event data st :
  event = "get_vote_counts" ∨ event = "get_my_vote" →
  ∃ fs out,
    final (on_message jwtVerify ws (envelope event data) st) =
      set_faults fs (set_sent (sent st ++ out) st) ∧
    (out = [] ∨ ∃ ev, out = [(ws, ev)]).
Proof.
  intros Hev.
  assert (∃ fs out, st = set_faults fs (set_sent (sent st ++ out) st) ∧
                    (out = [] ∨ ∃ ev, out = [(ws, ev)])) as Hsame.
  { exists (faults st), []. rewrite app_nil_r. split; [by destruct st | by left]. }
  destruct (users st !! ws) as [user|] eqn:Hus; last first.
  { rewrite on_message_unidentified; [done | by destruct Hev as [-> | ->] | done]. }
  destruct Hev as [-> | ->].
  - rewrite (on_message_dispatch jwtVerify ws _ data user on_get_vote_counts st);
      [| done | done | right; split; discriminate | done].
    unfold on_get_vote_counts. rewrite bind_gets. unfold mbind, M_bind.
    destruct (readVoteCounts_final (contestants st) ∅ st) as [fs Hfs].
    destruct (readVoteCounts (contestants st) ∅ st) as [vc st1|st1];
      cbn [final] in Hfs; subst st1.
    + exists fs, [(ws, Out.vote_update vc)]. split; [done | right; eauto].
    + exists fs, []. rewrite app_nil_r. split; [by destruct st | by left].
  - rewrite (on_message_dispatch jwtVerify ws _ data user on_get_my_vote st);
      [| done | done | right; split; discriminate | done].
    unfold on_get_my_vote. rewrite bind_gets. unfold redis_get, mbind, M_bind.
    destruct (store_call st) as [[] st1|st1] eqn:E.
    + apply store_call_Done in E as [fs ->].
      eexists fs, [(ws, _)]. split; [done | right; eauto].
    + apply store_call_Thrown in E as [fs ->].
      exists fs, []. rewrite app_nil_r. split; [by destruct st | by left].
Qed.

Lemma queries_read_only_witness :
  ∃ fs out,
    final (on_message Demo.jwtVerify 1 (Demo.request "get_my_vote") Outage.store_down) =
      set_faults fs (set_sent (sent Outage.store_down ++ out) Outage.store_down) ∧
    (out = [] ∨ ∃ ev, out = [(1, ev)]).
Proof.
  apply (queries_read_only Demo.jwtVerify 1 "get_my_vote" Demo.request_data
           Outage.store_down).
  by right.
Defined.

(** ** Votes *)

(** X6.  A voter with a truthy id who has no live record in the current
    round -- none was written, or it has expired -- casts a vote: when the
    cast completes, the tally of the chosen contestant in the current round
    is one more, every other tally of every round is as before, the round
    has one more live record, and the voter's record names the contestant. *)
Theorem first_vote_counts ws data user st st' :
  JS.truthy (uuid user) = true →
  my_vote st (currentRound st) (JS.template (uuid user)) = None →
  handleVote ws data user st = Done tt st' →
  (∃ n, tally st (currentRound st) (JS.template (data_contestantId data)) = Some n ∧
        tally st' (currentRound st) (JS.template (data_contestantId data))
          = Some (n + 1)%Z) ∧
  (∀ round id,
     (round, id) ≠ (currentRound st, JS.template (data_contestantId data)) →
     tally st' round id = tally st round id) ∧
  active_votes st' (currentRound st) = active_votes st (currentRound st) + 1 ∧
  my_vote st' (currentRound st) (JS.template (uuid user))
    = Some (JS.template (data_contestantId data)).
Proof.
  intros Hu Hprev Hdone.
  assert (JS.strict_eq (my_vote st (currentRound st) (JS.template (uuid user)))
            (data_contestantId data) = false) as Heq by (by rewrite Hprev).
  set (round := currentRound st) in *.
  set (c := JS.template (data_contestantId data)) in *.
  assert (∀ r id, vote_gain round c r id =
                  if bool_decide ((r, id) = (round, c)) then 1%Z else 0%Z) as Hgain.
  { intros r id. unfold vote_gain. apply (f_equal (λ x : bool, if x then _ else _)).
    apply bool_decide_ext. split; [by intros [-> ->] | by intros [= -> ->]]. }
  assert (∀ r id, vote_loss None round r id = 0%Z) as Hloss.
  { intros r id. unfold vote_loss. rewrite bool_decide_false; [done|].
    by intros (_ & ? & _). }
  split; [|split; [|split]].
  - destruct (handleVote_tally_touched ws data user st st' Hu Heq Hdone round c)
      as (n & Hn & Hn').
    { left. fold round c. rewrite Hgain. by rewrite bool_decide_true. }
    fold round c in Hn'. rewrite Hprev, Hgain, Hloss in Hn'.
    rewrite bool_decide_true in Hn' by done.
    exists n. split; [done|]. rewrite Hn'. f_equal. lia.
  - intros r id Hne.
    apply (handleVote_tally_other ws data user st st' Hu Heq Hdone); fold round c.
    + rewrite Hgain. by rewrite bool_decide_false.
    + by rewrite Hprev, Hloss.
  - pose proof (handleVote_active_votes ws data user st st' Hu Hdone round Heq) as H.
    fold round in H. rewrite Hprev in H.
    rewrite bool_decide_false in H by (by intros [_ [? [=]]]).
    rewrite bool_decide_true in H by done. lia.
  - by apply (handleVote_my_vote ws data user st st').
Qed.

Lemma first_vote_counts_witness :
  (∃ n, tally Unknown.before 0 "Z" = Some n ∧ tally Unknown.after 0 "Z" = Some (n + 1)%Z) ∧
  active_votes Unknown.after 0 = active_votes Unknown.before 0 + 1 ∧
  my_vote Unknown.after 0 "X" = Some "Z".
Proof.
  destruct (first_vote_counts 1 Unknown.ballot Unknown.voter Unknown.before Unknown.after)
    as (Hn & _ & Hact & Hrec).
  - reflexivity.
  - vm_compute; reflexivity.
  - vm_compute; reflexivity.
  - split; [exact Hn|]. split; [exact Hact | exact Hrec].
Defined.

(** X7.  A vote that completes touches no record but the voter's own of
    the current round: the record of every other voter, and of every other
    round, reads as before, and the clock, the round, the catalog, the users
    and the sockets are unchanged. *)
Theorem vote_leaves_other_records ws data user st st' :
  handleVote ws data user st = Done tt st' →
  (∀ round' uuid',
     (round', uuid') ≠ (currentRound st, JS.template (uuid user)) →
     my_vote st' round' uuid' = my_vote st round' uuid') ∧
  clock st' = clock st ∧ currentRound st' = currentRound st ∧
  contestants st' = contestants st ∧ users st' = users st ∧
  isAdmin st' = isAdmin st ∧ clients st' = clients st.
Proof.
  intros Hdone. split.
  - intros round' uuid'. by apply (handleVote_other_records ws data user).
  - by apply (handleVote_unchanged ws data user).
Qed.

Lemma vote_leaves_other_records_witness :
  my_vote Switch.after 0 "Y" = my_vote Switch.before 0 "Y" ∧
  my_vote Switch.after 1 "X" = my_vote Switch.before 1 "X" ∧
  currentRound Switch.after = currentRound Switch.before.
Proof.
  destruct (vote_leaves_other_records 1 Switch.ballot Switch.voter Switch.before
              Switch.after) as (Hrec & _ & Hround & _).
  - vm_compute; reflexivity.
  - split; [apply Hrec; vm_compute; congruence|].
    split; [apply Hrec; vm_compute; congruence | exact Hround].
Defined.

(** X8.  A voter whose live record names contestant [c] votes for [c]
    again, the id sent as the same string: when the cast completes the store
    has not been written -- so the expiry of the record is not extended and
    the record runs out when it would have -- and the only frame is the
    caller's [vote_success]; nothing is broadcast. *)
Theorem same_vote_not_refreshed ws data user st st' c :
  JS.truthy (uuid user) = true →
  data_contestantId data = JS.Str c →
  my_vote st (currentRound st) (JS.template (uuid user)) = Some c →
  handleVote ws data user st = Done tt st' →
  redis st' = redis st ∧
  sent st' = sent st ++ [(ws, Out.vote_success (JS.Str c))] ∧
  ∀ seconds round uuid,
    my_vote (later seconds st') round uuid = my_vote (later seconds st) round uuid.
Proof.
  intros Hu Hc Hprev Hdone.
  assert (JS.strict_eq (my_vote st (currentRound st) (JS.template (uuid user)))
            (data_contestantId data) = true) as Heq.
  { rewrite Hprev, Hc. cbn [JS.strict_eq]. apply String.eqb_refl. }
  destruct (handleVote_same ws data user st st' Hu Heq Hdone) as [fs ->].
  by rewrite Hc.
Qed.

Lemma same_vote_not_refreshed_witness :
  redis Again.after = redis Again.before ∧
  sent Again.after = sent Again.before ++ [(1, Out.vote_success (JS.Str "A"))] ∧
  ∀ seconds round uuid,
    my_vote (later seconds Again.after) round uuid
      = my_vote (later seconds Again.before) round uuid.
Proof.
  apply (same_vote_not_refreshed 1 Again.ballot Again.voter Again.before Again.after "A").
  - reflexivity.
  - reflexivity.
  - vm_compute; reflexivity.
  - vm_compute; reflexivity.
Defined.

(** X9.  A vote that writes the voter's record -- any cast but the repeat
    of X8 -- gives the record one hour from the time of the cast: with
    nothing else happening, the voter's choice is read back for the next
    3600 seconds and is gone from then on. *)
Theorem vote_record_lifetime ws data user st st' seconds :
  JS.truthy (uuid user) = true →
  JS.strict_eq (my_vote st (currentRound st) (JS.template (uuid user)))
               (data_contestantId data) = false →
  handleVote ws data user st = Done tt st' →
  my_vote (later seconds st') (currentRound st) (JS.template (uuid user)) =
    if (seconds <? 3600)%N then Some (JS.template (data_contestantId data)) else None.
Proof.
  intros Hu Heq Hdone.
  destruct (handleVote_other ws data user st st' Hu Heq Hdone)
    as (m1 & m3 & z & fs & out & _ & Hm3 & -> & _).
  apply INCRBY_Some in Hm3 as (e & -> & _).
  unfold my_vote, later. state_simpl.
  rewrite GET_insert_ne by (intros H; symmetry in H; by apply voteKey_tallyKey in H).
  unfold Redis.SETEX. rewrite GET_lookup, lookup_insert_eq.
  unfold Redis.live. cbn [Redis.expires Redis.value].
  change (60 * 60)%N with 3600%N.
  destruct (N.ltb_spec seconds 3600); destruct (N.ltb_spec (clock st + seconds)
    (clock st + 3600)); (done || lia).
Qed.

Lemma vote_record_lifetime_witness :
  my_vote (later 3599 Unknown.after) 0 "X" = Some "Z" ∧
  my_vote (later 3600 Unknown.after) 0 "X" = None.
Proof.
  split.
  - apply (vote_record_lifetime 1 Unknown.ballot Unknown.voter Unknown.before
             Unknown.after 3599); vm_compute; reflexivity.
  - apply (vote_record_lifetime 1 Unknown.ballot Unknown.voter Unknown.before
             Unknown.after 3600); vm_compute; reflexivity.
Defined.

(** X10.  With the store available, a voter with a truthy id whose [vote]
    has completed and who then asks [get_my_vote] is answered with one
    [my_vote] that carries the contestant id of that vote, as a string. *)
Theorem my_vote_round_trip jwtVerify ws data data' user st st' :
  faults st = [] →
  users st !! ws = Some user →
  JS.truthy (uuid user) = true →
  on_message jwtVerify ws (envelope "vote" data) st = Done tt st' →
  on_message jwtVerify ws (envelope "get_my_vote" data') st' =
    Done tt (set_sent (sent st' ++
               [(ws, Out.my_vote (Some (JS.template (data_contestantId data))))]) st').
Proof.
  intros Hf Hus Hu Hdone. rewrite (on_message_vote _ _ _ user) in Hdone by done.
  destruct (handleVote_unchanged ws data user st st' Hdone)
    as (_ & Hround & _ & Husers & _).
  assert (faults st' = []) as Hf'.
  { pose proof (calm_handleVote ws data user st Hf) as H. by rewrite Hdone in H. }
  rewrite (on_message_dispatch jwtVerify ws _ data' user on_get_my_vote st');
    [| done | by rewrite Husers | right; split; discriminate | done].
  rewrite on_get_my_vote_available by done. rewrite Hround.
  by rewrite (handleVote_my_vote ws data user st st' Hu Hdone).
Qed.

Lemma my_vote_round_trip_witness :
  let st' := final (on_message Demo.jwtVerify 1 (Demo.vote_for (JS.Num 7)) Demo.opened) in
  on_message Demo.jwtVerify 1 (Demo.request "get_my_vote") st' =
    Done tt (set_sent (sent st' ++ [(1, Out.my_vote (Some "7"))]) st').
Proof.
  intros st'.
  apply (my_vote_round_trip Demo.jwtVerify 1
           (Payload (JS.Str EmptyString) None (JS.Num 7)) Demo.request_data
           (User (JS.Str "X")) Demo.opened st').
  - vm_compute; reflexivity.
  - vm_compute; reflexivity.
  - reflexivity.
  - vm_compute; reflexivity.
Defined.



(** ** The admin requests *)



(** X13.  With the store available, [reset_votes] deletes the counters of
    the contestants of the catalog in the rounds 0 to the current one and
    nothing else: every other key of the store is as before, so the tally of
    an id that is not in the catalog, and every tally of a later round, reads
    as before. *)
Theorem reset_votes_scope ws data user st :
  faults st = [] →
  ∃ st', on_reset_votes ws data user st = Done tt st' ∧
    (∀ k, (∀ round c, (round ≤ currentRound st)%N → c ∈ contestants st →
             k ≠ tallyKey round (JS.template (Contestant.id c))) →
          redis st' !! k = redis st !! k) ∧
    (∀ round id, id ∉ catalog_ids st → tally st' round id = tally st round id) ∧
    (∀ round id, (currentRound st < round)%N → tally st' round id = tally st round id).
Proof.
  intros Hf. eexists. split; [by apply on_reset_votes_available_eq|].
  assert (∀ k, (∀ round c, (round ≤ currentRound st)%N → c ∈ contestants st →
                  k ≠ tallyKey round (JS.template (Contestant.id c))) →
               reset_db (contestants st) (rounds_upto (currentRound st)) (redis st) !! k
                 = redis st !! k) as Hkeep.
  { intros k Hk. apply reset_db_other. intros round c Hr Hc.
    apply Hk; [by apply rounds_upto_bound | done]. }
  split; [exact Hkeep|]. split.
  - intros round id Hid. unfold tally. state_simpl. rewrite !GET_lookup, Hkeep; [done|].
    intros round' c _ Hc [_ ->]%tallyKey_inj. apply Hid.
    apply list_elem_of_fmap. by exists c.
  - intros round id Hround. unfold tally. state_simpl. rewrite !GET_lookup, Hkeep; [done|].
    intros round' c Hr _ [-> _]%tallyKey_inj. lia.
Qed.

Lemma reset_votes_scope_witness :
  ∃ st', on_reset_votes 2 Demo.request_data (User (JS.Str "root")) Unknown.after
           = Done tt st' ∧
         tally st' 0 "Z" = Some 1%Z.
Proof.
  destruct (reset_votes_scope 2 Demo.request_data (User (JS.Str "root")) Unknown.after)
    as (st' & Hdone & _ & Hid & _).
  - vm_compute; reflexivity.
  - exists st'. split; [exact Hdone|]. rewrite Hid; [vm_compute; reflexivity|].
    vm_compute. intros H. repeat (apply elem_of_cons in H as [[=]|H]).
    by apply elem_of_nil in H.
Defined.



(** ** Failures *)

(** X15.  A switch of vote is not atomic.  When the store answers the read
    of the record and the decrement of the old contestant's counter and then
    fails at the write of the record, the handler rejects with the
    decrement done and nothing else: the tally of the old contestant is one
    less, the tally of the new one is as before, the voter's record still
    names the old contestant, and no frame has been written. *)
Theorem vote_switch_not_atomic ws data user st a fs :
  faults st = false :: false :: true :: fs →
  JS.truthy (uuid user) = true →
  my_vote st (currentRound st) (JS.template (uuid user)) = Some a →
  a ≠ EmptyString →
  a ≠ JS.template (data_contestantId data) →
  is_Some (Redis.INCRBY (redis st) (clock st) (tallyKey (currentRound st) a) (-1)) →
  ∃ st' n,
    handleVote ws data user st = Thrown st' ∧
    tally st (currentRound st) a = Some n ∧
    tally st' (currentRound st) a = Some (n - 1)%Z ∧
    tally st' (currentRound st) (JS.template (data_contestantId data))
      = tally st (currentRound st) (JS.template (data_contestantId data)) ∧
    my_vote st' (currentRound st) (JS.template (uuid user)) = Some a ∧
    sent st' = sent st.
Proof.
  intros Hf Hu Hprev Ha Hab [[m1 z] Hm1].
  exists (set_faults fs (set_redis m1 st)), (z + 1)%Z.
  split; [|split; [|split; [|split; [|split]]]].
  - unfold handleVote. rewrite Hu. cbn [negb]. rewrite bind_gets.
    rewrite (bind_eq _ _ _ _ _ (redis_get_answered _ _ st Hf)).
    unfold my_vote in Hprev. rewrite Hprev, (strict_eq_ne a _ Hab).
    assert (JS.reply_truthy (Some a) = true) as ->.
    { cbn [JS.reply_truthy]. apply String.eqb_neq in Ha. by rewrite Ha. }
    rewrite (bind_eq _ _ _ tt (set_redis m1 (set_faults (true :: fs) st))).
    + by rewrite (bind_rejects _ _ _ _ (redis_set_ex_failed _ _ _ fs
                               (set_redis m1 (set_faults (true :: fs) st)) eq_refl)).
    + rewrite bind_gets. unfold redis_decr.
      by rewrite (bind_eq _ _ _ _ _
        (redis_incrby_answered _ _ (true :: fs) (set_faults _ st) m1 z eq_refl Hm1)).
  - apply INCRBY_Some in Hm1 as (_ & _ & _ & _ & _ & Hc & _).
    by rewrite tally_count_at, Hc.
  - rewrite tally_count_at. state_simpl.
    rewrite (count_at_INCRBY _ _ _ _ _ _ (tallyKey (currentRound st) a) Hm1).
    rewrite decide_True by done. f_equal. lia.
  - rewrite !tally_count_at. state_simpl.
    rewrite (count_at_INCRBY _ _ _ _ _ _ _ Hm1).
    rewrite decide_False; [done|]. by intros [_ ?]%tallyKey_inj.
  - unfold my_vote in *. state_simpl. rewrite <- Hprev. by eapply GET_INCRBY_voteKey.
  - done.
Qed.

Lemma vote_switch_not_atomic_witness :
  ∃ st' n,
    handleVote 1 Switch.ballot Switch.voter Halfway.before = Thrown st' ∧
    tally Halfway.before 0 "A" = Some n ∧
    tally st' 0 "A" = Some (n - 1)%Z ∧
    tally st' 0 "B" = tally Halfway.before 0 "B" ∧
    my_vote st' 0 "X" = Some "A" ∧
    sent st' = sent Halfway.before.
Proof.
  apply (vote_switch_not_atomic 1 Switch.ballot Switch.voter Halfway.before "A" []).
  - vm_compute; reflexivity.
  - reflexivity.
  - vm_compute; reflexivity.
  - discriminate.
  - discriminate.
  - apply (bool_decide_unpack _). vm_compute. exact I.
Defined.

(** ** Invariants of the server *)

(** X16.  Whatever events the server handles after boot and whichever calls
    of the store fail, every tally -- of every round and every id -- reads
    as an integer: [parseInt] never gives [NaN] on a counter, so no
    [vote_update] carries a count that is no number. *)
Theorem tally_is_always_a_number jwtVerify rows fs evs round id :
  ∃ n, tally (run jwtVerify evs (set_faults fs (boot rows))) round id = Some n.
Proof.
  apply counters_sound_tally.
  apply (run_preserves jwtVerify counters_sound (λ _, True)).
  - intros ev _. apply sound_step.
  - by apply Forall_true.
  - intros r c e. cbn [boot set_faults redis]. by rewrite lookup_empty.
Qed.

(** X17.  If the store holds no key of a round after the current one --
    as when the server boots against an empty store; a store that kept keys
    of later rounds from an earlier run of the server is excluded -- then
    this stays so whatever events the server handles and whichever calls of
    the store fail: every tally of a later round reads 0 and no vote record
    of a later round exists.  So when [next_round] has run, the new round
    starts empty: each of its tallies is 0 and nobody has a vote in it. *)
Theorem new_round_starts_empty jwtVerify st evs ws data user :
  no_round_after (currentRound st) st →
  let st1 := run jwtVerify evs st in
  let st' := final (on_next_round ws data user st1) in
  (∀ x, tally st' (currentRound st') x = Some 0%Z ∧
        my_vote st' (currentRound st') x = None) ∧
  (∀ round x, (currentRound st1 < round)%N →
     tally st1 round x = Some 0%Z ∧ my_vote st1 round x = None).
Proof.
  intros Hst st1 st'.
  assert (rounds_sound (currentRound st) st1) as [_ Hst1].
  { apply (run_preserves jwtVerify (rounds_sound (currentRound st)) (λ _, True)).
    - intros ev _. apply rounds_step.
    - by apply Forall_true.
    - split; [lia | done]. }
  split; [|intros round x; by apply no_round_after_reads].
  intros x. subst st'.
  destruct (on_next_round_eq ws data user st1) as (fs' & out & ->).
  apply (no_round_after_reads (currentRound st1)); [|state_simpl; lia].
  intros r y Hr. state_simpl. by apply Hst1.
Qed.

Lemma new_round_starts_empty_witness :
  let st1 := run Demo.jwtVerify (Demo.opening ++ Hangup.events) (boot Demo.rows) in
  let st' := final (on_next_round 2 Demo.request_data (User (JS.Str "root")) st1) in
  currentRound st1 = 1%N ∧ tally st1 0 "A" = Some 1%Z ∧
  (∀ x, tally st' (currentRound st') x = Some 0%Z ∧
        my_vote st' (currentRound st') x = None) ∧
  (∀ round x, (currentRound st1 < round)%N →
     tally st1 round x = Some 0%Z ∧ my_vote st1 round x = None).
Proof.
  intros st1 st'. split; [vm_compute; reflexivity|]. split; [vm_compute; reflexivity|].
  apply (new_round_starts_empty Demo.jwtVerify (boot Demo.rows)
           (Demo.opening ++ Hangup.events) 2 Demo.request_data (User (JS.Str "root"))).
  intros round x _. cbn [boot redis]. by rewrite !lookup_empty.
Defined.

(** X18.  Once a socket has closed, and as long as nothing happens on it,
    no frame is written to it -- broadcasts pass it by -- it is not among
    the clients of the server, and a request on it other than [identify]
    would be dropped. *)
Theorem closed_socket_silent jwtVerify ws st evs :
  Forall (λ ev, on_socket ws ev = false) evs →
  let st' := run jwtVerify evs (final (step jwtVerify (close ws) st)) in
  frames_to ws st' = frames_to ws st ∧
  (ws ∉ clients st') ∧
  (∀ event data, event ≠ "identify" →
     on_message jwtVerify ws (envelope event data) st' = Done tt st').
Proof.
  intros Hevs st'.
  assert (closed ws (frames_to ws st) st') as (Hcl & Hus & Hout).
  { apply (run_preserves jwtVerify _ (λ ev, on_socket ws ev = false)).
    - intros ev Hev. by apply closed_step.
    - done.
    - apply closed_on_close. }
  split; [done|]. split; [done|].
  intros event data Hev. by apply on_message_unidentified.
Qed.

Lemma closed_socket_silent_witness :
  let st' := run Demo.jwtVerify Hangup.events
               (final (step Demo.jwtVerify (close 1) Demo.opened)) in
  frames_to 1 st' = frames_to 1 Demo.opened ∧ (1 ∉ clients st') ∧
  2 ∈ clients st' ∧ length (frames_to 2 st') = 5.
Proof.
  intros st'.
  destruct (closed_socket_silent Demo.jwtVerify 1 Demo.opened Hangup.events)
    as (Hout & Hcl & _).
  - repeat constructor.
  - split; [exact Hout|]. split; [exact Hcl|]. split.
    + vm_compute. apply elem_of_cons. by left.
    + vm_compute. reflexivity.
Defined.



(** X20.  No event makes the round smaller, and no event changes the
    catalog: after any events the round is at least what it was and the
    contestants are those loaded at boot. *)
Theorem round_only_grows jwtVerify evs st :
  (currentRound st ≤ currentRound (run jwtVerify evs st))%N ∧
  contestants (run jwtVerify evs st) = contestants st.
Proof.
  apply (run_preserves jwtVerify (settled (currentRound st) (contestants st)) (λ _, True)).
  - intros ev _. apply settled_step.
  - by apply Forall_true.
  - split; [lia | done].
Qed.

(** X21.  The server boots against an empty store and handles its events
    one at a time, each request to completion before the next event is taken
    (no two handlers overlap), the ids in the requests being JSON strings or
    integers.  As long as no [reset_votes] is handled -- records may
    expire -- a tally never falls behind the ledger: in every state the
    server reaches through events that complete, the tally of every round
    and every non-empty id is a number that is at least the number of live
    vote records of that round naming the id, and it is not negative. *)
Theorem tally_covers_live_votes jwtVerify rows st :
  resetless jwtVerify rows st →
  ∀ round id, id ≠ EmptyString →
    ∃ n, tally st round id = Some n ∧
         (Z.of_nat (live_votes st round id) ≤ n)%Z ∧ (0 ≤ n)%Z.
Proof.
  intros Hreach.
  assert (covered st) as [_ H].
  { induction Hreach as [|st ev st' _ IH Hev Hstep].
    - apply covered_boot.
    - by apply (step_covered jwtVerify ev st st'). }
  intros round id Hid. destruct (H round id) as (n & Hn & Hn0 & Hlive). eauto.
Qed.

Lemma steady_resetless jwtVerify rows st :
  steady jwtVerify rows st → resetless jwtVerify rows st.
Proof.
  induction 1 as [|st ev st' _ IH Hev Hstep _]; [apply resetless_boot|].
  by apply (resetless_step _ _ st ev).
Defined.

Lemma resetless_hour_later : resetless Demo.jwtVerify Demo.rows Demo.hour_later.
Proof.
  apply (resetless_step _ _ Demo.x_votes_A (elapse 3600) Demo.hour_later).
  - apply steady_resetless, steady_x_votes_A.
  - reflexivity.
  - vm_compute; reflexivity.
Defined.

Lemma tally_covers_live_votes_witness :
  ∃ n, tally Demo.hour_later 0 "A" = Some n ∧
       (Z.of_nat (live_votes Demo.hour_later 0 "A") ≤ n)%Z ∧ (0 ≤ n)%Z.
Proof.
  apply (tally_covers_live_votes Demo.jwtVerify Demo.rows Demo.hour_later).
  - apply resetless_hour_later.
  - discriminate.
Defined.

(** ** A voter without an id *)

(** X22.  A [vote] from a socket that identified with a falsy uuid -- the
    empty string or the number 0 -- is dropped by the handler: nothing is
    read from or written to the store, no frame is written, not even an
    error, and the state stays as it was. *)
Theorem vote_without_uuid_ignored jwtVerify ws data user st :
  users st !! ws = Some user →
  JS.truthy (uuid user) = false →
  on_message jwtVerify ws (envelope "vote" data) st = Done tt st.
Proof.
  intros Hus Hu. rewrite (on_message_vote _ _ _ user) by done.
  by apply handleVote_falsy.
Qed.

Lemma vote_without_uuid_ignored_witness :
  let st := final (on_message Demo.jwtVerify 1 (Demo.identify_as EmptyString None)
                     Demo.opened) in
  on_message Demo.jwtVerify 1 (Demo.vote_for (JS.Str "A")) st = Done tt st.
Proof.
  intros st.
  apply (vote_without_uuid_ignored Demo.jwtVerify 1 _ (User (JS.Str EmptyString)) st).
  - vm_compute; reflexivity.
  - reflexivity.
Defined.

(** ** More on broadcasts and counters *)

(** X23.  A broadcast of the tallies is all or nothing, and it changes
    nothing but the frames: the counters are all read before any frame is
    written, so either every open socket is sent the same [vote_update], in
    the order of the sockets, or -- when a read fails -- the broadcast
    rejects and no socket is sent anything. *)
Theorem broadcast_all_or_nothing st :
  ∃ fs,
    broadcastVoteCounts st = Thrown (set_faults fs st) ∨
    ∃ voteCounts,
      broadcastVoteCounts st =
        Done tt (set_faults fs
                   (set_sent (sent st ++ to_all (clients st) (Out.vote_update voteCounts))
                      st)).
Proof.
  unfold broadcastVoteCounts. rewrite bind_gets. unfold mbind, M_bind.
  destruct (readVoteCounts_final (contestants st) ∅ st) as [fs Hfs].
  exists fs.
  destruct (readVoteCounts (contestants st) ∅ st) as [vc st1|st1];
    cbn [final] in Hfs; subst st1.
  - right. exists vc. by rewrite broadcast_eq.
  - by left.
Qed.

(** X24.  Counters do not expire, though vote records do: whatever events
    the server handles after boot and whichever calls of the store fail, no
    tally changes by time passing alone. *)
Theorem tallies_do_not_expire jwtVerify rows fs evs seconds round id :
  let st := run jwtVerify evs (set_faults fs (boot rows)) in
  tally (later seconds st) round id = tally st round id.
Proof.
  intros st. apply counters_sound_later.
  apply (run_preserves jwtVerify counters_sound (λ _, True)).
  - intros ev _. apply sound_step.
  - by apply Forall_true.
  - intros r c e. cbn [boot set_faults redis]. by rewrite lookup_empty.
Qed.

(** X25.  [next_round] does its own work before any call of the store:
    when the catalog is not empty and the store fails at the next call,
    [next_round] from an identified admin socket has made the round one more
    and written [round_update] with the new round to every open socket, and
    its own promise resolves; no [vote_update] and no [error] is written.
    What fails is the [broadcastVoteCounts()] that the handler calls without
    awaiting it: its rejection is caught by no code of [index.js], and what
    the runtime does with a rejection that nothing handles -- it may end the
    process -- is outside this statement. *)
Theorem next_round_before_store_failure jwtVerify ws data user st fs :
  users st !! ws = Some user →
  socket_isAdmin ws st = true →
  contestants st ≠ [] →
  faults st = true :: fs →
  on_message jwtVerify ws (envelope "next_round" data) st =
    Done tt (set_faults fs
               (set_sent (sent st ++
                            to_all (clients st) (Out.round_update (currentRound st + 1)))
                  (set_currentRound (currentRound st + 1) st))) ∧
  broadcastVoteCounts
    (set_sent (sent st ++ to_all (clients st) (Out.round_update (currentRound st + 1)))
       (set_currentRound (currentRound st + 1) st)) =
    Thrown (set_faults fs
              (set_sent (sent st ++
                           to_all (clients st) (Out.round_update (currentRound st + 1)))
                 (set_currentRound (currentRound st + 1) st))).
Proof.
  intros Hus Hadm Hcs Hf. split; [|by apply broadcastVoteCounts_down].
  rewrite (on_message_dispatch jwtVerify ws _ data user on_next_round st);
    [| done | done | by left | done].
  unfold on_next_round. rewrite bind_modify, bind_gets.
  rewrite (bind_eq _ _ _ _ _ (broadcast_eq _ _)).
  unfold spawn. by rewrite (broadcastVoteCounts_down _ fs).
Qed.

Lemma next_round_before_store_failure_witness :
  let st := Blackout.before in
  on_message Demo.jwtVerify 2 (Demo.request "next_round") st =
    Done tt (set_faults []
               (set_sent (sent st ++ to_all [1; 2] (Out.round_update 1))
                  (set_currentRound 1 st))).
Proof.
  intros st.
  apply (next_round_before_store_failure Demo.jwtVerify 2 Demo.request_data
           (User (JS.Str "root")) st []).
  - vm_compute; reflexivity.
  - vm_compute; reflexivity.
  - discriminate.
  - reflexivity.
Defined.

(** * Handlers that overlap *)

Lemma play_app hs hs' w : Overlap.play (hs ++ hs') w = Overlap.play hs' (Overlap.play hs w).
Proof. apply foldl_app. Qed.

Lemma play_replies_S n w :
  Overlap.play (replicate (S n) Overlap.reply) w =
  Overlap.play (replicate n Overlap.reply) (Overlap.advance Overlap.reply w).
Proof. done. Qed.

(** The reads of a broadcast, answered one after the other, end in the
    broadcast of the definitions above. *)
Lemma overlap_readVoteCounts cs vc st :
  Overlap.play (replicate (length cs) Overlap.reply)
    (Overlap.enqueue [] (Overlap.readVoteCounts cs vc st)) =
  Overlap.World
    (set_sent (sent st ++ to_all (clients st) (Out.vote_update (read_counts st cs vc))) st)
    [].
Proof.
  revert vc. induction cs as [|c cs IH]; intros vc.
  - cbn [Overlap.readVoteCounts length replicate Overlap.play foldl Overlap.enqueue
         fst snd option_list]. by rewrite broadcast_eq.
  - cbn [length]. rewrite play_replies_S.
    cbn [Overlap.readVoteCounts Overlap.enqueue Overlap.advance Overlap.queue Overlap.js
         Overlap.execute fst snd option_list app].
    apply IH.
Qed.

Lemma enqueue_none q st : Overlap.enqueue q (st, None) = Overlap.World st q.
Proof. unfold Overlap.enqueue. cbn [fst snd]. unfold option_list. by rewrite app_nil_r. Qed.

Lemma enqueue_some q st t :
  Overlap.enqueue q (st, Some t) = Overlap.World st (q ++ [t]).
Proof. done. Qed.

Lemma advance_reply c k q st :
  Overlap.advance Overlap.reply (Overlap.World st (Overlap.Await c k :: q)) =
  Overlap.enqueue q (k (Overlap.execute c st).2 (Overlap.execute c st).1).
Proof. cbn [Overlap.advance Overlap.queue Overlap.js]. by destruct (Overlap.execute c st). Qed.

Lemma execute_INCRBY k delta st m z :
  Redis.INCRBY (redis st) (clock st) k delta = Some (m, z) →
  Overlap.execute (Overlap.INCRBY k delta) st = (set_redis m st, Overlap.number z).
Proof. intros H. cbn [Overlap.execute]. by rewrite H. Qed.

Ltac overlap_reply :=
  rewrite play_replies_S, advance_reply.

(** Lines 49-53, with their replies coming in before anything else
    happens. *)
Lemma overlap_write_vote ws key c st m3 z :
  Redis.INCRBY (Redis.SETEX (redis st) (clock st) key (JS.template c) (60 * 60))
    (clock st) (tallyKey (currentRound st) (JS.template c)) 1 = Some (m3, z) →
  Overlap.play (replicate (S (S (length (contestants st)))) Overlap.reply)
    (Overlap.enqueue [] (Overlap.write_vote ws key c st)) =
  Overlap.World
    (set_sent (sent st ++ (ws, Out.vote_success c) ::
                 to_all (clients st)
                   (Out.vote_update (read_counts (set_redis m3 st) (contestants st) ∅)))
       (set_redis m3 st))
    [].
Proof.
  intros Hm3. unfold Overlap.write_vote. rewrite enqueue_some. cbn [app].
  overlap_reply. cbn [Overlap.execute fst snd]. rewrite enqueue_some. cbn [app].
  overlap_reply.
  rewrite (execute_INCRBY _ _ (set_redis _ st) m3 z) by exact Hm3.
  cbn [fst snd]. unfold send, modify, Overlap.broadcastVoteCounts. state_simpl.
  rewrite (overlap_readVoteCounts (contestants st) ∅
             (set_sent (sent st ++ [(ws, Out.vote_success c)]) (set_redis m3 st))).
  state_simpl. by rewrite <- app_assoc.
Qed.

(** X26.  A vote that is handled alone goes as [handleVote] in one piece
    says.  The store available and no command pending, a vote arrives and
    the replies to its commands, those of the broadcast it starts among
    them, come in before anything else happens: whenever [handleVote] run
    to its end completes in a state, the server followed from [await] to
    [await] ends in that state, with no command pending. *)
Theorem vote_alone_as_one_piece ws data user st st' :
  faults st = [] →
  handleVote ws data user st = Done tt st' →
  ∃ n, Overlap.play (replicate n Overlap.reply)
         (Overlap.advance (Overlap.vote ws data user) (Overlap.World st []))
       = Overlap.World st' [].
Proof.
  intros Hf Hdone.
  cbn [Overlap.advance Overlap.queue Overlap.js]. unfold Overlap.handleVote.
  destruct (JS.truthy (uuid user)) eqn:Hu; cbn [negb]; last first.
  { rewrite handleVote_falsy in Hdone by done. injection Hdone as <-.
    exists 0. by rewrite enqueue_none. }
  rewrite enqueue_some. cbn [app].
  destruct (JS.strict_eq (my_vote st (currentRound st) (JS.template (uuid user)))
              (data_contestantId data)) eqn:Heq.
  { rewrite handleVote_same_available in Hdone by done. injection Hdone as <-.
    exists 1. overlap_reply. cbn [Overlap.execute fst snd].
    unfold my_vote in Heq. rewrite Heq, enqueue_none. done. }
  destruct (handleVote_other ws data user st st' Hu Heq Hdone)
    as (m1 & m3 & z & fs & out & Hm1 & Hm3 & _ & _).
  rewrite (handleVote_other_available_eq ws data user st m1 m3 z Hf Hu Heq Hm1 Hm3)
    in Hdone.
  injection Hdone as <-.
  pose proof (overlap_write_vote ws (voteKey (currentRound st) (JS.template (uuid user)))
                (data_contestantId data) (set_redis m1 st) m3 z Hm3) as Hwrite.
  state_simpl in Hwrite.
  assert (set_redis m3 (set_redis m1 st) = set_redis m3 st) as Hset by done.
  rewrite Hset in Hwrite. clear Hset.
  unfold my_vote in Heq, Hm1.
  destruct (Redis.GET (redis st) (clock st)
              (voteKey (currentRound st) (JS.template (uuid user)))) as [a|] eqn:Eprev;
    [destruct (JS.reply_truthy (Some a)) eqn:Etr|].
  - destruct Hm1 as [z0 Hm1].
    exists (S (S (S (S (length (contestants st)))))).
    overlap_reply. cbn [Overlap.execute fst snd]. rewrite Eprev, Heq, Etr.
    rewrite enqueue_some. cbn [app]. overlap_reply.
    rewrite (execute_INCRBY _ _ st m1 z0) by exact Hm1. cbn [fst snd].
    exact Hwrite.
  - subst m1. exists (S (S (S (length (contestants st))))).
    overlap_reply. cbn [Overlap.execute fst snd]. rewrite Eprev, Heq, Etr.
    revert Hwrite. by destruct st.
  - subst m1. exists (S (S (S (length (contestants st))))).
    overlap_reply. cbn [Overlap.execute fst snd]. rewrite Eprev, Heq.
    revert Hwrite. by destruct st.
Qed.


Lemma vote_alone_as_one_piece_witness :
  ∃ n, Overlap.play (replicate n Overlap.reply)
         (Overlap.advance Overlap.x_for_A (Overlap.World Demo.opened []))
       = Overlap.World Demo.x_votes_A [].
Proof.
  apply (vote_alone_as_one_piece 1 Again.ballot Again.voter Demo.opened Demo.x_votes_A);
    vm_compute; reflexivity.
Defined.

(** X27.  Two votes whose handlers overlap both count.  X, who has not
    voted, sends the same vote for A twice.  When the second message
    arrives after the first vote is through, the tally of A is 1.  When it
    arrives before the reply to the first read of the record (line 35),
    both handlers find no record and both increment the counter (line 50):
    the tally of A is 2 with one live record of a vote for A. *)
Theorem overlapping_votes_count_twice :
  (Overlap.queue Overlap.one_by_one = [] ∧
   tally (Overlap.js Overlap.one_by_one) 0 "A" = Some 1%Z ∧
   live_votes (Overlap.js Overlap.one_by_one) 0 "A" = 1) ∧
  (Overlap.queue Overlap.together = [] ∧
   tally (Overlap.js Overlap.together) 0 "A" = Some 2%Z ∧
   live_votes (Overlap.js Overlap.together) 0 "A" = 1).
Proof. repeat apply conj; vm_compute; reflexivity. Qed.

(** X28.  Two switches whose handlers overlap both take the old vote back.
    X holds a vote for A, the tally of A is 1, and X sends the same vote for
    B twice, the second message arriving before the reply to the first read
    of the record: both handlers read A and both decrement its counter
    (line 45), which then reads -1 with no [reset_votes] anywhere, and both
    increment the counter of B, which reads 2 with one live record. *)
Theorem overlapping_switches_go_negative :
  Overlap.queue Overlap.switches_together = [] ∧
  tally Demo.x_votes_A 0 "A" = Some 1%Z ∧
  tally (Overlap.js Overlap.switches_together) 0 "A" = Some (-1)%Z ∧
  tally (Overlap.js Overlap.switches_together) 0 "B" = Some 2%Z ∧
  live_votes (Overlap.js Overlap.switches_together) 0 "B" = 1.
Proof. repeat apply conj; vm_compute; reflexivity. Qed.
